(** * kustomap: reference resolution, crawling and dependency graph

    A shallow embedding of
    - [internal/repository/resolver.go] (branch/path disambiguation), and
    - [src/services/DependencyResolver.ts] (the [DependencyResolver] graph
      builder with its cycle detector, and the [GitCrawler]).

    Strings are byte strings: a Go [string] is one already, and a JavaScript
    string is taken through its UTF-8 encoding, which is exact on ASCII
    text (URLs, paths, branch names). *)

From Stdlib Require Import String Ascii List Arith Lia.
From stdpp Require Import base strings list gmap pretty.

Local Open Scope string_scope.
Local Open Scope nat_scope.
Local Open Scope list_scope.

(** ** Results of fallible code *)

(** A Go [(value, error)] pair, or a JavaScript call that returns or throws. *)
Inductive result (A : Type) : Type :=
| Ok (a : A)
| Err (msg : string).
Arguments Ok {A} a.
Arguments Err {A} msg.

(** ** String primitives shared by both languages *)

Module Str.

Definition is_empty (s : string) : bool :=
  match s with EmptyString => true | String _ _ => false end.

(** [strings.HasPrefix(s, p)], [s.startsWith(p)]. *)
Fixpoint starts_with (s p : string) {struct p} : bool :=
  match p, s with
  | EmptyString, _ => true
  | String a p', String b s' => if decide (a = b) then starts_with s' p' else false
  | String _ _, EmptyString => false
  end.

(** The rest of [s] behind the prefix [p], when [s] starts with [p]. *)
Fixpoint strip_prefix (p s : string) {struct p} : option string :=
  match p, s with
  | EmptyString, _ => Some s
  | String a p', String b s' => if decide (a = b) then strip_prefix p' s' else None
  | String _ _, EmptyString => None
  end.

(** [s.endsWith(p)]. *)
Definition ends_with (s p : string) : bool :=
  starts_with (String.rev s) (String.rev p).

Fixpoint mem (c : ascii) (cutset : string) : bool :=
  match cutset with
  | EmptyString => false
  | String d cs => if decide (c = d) then true else mem c cs
  end.

(** The longest prefix of [s] whose characters satisfy [p], and the rest. *)
Fixpoint span (p : ascii → bool) (s : string) : string * string :=
  match s with
  | EmptyString => (EmptyString, EmptyString)
  | String c s' =>
      if p c then let '(run, rest) := span p s' in (String c run, rest)
      else (EmptyString, s)
  end.

(** [s.split(sep)] for a one-character separator: never the empty list. *)
Fixpoint split (sep : ascii) (s : string) : list string :=
  match s with
  | EmptyString => [EmptyString]
  | String c s' =>
      if decide (c = sep) then EmptyString :: split sep s'
      else match split sep s' with
           | piece :: pieces => String c piece :: pieces
           | [] => [String c EmptyString]
           end
  end.

(** [parts.join(sep)]. *)
Fixpoint join (sep : string) (parts : list string) : string :=
  match parts with
  | [] => EmptyString
  | [p] => p
  | p :: ps => p +:+ sep +:+ join sep ps
  end.

(** Is [needle] a substring of [s]?  ([s.includes(needle)]) *)
Fixpoint includes (s needle : string) : bool :=
  starts_with s needle ||
  match s with
  | EmptyString => false
  | String _ s' => includes s' needle
  end.

(** The small letter of an ASCII capital. *)
Definition lower_ascii (c : ascii) : ascii :=
  let n := nat_of_ascii c in
  if Nat.leb 65 n && Nat.leb n 90 then ascii_of_nat (n + 32) else c.

(** U+0130, LATIN CAPITAL LETTER I WITH DOT ABOVE, in UTF-8. *)
Definition dotted_capital_i (c d : ascii) : bool :=
  bool_decide (c = "196"%char) && bool_decide (d = "176"%char).

(** U+212A, KELVIN SIGN, in UTF-8. *)
Definition kelvin_sign (c d e : ascii) : bool :=
  bool_decide (c = "226"%char) && bool_decide (d = "132"%char) &&
  bool_decide (e = "170"%char).

(** U+0307, COMBINING DOT ABOVE, in UTF-8. *)
Definition combining_dot : string := String "204" (String "135" EmptyString).

(** [s.toLowerCase()] on the UTF-8 form of [s], for the use the program
    makes of it, the comparison of the result with ASCII text.  Every code
    point whose lower case holds an ASCII character is lowered: the ASCII
    capitals, U+212A (to [k]) and U+0130 (to [i] and U+0307).  The other
    code points outside ASCII are kept as they are; the engine may give
    them another form, which holds no ASCII character either. *)
Fixpoint to_lower (s : string) : string :=
  match s with
  | EmptyString => EmptyString
  | String c t1 =>
      match t1 with
      | String d t2 =>
          if dotted_capital_i c d then String "i" (combining_dot +:+ to_lower t2)
          else
            match t2 with
            | String e t3 =>
                if kelvin_sign c d e then String "k" (to_lower t3)
                else String (lower_ascii c) (to_lower t1)
            | EmptyString => String (lower_ascii c) (to_lower t1)
            end
      | EmptyString => String (lower_ascii c) EmptyString
      end
  end.

Fixpoint repeat_char (c : ascii) (n : nat) : string :=
  match n with
  | 0 => EmptyString
  | S n' => String c (repeat_char c n')
  end.

End Str.

(** ** internal/repository/resolver.go *)

Module Resolver.

(** [strings.TrimLeft(s, cutset)]. *)
Fixpoint TrimLeft (s cutset : string) : string :=
  match s with
  | EmptyString => EmptyString
  | String c s' => if Str.mem c cutset then TrimLeft s' cutset else s
  end.

(** [strings.TrimRight(s, cutset)]. *)
Fixpoint TrimRight (s cutset : string) : string :=
  match s with
  | EmptyString => EmptyString
  | String c s' =>
      let r := TrimRight s' cutset in
      if Str.is_empty r && Str.mem c cutset then EmptyString else String c r
  end.

(** [strings.Trim(s, cutset)]. *)
Definition Trim (s cutset : string) : string :=
  TrimRight (TrimLeft s cutset) cutset.

(** [strings.HasPrefix(s, prefix)]. *)
Definition HasPrefix (s prefix : string) : bool := Str.starts_with s prefix.

(** [strings.TrimPrefix(s, prefix)]: [s] without the prefix when it has
    it, [s] itself otherwise. *)
Definition TrimPrefix (s prefix : string) : string :=
  match Str.strip_prefix prefix s with
  | Some rest => rest
  | None => s
  end.

(** The loop state of [findLongestMatch]: [longestMatch] and
    [longestMatchLen], both zero-valued before the loop. *)
Definition match_step (urlPath : string) (acc : string * nat) (branch : string)
  : string * nat :=
  if HasPrefix urlPath branch then
    if Nat.ltb (snd acc) (String.length branch) then (branch, String.length branch)
    else acc
  else acc.

Definition longest (branches : list string) (urlPath : string) : string * nat :=
  fold_left (match_step urlPath) branches (EmptyString, 0).

Definition no_match_error (urlPath : string) : string :=
  "no matching branch found in path: " +:+ urlPath.

(** [findLongestMatch(branches, urlPath)]: the matched branch and the
    remaining path, or the error. *)
Definition findLongestMatch (branches : list string) (urlPath : string)
  : result (string * string) :=
  let urlPath := Trim urlPath "/" in
  let longestMatch := fst (longest branches urlPath) in
  if Str.is_empty longestMatch then Err (no_match_error urlPath)
  else
    let remainingPath := TrimPrefix urlPath longestMatch in
    let remainingPath := TrimPrefix remainingPath "/" in
    Ok (longestMatch, remainingPath).

(** What the loop has found after any number of names: nothing but empty
    names prefix the path, or the first of the longest prefixing names. *)
Definition longest_found (branches : list string) (p m : string) : Prop :=
  ∃ l1 l2, branches = l1 ++ m :: l2 ∧ HasPrefix p m = true ∧
    (∀ b, b ∈ l1 → HasPrefix p b = true → String.length b < String.length m) ∧
    (∀ b, b ∈ l2 → HasPrefix p b = true → String.length b ≤ String.length m).

(** The capability behind [RefLister.ListBranchesAndTags]. *)
Definition RefLister := result (list string).

(** [ResolveBranchAndPath] on the path where a [RefLister] is installed
    ([testRefLister != nil]); the provider clients of the other path are
    HTTP calls that end in the same [findLongestMatch]. *)
Definition ResolveBranchAndPath (lister : RefLister) (urlPath : string)
  : result (string * string) :=
  match lister with
  | Err e => Err e
  | Ok branches => findLongestMatch branches urlPath
  end.

End Resolver.

(** ** JavaScript values used by DependencyResolver.ts *)

Module Js.

(** [Map<string, V>]: iteration follows insertion order; [set] on a key
    that is present replaces the value where the key stands. *)
Definition Map (V : Type) : Type := list (string * V).

Fixpoint map_get {V} (m : Map V) (k : string) : option V :=
  match m with
  | [] => None
  | (k', v) :: m' => if decide (k' = k) then Some v else map_get m' k
  end.

Fixpoint map_set {V} (m : Map V) (k : string) (v : V) : Map V :=
  match m with
  | [] => [(k, v)]
  | (k', v') :: m' =>
      if decide (k' = k) then (k, v) :: m' else (k', v') :: map_set m' k v
  end.

Definition map_values {V} (m : Map V) : list V := map snd m.

(** [Set<T>.add]: insertion-ordered, no duplicates. *)
Definition set_add {T} `{EqDecision T} (s : list T) (x : T) : list T :=
  if bool_decide (x ∈ s) then s else s ++ [x].

Definition set_has {T} `{EqDecision T} (s : list T) (x : T) : bool :=
  bool_decide (x ∈ s).

(** [arr.indexOf(x)]; [None] stands for -1. *)
Fixpoint indexOf (l : list string) (x : string) : option nat :=
  match l with
  | [] => None
  | y :: l' => if decide (y = x) then Some 0 else S <$> indexOf l' x
  end.

(** [arr.slice(start)] with [start] the result of [indexOf]: a start of -1
    counts from the end. *)
Definition slice_from {T} (l : list T) (start : option nat) : list T :=
  match start with
  | Some i => drop i l
  | None => drop (length l - 1) l
  end.

(** [arr.slice(-2)]. *)
Definition slice_last2 {T} (l : list T) : list T := drop (length l - 2) l.

(** [arr.pop()], as a statement. *)
Definition pop {T} (l : list T) : list T := removelast l.

(** [x || dflt] on strings: the empty string is falsy. *)
Definition or_else (x dflt : string) : string :=
  if Str.is_empty x then dflt else x.

(** The first two pieces of [url.split('?')], as destructured by
    [const [baseUrl, queryString] = url.split('?')]. *)
Definition split_query (url : string) : string * option string :=
  match Str.split "?" url with
  | [] => (EmptyString, None)
  | [b] => (b, None)
  | b :: q :: _ => (b, Some q)
  end.

(** Regular expressions.  A pattern is embedded as the function that
    matches it at the start of a string; [search] is the unanchored
    [str.match(re)], which tries the start positions from the left. *)
Fixpoint search {A} (m : string → option A) (s : string) : option A :=
  match m s with
  | Some r => Some r
  | None => match s with
            | EmptyString => None
            | String _ s' => search m s'
            end
  end.

Definition not_slash (c : ascii) : bool := negb (bool_decide (c = "/"%char)).

(** The line terminators that [.] refuses: LF, CR, and U+2028, U+2029 in
    their UTF-8 form. *)
Definition at_line_terminator (s : string) : bool :=
  Str.starts_with s (String (ascii_of_nat 10) EmptyString) ||
  Str.starts_with s (String (ascii_of_nat 13) EmptyString) ||
  Str.starts_with s
    (String (ascii_of_nat 226) (String (ascii_of_nat 128) (String (ascii_of_nat 168) EmptyString))) ||
  Str.starts_with s
    (String (ascii_of_nat 226) (String (ascii_of_nat 128) (String (ascii_of_nat 169) EmptyString))).

(** What a trailing [.*] consumes. *)
Fixpoint dot_star (s : string) : string :=
  match s with
  | EmptyString => EmptyString
  | String c s' => if at_line_terminator s then EmptyString else String c (dot_star s')
  end.

(** A trailing [(.+)]. *)
Definition dot_plus (s : string) : option string :=
  let r := dot_star s in if Str.is_empty r then None else Some r.

(** [[^\/]+\/]: a non-empty run without slash, and the slash behind it. *)
Definition segment_slash (s : string) : option (string * string) :=
  let '(seg, rest) := Str.span not_slash s in
  if Str.is_empty seg then None
  else match Str.strip_prefix "/" rest with
       | Some rest' => Some (seg, rest')
       | None => None
       end.

(** [s.replace(/\.git$/, '')] and [s.replace(/\/$/, '')]: drop the suffix
    once when the string ends with it. *)
Definition strip_suffix (suffix s : string) : string :=
  match Str.strip_prefix (String.rev suffix) (String.rev s) with
  | Some r => String.rev r
  | None => s
  end.

(** A [for (const x of xs)] loop whose body may fail to come back. *)
Fixpoint for_each {A B} (body : A → B → option A) (xs : list B) (a : A) : option A :=
  match xs with
  | [] => Some a
  | x :: xs' => match body a x with
                | Some a' => for_each body xs' a'
                | None => None
                end
  end.

End Js.

(** ** DependencyResolver (src/services/DependencyResolver.ts) *)

Inductive NodeType : Type := resource | base | component.

Global Instance NodeType_eq_dec : EqDecision NodeType.
Proof. solve_decision. Defined.

(** Modelled from the spec: the declarations of [../types/kustomize.types]
    are not among the sources.  [KustomizationYaml] keeps the three
    reference lists of a kustomization document (an absent list is the
    empty one: the code tests [list && list.length > 0]) and the two header
    fields that the placeholder of an error node sets. *)
Record KustomizationYaml : Type := {
  apiVersion : option string;
  kind : option string;
  resources : list string;
  bases : list string;
  components : list string
}.

(** The empty object literal. *)
Definition empty_kustomization : KustomizationYaml :=
  {| apiVersion := None; kind := None; resources := []; bases := []; components := [] |}.

(** Modelled from the spec: the ConfigurationUnit of the data model, with
    the field names of the object literals in DependencyResolver.ts
    ([id], [path], [type], [kustomizationContent], [isRemote], [remoteUrl],
    [loaded], [error]).  The content is of the type [C]: a
    [KustomizationYaml] in a [KustomizeNode], the node that the type
    declares and the graph builder takes; the crawler and the local scan
    store in it what [yaml.parse] has returned, which the cast
    [as KustomizationYaml] does not check. *)
Record KustomizeNodeOf (C : Type) : Type := {
  n_id : string;
  n_path : string;
  n_type : NodeType;
  kustomizationContent : C;
  isRemote : bool;
  remoteUrl : option string;
  loaded : bool;
  n_error : option string
}.
Arguments Build_KustomizeNodeOf {C} _ _ _ _ _ _ _ _.
Arguments n_id {C} _.
Arguments n_path {C} _.
Arguments n_type {C} _.
Arguments kustomizationContent {C} _.
Arguments isRemote {C} _.
Arguments remoteUrl {C} _.
Arguments loaded {C} _.
Arguments n_error {C} _.

Abbreviation KustomizeNode := (KustomizeNodeOf KustomizationYaml).

Definition set_type {C} (n : KustomizeNodeOf C) (t : NodeType) : KustomizeNodeOf C :=
  {| n_id := n_id n; n_path := n_path n; n_type := t;
     kustomizationContent := kustomizationContent n; isRemote := isRemote n;
     remoteUrl := remoteUrl n; loaded := loaded n; n_error := n_error n |}.

(** Modelled from the spec: the DependencyEdge of the data model, with the
    field names of the object literals ([id], [source], [target], [type],
    [label]). *)
Record DependencyEdge : Type := {
  e_id : string;
  e_source : string;
  e_target : string;
  e_type : NodeType;
  e_label : string
}.

(** Modelled from the spec: the DependencyGraph of the data model, with the
    fields of the object that [buildGraph] returns ([nodes], [edges],
    [rootPath]). *)
Record KustomizeGraph : Type := {
  nodes : Js.Map KustomizeNode;
  edges : list DependencyEdge;
  rootPath : string
}.

Module DependencyResolver.

Definition isRemoteUrl (path : string) : bool :=
  Str.starts_with path "http://" || Str.starts_with path "https://".

Definition isLocalPath (path : string) : bool := negb (isRemoteUrl path).

(** The pattern of [extractDisplayNameFromUrl], at one start position:
    [github\.com\/[^\/]+\/[^\/]+\/(.+)]. *)
Definition display_name_at (s : string) : option string :=
  rest ← Str.strip_prefix "github.com/" s;
  '(_, rest) ← Js.segment_slash rest;
  '(_, rest) ← Js.segment_slash rest;
  Js.dot_plus rest.

Definition extractDisplayNameFromUrl (url : string) : string :=
  let cleanUrl := fst (Js.split_query url) in
  match Js.search display_name_at cleanUrl with
  | Some name => name
  | None => Str.join "/" (Js.slice_last2 (Str.split "/" cleanUrl))
  end.

Definition extractLabelFromUrl (url : string) : string :=
  let parts := Str.split "/" url in
  let lastPart := fst (Js.split_query (List.last parts EmptyString)) in
  Js.or_else lastPart "remote".

(** One round of the loop of [resolvePath]. *)
Definition resolve_step (parts : list string) (part : string) : list string :=
  if decide (part = "..") then Js.pop parts
  else if decide (part = ".") then parts
  else parts ++ [part].

Definition nonempty (p : string) : bool := negb (Str.is_empty p).

(** The array [parts] of [resolvePath] when its loop is over. *)
Definition resolve_parts (basePath relativePath : string) : list string :=
  let parts :=
    if decide (basePath = ".") then []
    else List.filter nonempty (Str.split "/" basePath) in
  let relParts := List.filter nonempty (Str.split "/" relativePath) in
  fold_left resolve_step relParts parts.

Definition resolvePath (basePath relativePath : string) : string :=
  Js.or_else (Str.join "/" (resolve_parts basePath relativePath)) ".".

(** The mutable state of one [buildGraph] run: the instance field
    [edgeCounter], the node index and the edge array. *)
Record Builder : Type := {
  edgeCounter : nat;
  nodeMap : Js.Map KustomizeNode;
  edgeList : list DependencyEdge
}.

Definition push_edge (st : Builder) (nm : Js.Map KustomizeNode)
    (source target : string) (type : NodeType) (label : string) : Builder :=
  {| edgeCounter := S (edgeCounter st);
     nodeMap := nm;
     edgeList := edgeList st ++
       [{| e_id := "edge-" +:+ pretty (edgeCounter st);
           e_source := source; e_target := target;
           e_type := type; e_label := label |}] |}.

Definition virtual_remote (id reference : string) (type : NodeType) : KustomizeNode :=
  {| n_id := id;
     n_path := extractDisplayNameFromUrl reference;
     n_type := if decide (type = component) then component else base;
     kustomizationContent := empty_kustomization;
     isRemote := true;
     remoteUrl := Some reference;
     loaded := false;
     n_error := None |}.

Definition virtual_missing (id resolvedPath : string) : KustomizeNode :=
  {| n_id := id;
     n_path := resolvedPath;
     n_type := base;
     kustomizationContent := empty_kustomization;
     isRemote := false;
     remoteUrl := None;
     loaded := false;
     n_error := None |}.

Definition processReference (sourceNode : KustomizeNode) (reference : string)
    (type : NodeType) (st : Builder) : Builder :=
  if isRemoteUrl reference then
    let remoteNodeId := "remote-" +:+ pretty (edgeCounter st) in
    let targetNodeId :=
      match List.find (λ n, bool_decide (remoteUrl n = Some reference))
                      (Js.map_values (nodeMap st)) with
      | Some node => n_id node
      | None => remoteNodeId
      end in
    let nm :=
      if decide (targetNodeId = remoteNodeId) then
        let virtualNode := virtual_remote remoteNodeId reference type in
        Js.map_set (nodeMap st) (n_path virtualNode) virtualNode
      else nodeMap st in
    push_edge st nm (n_id sourceNode) targetNodeId type (extractLabelFromUrl reference)
  else if isLocalPath reference then
    let resolvedPath := resolvePath (n_path sourceNode) reference in
    match Js.map_get (nodeMap st) resolvedPath with
    | Some targetNode =>
        push_edge st (nodeMap st) (n_id sourceNode) (n_id targetNode) type reference
    | None =>
        let missingNodeId := "missing-" +:+ pretty (edgeCounter st) in
        let missingNode := virtual_missing missingNodeId resolvedPath in
        push_edge st (Js.map_set (nodeMap st) (n_path missingNode) missingNode)
                  (n_id sourceNode) missingNodeId type reference
    end
  else st.

(** The test of the [resources] loop of [buildEdgesForNode]. *)
Definition plain_yaml (resource : string) : bool :=
  Str.ends_with resource ".yaml" || Str.ends_with resource ".yml".

Definition buildEdgesForNode (node : KustomizeNode) (st : Builder) : Builder :=
  let kustomization := kustomizationContent node in
  let st := fold_left (λ st r,
              if negb (plain_yaml r)
              then processReference node r resource st
              else st) (resources kustomization) st in
  let st := fold_left (λ st b, processReference node b base st)
              (bases kustomization) st in
  fold_left (λ st c, processReference node c component st)
    (components kustomization) st.

(** The [Map<string, Set<type>>] that [correctNodeTypes] fills from the
    edges. *)
Definition add_reference_type (m : Js.Map (list NodeType)) (edge : DependencyEdge)
  : Js.Map (list NodeType) :=
  let m := match Js.map_get m (e_target edge) with
           | Some _ => m
           | None => Js.map_set m (e_target edge) []
           end in
  match Js.map_get m (e_target edge) with
  | Some s => Js.map_set m (e_target edge) (Js.set_add s (e_type edge))
  | None => m
  end.

Definition nodeReferenceTypes (edges : list DependencyEdge) : Js.Map (list NodeType) :=
  fold_left add_reference_type edges [].

(** The priority rule on one node: component, else base, else unchanged. *)
Definition corrected_type (refTypes : list NodeType) (old : NodeType) : NodeType :=
  if Js.set_has refTypes component then component
  else if Js.set_has refTypes base then base
  else old.

(** [node.type = ...] on the first node of the index whose id is [nodeId]
    (the node that [Array.from(nodeMap.values()).find] returns); no node,
    no change. *)
Fixpoint correct_first (nm : Js.Map KustomizeNode) (nodeId : string)
    (refTypes : list NodeType) : Js.Map KustomizeNode :=
  match nm with
  | [] => []
  | (k, n) :: nm' =>
      if decide (n_id n = nodeId)
      then (k, set_type n (corrected_type refTypes (n_type n))) :: nm'
      else (k, n) :: correct_first nm' nodeId refTypes
  end.

Definition correctNodeTypes (nm : Js.Map KustomizeNode) (edges : list DependencyEdge)
  : Js.Map KustomizeNode :=
  fold_left (λ nm '(nodeId, refTypes), correct_first nm nodeId refTypes)
    (nodeReferenceTypes edges) nm.

(** The index and the edges before the type-correction pass. *)
Definition build (counter : nat) (ns : list KustomizeNode) : Builder :=
  let nm := fold_left (λ m node, Js.map_set m (n_path node) node) ns [] in
  fold_left (λ st node, buildEdgesForNode node st) ns
    {| edgeCounter := counter; nodeMap := nm; edgeList := [] |}.

(** [buildGraph(nodes)], run on an instance whose [edgeCounter] is
    [counter]. *)
Definition buildGraph (counter : nat) (ns : list KustomizeNode) : KustomizeGraph :=
  let st := build counter ns in
  {| nodes := correctNodeTypes (nodeMap st) (edgeList st);
     edges := edgeList st;
     rootPath := match ns with
                 | n :: _ => Js.or_else (n_path n) EmptyString
                 | [] => EmptyString
                 end |}.

(** The three variables that the closure [dfs] of [detectCycles] shares. *)
Record Dfs : Type := {
  visited : gset string;
  recStack : gset string;
  cycles : list (list string)
}.

Definition enter (nodeId : string) (st : Dfs) : Dfs :=
  {| visited := {[nodeId]} ∪ visited st;
     recStack := {[nodeId]} ∪ recStack st;
     cycles := cycles st |}.

Definition leave (nodeId : string) (st : Dfs) : Dfs :=
  {| visited := visited st;
     recStack := recStack st ∖ {[nodeId]};
     cycles := cycles st |}.

Definition report (path : list string) (target : string) (st : Dfs) : Dfs :=
  {| visited := visited st;
     recStack := recStack st;
     cycles := cycles st ++ [Js.slice_from path (Js.indexOf path target) ++ [target]] |}.

Definition outEdges (es : list DependencyEdge) (nodeId : string) : list DependencyEdge :=
  List.filter (λ e, bool_decide (e_source e = nodeId)) es.

(** [dfs(nodeId, path)]; the recursion depth is bounded by [fuel], and
    [None] is a run that needs more. *)
Fixpoint dfs (fuel : nat) (es : list DependencyEdge) (nodeId : string)
    (path : list string) (st : Dfs) : option Dfs :=
  match fuel with
  | 0 => None
  | S fuel' =>
      let st := enter nodeId st in
      let path := path ++ [nodeId] in
      st ← Js.for_each (λ st edge,
              if bool_decide (e_target edge ∉ visited st)
              then dfs fuel' es (e_target edge) path st
              else if bool_decide (e_target edge ∈ recStack st)
                   then Some (report path (e_target edge) st)
                   else Some st)
            (outEdges es nodeId) st;
      Some (leave nodeId st)
  end.

Definition dfs_start : Dfs := {| visited := ∅; recStack := ∅; cycles := [] |}.

(** The outer loop of [detectCycles], over the nodes of the index. *)
Definition dfs_all (fuel : nat) (es : list DependencyEdge) (ids : list string) (st : Dfs)
  : option Dfs :=
  Js.for_each (λ st nodeId,
      if bool_decide (nodeId ∉ visited st) then dfs fuel es nodeId [] st else Some st)
    ids st.

(** [detectCycles(graph)].  No path of the search is longer than the number
    of ids of the graph, which bounds the depth. *)
Definition detectCycles (graph : KustomizeGraph) : option (list (list string)) :=
  let fuel := S (length (nodes graph) + length (edges graph)) in
  cycles <$> dfs_all fuel (edges graph) (map n_id (Js.map_values (nodes graph))) dfs_start.

End DependencyResolver.

(** ** GitCrawler (src/services/DependencyResolver.ts): URLs and paths *)

(** A JavaScript exception: its [name] and its [message]. *)
Record exn : Type := { exn_name : string; exn_message : string }.

(** [String(error)]. *)
Definition exn_to_string (e : exn) : string :=
  exn_name e +:+ ": " +:+ exn_message e.

(** A call that returns a value or throws. *)
Inductive outcome (A : Type) : Type :=
| Return (a : A)
| Throw (e : exn).
Arguments Return {A} a.
Arguments Throw {A} e.

Inductive Provider : Type := github | gitlab.

Record GitUrlComponents : Type := {
  provider : Provider;
  host : string;
  owner : string;
  repo : string;
  ref : option string;
  path : string
}.

Module Uri.

Definition hex_value (c : ascii) : option nat :=
  let n := nat_of_ascii c in
  if Nat.leb 48 n && Nat.leb n 57 then Some (n - 48)
  else if Nat.leb 65 n && Nat.leb n 70 then Some (n - 55)
  else if Nat.leb 97 n && Nat.leb n 102 then Some (n - 87)
  else None.

(** A [%XX] escape at the start of [s]: its octet and the rest. *)
Definition escape (s : string) : option (nat * string) :=
  match s with
  | String "%" (String h (String l rest)) =>
      match hex_value h, hex_value l with
      | Some a, Some b => Some (16 * a + b, rest)
      | _, _ => None
      end
  | _ => None
  end.

Definition between (lo hi n : nat) : bool := Nat.leb lo n && Nat.leb n hi.

(** The bounds of the second octet of a UTF-8 sequence led by [b], and the
    number of octets that follow [b]. *)
Definition utf8_lead (b : nat) : option (nat * nat * nat) :=
  if between 194 223 b then Some (1, 128, 191)
  else if Nat.eqb b 224 then Some (2, 160, 191)
  else if between 225 236 b then Some (2, 128, 191)
  else if Nat.eqb b 237 then Some (2, 128, 159)
  else if between 238 239 b then Some (2, 128, 191)
  else if Nat.eqb b 240 then Some (3, 144, 191)
  else if between 241 243 b then Some (3, 128, 191)
  else if Nat.eqb b 244 then Some (3, 128, 143)
  else None.

(** [k] escaped continuation octets; the first one within [lo..hi]. *)
Fixpoint continuation (k lo hi : nat) (s : string) : option (string * string) :=
  match k with
  | 0 => Some (EmptyString, s)
  | S k' =>
      '(b, rest) ← escape s;
      if between lo hi b then
        '(bytes, rest') ← continuation k' 128 191 rest;
        Some (String (ascii_of_nat b) bytes, rest')
      else None
  end.

Fixpoint decode_go (fuel : nat) (s : string) : option string :=
  match fuel with
  | 0 => None
  | S fuel' =>
      match s with
      | EmptyString => Some EmptyString
      | String c s' =>
          if decide (c = "%"%char) then
            '(b, rest) ← escape s;
            if Nat.ltb b 128 then String (ascii_of_nat b) <$> decode_go fuel' rest
            else
              '(k, lo, hi) ← utf8_lead b;
              '(bytes, rest') ← continuation k lo hi rest;
              r ← decode_go fuel' rest';
              Some (String (ascii_of_nat b) bytes +:+ r)
          else String c <$> decode_go fuel' s'
      end
  end.

(** [decodeURIComponent(s)]: every escape replaced by its octet; a broken
    escape, or escapes that are no UTF-8 sequence, throw [URIError]. *)
Definition decodeURIComponent (s : string) : outcome string :=
  match decode_go (S (String.length s)) s with
  | Some r => Return r
  | None => Throw {| exn_name := "URIError"; exn_message := "URI malformed" |}
  end.

Definition hex_digit (n : nat) : ascii :=
  if Nat.ltb n 10 then ascii_of_nat (48 + n) else ascii_of_nat (55 + n).

Definition unreserved (c : ascii) : bool :=
  let n := nat_of_ascii c in
  between 65 90 n || between 97 122 n || between 48 57 n || Str.mem c "-_.!~*'()".

(** [encodeURIComponent(s)], octet by octet. *)
Fixpoint encodeURIComponent (s : string) : string :=
  match s with
  | EmptyString => EmptyString
  | String c s' =>
      if unreserved c then String c (encodeURIComponent s')
      else
        let n := nat_of_ascii c in
        String "%" (String (hex_digit (n / 16)) (String (hex_digit (n mod 16))
          (encodeURIComponent s')))
  end.

End Uri.

(** ** The values of [yaml.parse] *)

(** An entry of a list of a parsed file: a string, [null], or a value of
    another type (a number, a boolean, a list, a map). *)
Inductive YamlEntry : Type :=
| entry_string (s : string)
| entry_null
| entry_other.

(** The value of one of the fields [resources], [bases] and [components],
    as the guard [list && list.length > 0] and the loop
    [for (const x of list)] take it: the entries that the loop visits, or a
    value that passes the guard and cannot be iterated (a map with a
    positive [length]).  The loop visits nothing where the guard fails (an
    absent field, [null], an empty list, a number, a boolean, a map without
    [length]), and it visits the characters of a string one by one. *)
Inductive YamlList : Type :=
| yaml_entries (entries : list YamlEntry)
| yaml_not_iterable.

(** A value whose fields can be read, with the two header fields that
    [KustomizationYaml] has too. *)
Record YamlObject : Type := {
  y_apiVersion : option string;
  y_kind : option string;
  y_resources : YamlList;
  y_bases : YamlList;
  y_components : YamlList
}.

(** What [yaml.parse] returns: [null] for a file without content, and else
    a value whose fields can be read (a map; a scalar or a list, which has
    none of the three fields). *)
Inductive ParsedYaml : Type :=
| yaml_null
| yaml_object (o : YamlObject).

(** The exceptions of the engine on such values: a property read of
    [null], a call of a method that the value does not have, a loop over a
    value that is not iterable. *)
Inductive TypeFault : Type :=
| read_of_null (property : string)
| not_a_function (method : string)
| not_iterable (field : string).

(** A kustomization of the declared type as [yaml.parse] returns it. *)
Definition of_strings (l : list string) : YamlList := yaml_entries (map entry_string l).

Definition of_kustomization (k : KustomizationYaml) : ParsedYaml :=
  yaml_object {| y_apiVersion := apiVersion k; y_kind := kind k;
                 y_resources := of_strings (resources k);
                 y_bases := of_strings (bases k);
                 y_components := of_strings (components k) |}.

(** Does the parsed value read like a kustomization of the declared type:
    a value whose fields can be read, whose lists can be iterated and hold
    strings only? *)
Definition is_string (e : YamlEntry) : bool :=
  match e with entry_string _ => true | _ => false end.

Definition strings_only (l : YamlList) : bool :=
  match l with
  | yaml_entries entries => forallb is_string entries
  | yaml_not_iterable => false
  end.

Definition well_typed (v : ParsedYaml) : bool :=
  match v with
  | yaml_null => false
  | yaml_object o =>
      strings_only (y_resources o) && strings_only (y_bases o) &&
      strings_only (y_components o)
  end.

(** The entries of a parsed value that the loops of the crawler visit. *)
Definition entries_of (l : YamlList) : list YamlEntry :=
  match l with yaml_entries entries => entries | yaml_not_iterable => [] end.

Definition all_entries (v : ParsedYaml) : list YamlEntry :=
  match v with
  | yaml_null => []
  | yaml_object o =>
      entries_of (y_resources o) ++ entries_of (y_bases o) ++ entries_of (y_components o)
  end.

(** A node with another content. *)
Definition with_content {C D} (content : D) (n : KustomizeNodeOf C) : KustomizeNodeOf D :=
  {| n_id := n_id n; n_path := n_path n; n_type := n_type n;
     kustomizationContent := content; isRemote := isRemote n;
     remoteUrl := remoteUrl n; loaded := loaded n; n_error := n_error n |}.

(** A node of the declared type as the crawler holds it. *)
Definition as_crawled (n : KustomizeNode) : KustomizeNodeOf ParsedYaml :=
  with_content (of_kustomization (kustomizationContent n)) n.

Module GitCrawler.

(** A node whose content is what [yaml.parse] has returned. *)
Abbreviation CrawledNode := (KustomizeNodeOf ParsedYaml).

(** [p => p && p !== '.'] *)
Definition real_segment (p : string) : bool :=
  negb (Str.is_empty p) && negb (bool_decide (p = ".")).

(** One round of the loop of [joinPaths]. *)
Definition join_step (baseParts : list string) (part : string) : list string :=
  if decide (part = "..") then Js.pop baseParts else baseParts ++ [part].

(** The array [baseParts] of [joinPaths] when its loop is over. *)
Definition join_parts (basePath relativePath : string) : list string :=
  let baseParts := List.filter real_segment (Str.split "/" basePath) in
  let relativeParts := List.filter real_segment (Str.split "/" relativePath) in
  fold_left join_step relativeParts baseParts.

Definition joinPaths (basePath relativePath : string) : string :=
  Js.or_else (Str.join "/" (join_parts basePath relativePath)) ".".

Definition isYamlFile (path : string) : bool :=
  let lower := Str.to_lower path in
  (Str.ends_with lower ".yaml" || Str.ends_with lower ".yml") &&
  negb (Str.ends_with lower "kustomization.yaml") &&
  negb (Str.ends_with lower "kustomization.yml").

Definition isFullUrl (path : string) : bool :=
  Str.starts_with path "http://" || Str.starts_with path "https://".

(** [https?:\/\/] at the start of [s]: the scheme and the rest. *)
Definition scheme (s : string) : option (string * string) :=
  rest ← Str.strip_prefix "http" s;
  match Str.strip_prefix "s" rest with
  | Some rest' => (λ r, ("https", r)) <$> Str.strip_prefix "://" rest'
  | None => (λ r, ("http", r)) <$> Str.strip_prefix "://" rest
  end.

(** The host group of the GitLab patterns (any characters but a slash,
    the word gitlab among them) and the slash behind it: the host runs up
    to the first slash and has to hold the word. *)
Definition gitlab_host (s : string) : option (string * string) :=
  let '(h, rest) := Str.span Js.not_slash s in
  if Str.includes h "gitlab" then
    rest' ← Str.strip_prefix "/" rest; Some (h, rest')
  else None.

(** The optional tail of the GitHub and of the plain GitLab pattern, a
    slash and any characters: the group, when it takes part. *)
Definition optional_path (s : string) : option string :=
  Js.dot_star <$> Str.strip_prefix "/" s.

(** A non-empty [[^\/]+] in front of such a tail. *)
Definition last_segment (s : string) : option (string * string) :=
  let '(seg, rest) := Str.span Js.not_slash s in
  if Str.is_empty seg then None else Some (seg, rest).

(** [tree|blob] *)
Definition tree_or_blob (s : string) : option string :=
  match Str.strip_prefix "tree" s with
  | Some rest => Some rest
  | None => Str.strip_prefix "blob" s
  end.

(** [/ref=([^&]+)/] at one start position. *)
Definition ref_at (s : string) : option string :=
  rest ← Str.strip_prefix "ref=" s;
  let v := fst (Str.span (λ c, negb (bool_decide (c = "&"%char))) rest) in
  if Str.is_empty v then None else Some v.

(** The GitHub pattern at one start position (scheme, [github\.com], two
    segments, the optional tail): groups 2, 3 and 4. *)
Definition github_at (s : string) : option (string * string * option string) :=
  '(_, rest) ← scheme s;
  rest ← Str.strip_prefix "github.com/" rest;
  '(o, rest) ← Js.segment_slash rest;
  '(r, rest) ← last_segment rest;
  Some (o, r, optional_path rest).

(** The GitLab [/-/tree/] or [/-/blob/] pattern at one start position:
    scheme, host, owner, repo and the branch-and-path group. *)
Definition gitlab_tree_at (s : string)
  : option (string * string * string * string * string) :=
  '(sch, rest) ← scheme s;
  '(h, rest) ← gitlab_host rest;
  '(o, rest) ← Js.segment_slash rest;
  '(r, rest) ← Js.segment_slash rest;
  rest ← Str.strip_prefix "-/" rest;
  rest ← tree_or_blob rest;
  rest ← Str.strip_prefix "/" rest;
  bp ← Js.dot_plus rest;
  Some (sch, h, o, r, bp).

(** The plain GitLab pattern at one start position: host, owner, repo and
    the optional path group. *)
Definition gitlab_at (s : string) : option (string * string * string * option string) :=
  '(_, rest) ← scheme s;
  '(h, rest) ← gitlab_host rest;
  '(o, rest) ← Js.segment_slash rest;
  '(r, rest) ← last_segment rest;
  Some (h, o, r, optional_path rest).

(** The [ref] that [parseGitUrl] reads from the query string. *)
Definition query_ref (queryString : option string) : outcome (option string) :=
  match queryString with
  | Some q =>
      if Str.is_empty q then Return None
      else match Js.search ref_at q with
           | Some raw =>
               match Uri.decodeURIComponent raw with
               | Return refValue =>
                   if decide (refValue = "heads") then Return None
                   else Return (Some refValue)
               | Throw e => Throw e
               end
           | None => Return None
           end
  | None => Return None
  end.

(** A [ref] that an [if (ref)] or [ref || ...] takes for present. *)
Definition truthy (r : option string) : option string :=
  match r with
  | Some v => if Str.is_empty v then None else Some v
  | None => None
  end.

(** The loop [for (let i = Math.min(3, parts.length); i > 0; i--)] of the
    branch heuristic, entered at [i]. *)
Fixpoint branch_loop (i : nat) (parts : list string) : option (string * string) :=
  match i with
  | 0 => None
  | S i' =>
      if Nat.leb 2 i
      then Some (Str.join "/" (take i parts), Str.join "/" (drop i parts))
      else branch_loop i' parts
  end.

(** The branch and the path that the heuristic of [parseGitUrl] reads from
    the branch-and-path group. *)
Definition heuristic_split (branchAndPath : string) : string * string :=
  let parts := Str.split "/" branchAndPath in
  match branch_loop (Nat.min 3 (length parts)) parts with
  | Some split => split
  | None => (branchAndPath, EmptyString)
  end.

Definition unknown_url (url : string) : exn :=
  {| exn_name := "Error";
     exn_message := "URL non reconnue: " +:+ url +:+
                    ". Formats supportés: GitHub et GitLab" |}.

Definition parseGitUrl (url : string) : outcome GitUrlComponents :=
  let '(baseUrl, queryString) := Js.split_query url in
  match query_ref queryString with
  | Throw e => Throw e
  | Return ref =>
      match Js.search github_at baseUrl with
      | Some (o, r, p) =>
          Return {| provider := github; host := "github.com"; owner := o;
                    repo := Js.strip_suffix ".git" r; ref := ref;
                    path := default EmptyString p |}
      | None =>
          match Js.search gitlab_tree_at baseUrl with
          | Some (_, h, o, r, branchAndPath) =>
              let r := Js.strip_suffix ".git" r in
              match truthy ref with
              | Some _ =>
                  Return {| provider := gitlab; host := h; owner := o; repo := r;
                            ref := ref; path := branchAndPath |}
              | None =>
                  let '(potentialBranch, potentialPath) := heuristic_split branchAndPath in
                  Return {| provider := gitlab; host := h; owner := o; repo := r;
                            ref := Some potentialBranch; path := potentialPath |}
              end
          | None =>
              match Js.search gitlab_at baseUrl with
              | Some (h, o, r, p) =>
                  Return {| provider := gitlab; host := h; owner := o;
                            repo := Js.strip_suffix ".git" r;
                            ref := Some (default "main" (truthy ref));
                            path := default EmptyString p |}
              | None => Throw (unknown_url url)
              end
          end
      end
  end.

Definition buildGitUrl (_provider : Provider) (host owner repo : string)
    (ref : option string) (path : string) : string :=
  let pathPart := if Str.is_empty path then EmptyString else "/" +:+ path in
  let baseUrl := "https://" +:+ host +:+ "/" +:+ owner +:+ "/" +:+ repo +:+ pathPart in
  match truthy ref with
  | Some r => baseUrl +:+ "?ref=" +:+ Uri.encodeURIComponent r
  | None => baseUrl
  end.

Definition resolveUrl (baseUrl relativePath : string) : outcome string :=
  if isFullUrl relativePath then Return relativePath
  else
    match parseGitUrl baseUrl with
    | Throw e => Throw e
    | Return components =>
        let resolvedPath := joinPaths (path components) relativePath in
        Return (buildGitUrl (provider components) (host components)
                  (owner components) (repo components) (ref components) resolvedPath)
    end.

(** [baseUrl.replace(/\/tree\/[^\/]+/, '')]: the first match is cut out. *)
Fixpoint remove_tree (s : string) : string :=
  match (rest ← Str.strip_prefix "/tree/" s; snd <$> last_segment rest) with
  | Some rest => rest
  | None => match s with
            | EmptyString => EmptyString
            | String c s' => String c (remove_tree s')
            end
  end.

Definition normalizeUrl (url : string) : string :=
  let '(baseUrl, queryString) := Js.split_query url in
  match Js.search gitlab_tree_at baseUrl with
  | Some (sch, h, o, r, branchAndPath) =>
      let repoBase := sch +:+ "://" +:+ h +:+ "/" +:+ o +:+ "/" +:+ r in
      let parts := Str.split "/" branchAndPath in
      let branch := Str.join "/" (take 2 parts) in
      let path := Str.join "/" (drop 2 parts) in
      let pathPart := if Str.is_empty path then EmptyString else "/" +:+ path in
      repoBase +:+ pathPart +:+ "?ref=" +:+ Uri.encodeURIComponent branch
  | None =>
      let normalized := remove_tree baseUrl in
      let normalized := Js.strip_suffix "/" normalized in
      match queryString with
      | Some q => if Str.is_empty q then normalized else normalized +:+ "?" +:+ q
      | None => normalized
      end
  end.

Definition ensureKustomizationYaml (url : string) : string :=
  if Str.ends_with url "kustomization.yaml" || Str.ends_with url "kustomization.yml"
  then url
  else
    let '(baseUrl, queryString) := Js.split_query url in
    let urlWithFile := baseUrl +:+ "/kustomization.yaml" in
    match queryString with
    | Some q => if Str.is_empty q then urlWithFile else urlWithFile +:+ "?" +:+ q
    | None => urlWithFile
    end.

(** The world outside the crawler: what the provider answers to the
    [k]-th request of a crawl, for the file that the components name
    ([fetchGitHubFile], [fetchGitLabFile]); what [yaml.parse] makes of a
    file, an exception or a value of any kind; and the message that the
    engine gives a [TypeError], which depends on the engine and on the way
    the program was built. *)
Record World : Type := {
  fetch : nat → GitUrlComponents → outcome string;
  yaml_parse : string → outcome ParsedYaml;
  type_error_message : TypeFault → string
}.

Definition type_error (w : World) (fault : TypeFault) : exn :=
  {| exn_name := "TypeError"; exn_message := type_error_message w fault |}.

(** The fields of a [GitCrawler] and the array [nodes] of the running
    crawl; [requests] lists the files asked of the providers so far. *)
Record Crawler : Type := {
  nodeCounter : nat;
  visitedUrls : gmap string CrawledNode;
  nodeList : list CrawledNode;
  requests : list GitUrlComponents
}.

(** An asynchronous method: run from a state, it returns or throws in a
    new state, or needs more fuel. *)
Definition Async (A : Type) : Type := Crawler → option (outcome A * Crawler).

Definition placeholder : ParsedYaml :=
  yaml_object {| y_apiVersion := Some "kustomize.config.k8s.io/v1beta1";
                 y_kind := Some "Kustomization";
                 y_resources := yaml_entries []; y_bases := yaml_entries [];
                 y_components := yaml_entries [] |}.

Definition fetchFileContent (w : World) (url : string) (st : Crawler)
  : outcome string * Crawler :=
  match parseGitUrl url with
  | Throw e => (Throw e, st)
  | Return c =>
      (fetch w (length (requests st)) c,
       {| nodeCounter := nodeCounter st; visitedUrls := visitedUrls st;
          nodeList := nodeList st; requests := requests st ++ [c] |})
  end.

Definition next_counter (st : Crawler) : Crawler :=
  {| nodeCounter := S (nodeCounter st); visitedUrls := visitedUrls st;
     nodeList := nodeList st; requests := requests st |}.

Definition createNode (url : string) (kustomization : ParsedYaml)
    (referenceType : option NodeType) (st : Crawler) : outcome CrawledNode * Crawler :=
  match parseGitUrl url with
  | Throw e => (Throw e, st)
  | Return c =>
      (Return {| n_id := "node-" +:+ pretty (nodeCounter st);
                 n_path := Js.or_else (path c) ".";
                 n_type := default resource referenceType;
                 kustomizationContent := kustomization;
                 isRemote := true;
                 remoteUrl := Some url;
                 loaded := true;
                 n_error := None |},
       next_counter st)
  end.

Definition createErrorNode (url : string) (type : NodeType) (errorMessage : string)
    (st : Crawler) : CrawledNode * Crawler :=
  match parseGitUrl url with
  | Return c =>
      ({| n_id := "node-" +:+ pretty (nodeCounter st) +:+ "-error";
          n_path := Js.or_else (path c) ".";
          n_type := type;
          kustomizationContent := placeholder;
          isRemote := true;
          remoteUrl := Some url;
          loaded := false;
          n_error := Some errorMessage |},
       next_counter st)
  | Throw parseError =>
      ({| n_id := "node-" +:+ pretty (nodeCounter st) +:+ "-error";
          n_path := url;
          n_type := type;
          kustomizationContent := placeholder;
          isRemote := true;
          remoteUrl := Some url;
          loaded := false;
          n_error := Some ("Parse error: " +:+ exn_to_string parseError +:+
                           ". Original: " +:+ errorMessage) |},
       next_counter st)
  end.

(** The [try] block of [crawlKustomization]. *)
Definition try_load (w : World) (normalizedUrl : string) (referenceType : option NodeType)
    (st : Crawler) : outcome CrawledNode * Crawler :=
  let kustomizationUrl := ensureKustomizationYaml normalizedUrl in
  match fetchFileContent w kustomizationUrl st with
  | (Throw e, st) => (Throw e, st)
  | (Return content, st) =>
      match yaml_parse w content with
      | Throw e => (Throw e, st)
      | Return kustomization => createNode normalizedUrl kustomization referenceType st
      end
  end.

(** The [try] block with its [catch]: the node of the reference, loaded or
    in error. *)
Definition load_node (w : World) (normalizedUrl : string) (referenceType : option NodeType)
    (st : Crawler) : CrawledNode * Crawler :=
  match try_load w normalizedUrl referenceType st with
  | (Return node, st) => (node, st)
  | (Throw error, st) =>
      createErrorNode normalizedUrl (default resource referenceType)
        (exn_message error) st
  end.

(** [nodes.push(node); this.visited.set(normalizedUrl, node)] *)
Definition remember (normalizedUrl : string) (node : CrawledNode) (st : Crawler) : Crawler :=
  {| nodeCounter := nodeCounter st;
     visitedUrls := <[normalizedUrl := node]> (visitedUrls st);
     nodeList := nodeList st ++ [node];
     requests := requests st |}.

(** [if (!node.error)]: an absent message and the empty one are falsy. *)
Definition no_error (node : CrawledNode) : bool :=
  match truthy (n_error node) with Some _ => false | None => true end.

(** A loop over the entries of a list whose body may throw: the first
    throw ends the loop. *)
Fixpoint for_each_entry (body : YamlEntry → Async ()) (entries : list YamlEntry)
  : Async () :=
  λ st,
    match entries with
    | [] => Some (Return (), st)
    | x :: xs =>
        match body x st with
        | Some (Return _, st') => for_each_entry body xs st'
        | Some (Throw e, st') => Some (Throw e, st')
        | None => None
        end
    end.

(** [if (list && list.length > 0) { for (const x of list) ... }] on the
    field [field] of the kustomization. *)
Definition for_each_of (w : World) (field : string) (body : YamlEntry → Async ())
    (list : YamlList) : Async () :=
  λ st,
    match list with
    | yaml_entries entries => for_each_entry body entries st
    | yaml_not_iterable => Some (Throw (type_error w (not_iterable field)), st)
    end.

(** [processResource], over the method it calls back.  The test
    [isYamlFile] calls [toLowerCase] on the entry, outside the [try]. *)
Definition processResource (w : World)
    (crawl : string → option NodeType → Async CrawledNode)
    (parentUrl : string) (entry : YamlEntry) : Async () :=
  λ st,
    match entry with
    | entry_string res =>
        if isYamlFile res then Some (Return (), st)
        else
          match resolveUrl parentUrl res with
          | Throw e => Some (Throw e, st)
          | Return resolvedUrl =>
              match crawl resolvedUrl (Some resource) st with
              | Some (Return _, st') => Some (Return (), st')
              | Some (Throw _, st') => Some (Return (), st')
              | None => None
              end
          end
    | entry_null => Some (Throw (type_error w (read_of_null "toLowerCase")), st)
    | entry_other => Some (Throw (type_error w (not_a_function "toLowerCase")), st)
    end.

(** [processComponent], over the method it calls back.  [resolveUrl]
    begins with [isFullUrl], which calls [startsWith] on the entry. *)
Definition processComponent (w : World)
    (crawl : string → option NodeType → Async CrawledNode)
    (parentUrl : string) (entry : YamlEntry) : Async () :=
  λ st,
    match entry with
    | entry_string comp =>
        match resolveUrl parentUrl comp with
        | Throw e => Some (Throw e, st)
        | Return resolvedUrl =>
            match crawl resolvedUrl (Some component) st with
            | Some (Return _, st') => Some (Return (), st')
            | Some (Throw e, st') => Some (Throw e, st')
            | None => None
            end
        end
    | entry_null => Some (Throw (type_error w (read_of_null "startsWith")), st)
    | entry_other => Some (Throw (type_error w (not_a_function "startsWith")), st)
    end.

(** The three loops of [crawlKustomization] over the entries of a node
    without error; [kustomization.resources] is read first, and cannot be
    read of [null]. *)
Definition crawl_children (w : World)
    (crawl : string → option NodeType → Async CrawledNode)
    (normalizedUrl : string) (kustomization : ParsedYaml) : Async () :=
  λ st,
    match kustomization with
    | yaml_null => Some (Throw (type_error w (read_of_null "resources")), st)
    | yaml_object o =>
        match for_each_of w "resources" (processResource w crawl normalizedUrl)
                (y_resources o) st with
        | Some (Return _, st) =>
            match for_each_of w "bases" (processResource w crawl normalizedUrl)
                    (y_bases o) st with
            | Some (Return _, st) =>
                for_each_of w "components" (processComponent w crawl normalizedUrl)
                  (y_components o) st
            | other => other
            end
        | other => other
        end
    end.

(** [crawlKustomization(url, nodes, referenceType)]; the recursion depth is
    bounded by [fuel]. *)
Fixpoint crawlKustomization (fuel : nat) (w : World) (url : string)
    (referenceType : option NodeType) : Async CrawledNode :=
  λ st,
    match fuel with
    | 0 => None
    | S fuel' =>
        let normalizedUrl := normalizeUrl url in
        match visitedUrls st !! normalizedUrl with
        | Some existingNode => Some (Return existingNode, st)
        | None =>
            let '(node, st) := load_node w normalizedUrl referenceType st in
            let st := remember normalizedUrl node st in
            if no_error node then
              match crawl_children w (crawlKustomization fuel' w) normalizedUrl
                      (kustomizationContent node) st with
              | Some (Return _, st) => Some (Return node, st)
              | Some (Throw e, st) => Some (Throw e, st)
              | None => None
              end
            else Some (Return node, st)
        end
    end.

Definition fresh_crawler : Crawler :=
  {| nodeCounter := 0; visitedUrls := ∅; nodeList := []; requests := [] |}.

(** [crawlFromOverlay(overlayUrl)]: the counter and the cache are reset,
    the array [nodes] is new; an exception of the crawl is thrown on. *)
Definition crawlFromOverlay (fuel : nat) (w : World) (overlayUrl : string)
  : option (outcome (list CrawledNode) * Crawler) :=
  match crawlKustomization fuel w overlayUrl None fresh_crawler with
  | Some (Return _, st) => Some (Return (nodeList st), st)
  | Some (Throw e, st) => Some (Throw e, st)
  | None => None
  end.

End GitCrawler.

(** ** Vocabulary of the statements *)

(** [n] times [..], joined by slashes: the relative path that climbs [n]
    directories. *)
Definition climb (n : nat) : string := Str.join "/" (repeat ".." n).

(** Does some edge of kind [t] target the node [nodeId]? *)
Definition incoming (es : list DependencyEdge) (nodeId : string) (t : NodeType) : bool :=
  existsb (λ e, bool_decide (e_target e = nodeId ∧ e_type e = t)) es.

(** The role that the priority component > base > resource gives a node,
    from the kinds of the edges that target it. *)
Definition role_by_priority (es : list DependencyEdge) (n : KustomizeNode) : NodeType :=
  if incoming es (n_id n) component then component
  else if incoming es (n_id n) base then base
  else n_type n.

(** The ids that the graph builder invents for its virtual nodes. *)
Definition virtual_id (id : string) : Prop :=
  ∃ k : nat, id = "remote-" +:+ pretty k ∨ id = "missing-" +:+ pretty k.

(** The correction of one entry of the reference-type map, seen from one
    node. *)
Definition correct_node (nodeId : string) (refTypes : list NodeType) (n : KustomizeNode)
  : KustomizeNode :=
  if decide (n_id n = nodeId)
  then set_type n (DependencyResolver.corrected_type refTypes (n_type n))
  else n.

(** What the reference-type map holds for a target: the kinds of the edges
    that lead to it. *)
Definition reference_types_of (es : list DependencyEdge) (m : Js.Map (list NodeType)) : Prop :=
  NoDup (map fst m) ∧
  ∀ t, match Js.map_get m t with
       | Some ts => ∀ ty, ty ∈ ts ↔ ∃ e, e ∈ es ∧ e_target e = t ∧ e_type e = ty
       | None => ∀ e, e ∈ es → e_target e ≠ t
       end.

(** The ids of the index while the builder runs on the nodes [ns]: all
    different, each the id of a given node or an id invented with a
    counter value that is used up. *)
Definition known_ids (ns : list KustomizeNode) (st : DependencyResolver.Builder) : Prop :=
  NoDup (map n_id (Js.map_values (DependencyResolver.nodeMap st))) ∧
  ∀ n, n ∈ Js.map_values (DependencyResolver.nodeMap st) →
       n ∈ ns ∨
       ∃ j, j < DependencyResolver.edgeCounter st ∧
            (n_id n = "remote-" +:+ pretty j ∨ n_id n = "missing-" +:+ pretty j).

(** ** Sample inputs *)

Definition sample_node (id path : string) (rs bs cs : list string) : KustomizeNode :=
  {| n_id := id; n_path := path; n_type := resource;
     kustomizationContent :=
       {| apiVersion := None; kind := None; resources := rs; bases := bs; components := cs |};
     isRemote := false; remoteUrl := None; loaded := true; n_error := None |}.

(** An overlay that lists [shared] as a resource and as a component. *)
Definition sample_nodes : list KustomizeNode :=
  [ sample_node "node-0" "." ["base"; "shared"] [] ["shared"];
    sample_node "node-1" "base" [] [] [];
    sample_node "node-2" "shared" ["../base"] [] [] ].

(** A kustomization whose only entry is a manifest file among its bases. *)
Definition sample_yaml_base : list KustomizeNode :=
  [ sample_node "node-0" "." [] ["deploy.yaml"] [] ].

(** Two component entries for one remote directory at two refs. *)
Definition sample_two_refs : list KustomizeNode :=
  [ sample_node "node-0" "." [] []
      ["https://github.com/o/r/comp?ref=v1"; "https://github.com/o/r/comp?ref=v2"] ].

(** A local directory [base] and a remote one of the same name. *)
Definition sample_remote_over_local : list KustomizeNode :=
  [ sample_node "node-0" "." ["base"] [] ["https://github.com/o/r/base"];
    sample_node "node-1" "base" [] [] [] ].

(** ** Walks and cycles of a graph *)

Definition has_edge (es : list DependencyEdge) (x y : string) : Prop :=
  ∃ e, e ∈ es ∧ e_source e = x ∧ e_target e = y.

(** A sequence of node ids, each joined to the next by an edge. *)
Fixpoint walk (es : list DependencyEdge) (l : list string) : Prop :=
  match l with
  | [] => True
  | x :: l' => match l' with
               | [] => True
               | y :: _ => has_edge es x y ∧ walk es l'
               end
  end.

(** A cycle as [detectCycles] writes it: a walk that begins and ends at
    the same node, the re-entry point, and meets no node twice on its
    way. *)
Definition closed_walk (es : list DependencyEdge) (c : list string) : Prop :=
  ∃ x mid, c = x :: mid ++ [x] ∧ NoDup (x :: mid) ∧ walk es c.

Definition acyclic (es : list DependencyEdge) : Prop :=
  ∀ c, ¬ closed_walk es c.

(** The search state between two calls of [dfs], where [path] is the
    argument of the running call: the recursion stack holds the nodes of
    the path, all of them visited; the path is a walk without repetition;
    every cycle written so far is a closed walk. *)
Record dfs_inv (es : list DependencyEdge) (path : list string)
    (st : DependencyResolver.Dfs) : Prop := {
  inv_stack : ∀ x, x ∈ DependencyResolver.recStack st ↔ x ∈ path;
  inv_visited : ∀ x, x ∈ DependencyResolver.recStack st → x ∈ DependencyResolver.visited st;
  inv_walk : walk es path;
  inv_nodup : NoDup path;
  inv_cycles : Forall (closed_walk es) (DependencyResolver.cycles st)
}.

(** The ids that a search of the graph can meet. *)
Definition graph_ids (es : list DependencyEdge) (ids : list string) : gset string :=
  list_to_set (ids ++ map e_target es).

(** The search state before and after the search has met the cycle
    through [a], [b] and [c]. *)
Definition before_cycle (a b c : string) (st : DependencyResolver.Dfs) : Prop :=
  (a ∉ DependencyResolver.visited st) ∧ (b ∉ DependencyResolver.visited st) ∧
  (c ∉ DependencyResolver.visited st) ∧
  (∀ x, x ∉ DependencyResolver.recStack st) ∧ DependencyResolver.cycles st = [].

Definition after_cycle (a b c : string) (st : DependencyResolver.Dfs) : Prop :=
  a ∈ DependencyResolver.visited st ∧ b ∈ DependencyResolver.visited st ∧
  c ∈ DependencyResolver.visited st ∧
  (∀ x, x ∉ DependencyResolver.recStack st) ∧
  ∃ cyc, DependencyResolver.cycles st = [cyc] ∧ ∀ x, x ∈ cyc ↔ x ∈ [a; b; c].

(** ** The state of a crawl *)

(** The two forms of the id of the [k]-th node that a crawl makes. *)
Definition crawler_id (k : nat) (id : string) : Prop :=
  id = "node-" +:+ pretty k ∨ id = "node-" +:+ pretty k +:+ "-error".

(** The exception, if any, that ends the [k]-th request of a crawl or the
    parsing of its answer. *)
Definition load_failure (w : GitCrawler.World) (k : nat) (c : GitUrlComponents)
  : option exn :=
  match GitCrawler.fetch w k c with
  | Throw e => Some e
  | Return content =>
      match GitCrawler.yaml_parse w content with
      | Throw e => Some e
      | Return _ => None
      end
  end.

(** The node shows the failure text, as it is or behind the text of a
    second failure, that of parsing the URL of the node. *)
Definition carries_error {C} (n : KustomizeNodeOf C) (msg : string) : Prop :=
  ∃ m, n_error n = Some m ∧
       (m = msg ∨ ∃ pe, m = "Parse error: " +:+ pe +:+ ". Original: " +:+ msg).

(** What holds of the state of a crawl between two calls. *)
Record crawl_inv (w : GitCrawler.World) (st : GitCrawler.Crawler) : Prop := {
  ci_cached : ∀ u n, GitCrawler.visitedUrls st !! u = Some n →
                     n ∈ GitCrawler.nodeList st ∧ remoteUrl n = Some u;
  ci_listed : ∀ n, n ∈ GitCrawler.nodeList st →
                   ∃ u, remoteUrl n = Some u ∧ GitCrawler.visitedUrls st !! u = Some n;
  ci_ids : ∀ n, n ∈ GitCrawler.nodeList st →
                ∃ k, k < GitCrawler.nodeCounter st ∧ crawler_id k (n_id n);
  ci_nodup : NoDup (map n_id (GitCrawler.nodeList st));
  ci_status : ∀ n, n ∈ GitCrawler.nodeList st →
                   (loaded n = true ∧ n_error n = None) ∨
                   (loaded n = false ∧ is_Some (n_error n));
  ci_failures : ∀ k c e, GitCrawler.requests st !! k = Some c →
                         load_failure w k c = Some e →
                         ∃ n, n ∈ GitCrawler.nodeList st ∧ loaded n = false ∧
                              carries_error n (exn_message e);
  ci_content : ∀ n, n ∈ GitCrawler.nodeList st →
                    if loaded n
                    then ∃ content, GitCrawler.yaml_parse w content
                                    = Return (kustomizationContent n)
                    else kustomizationContent n = GitCrawler.placeholder
}.

(** Every node of the crawl holds a value that reads like a kustomization
    of the declared type. *)
Definition all_typed (st : GitCrawler.Crawler) : Prop :=
  ∀ n, n ∈ GitCrawler.nodeList st → well_typed (kustomizationContent n) = true.

(** A world whose files, when they parse, give values that read like
    kustomizations of the declared type. *)
Definition typed_world (w : GitCrawler.World) : Prop :=
  ∀ content v, GitCrawler.yaml_parse w content = Return v → well_typed v = true.

(** A call that returns, or fails on a parsed value that is not of the
    declared type: it throws a [TypeError], and some node of the crawl
    holds such a value. *)
Definition returns_or_type_error {A} (w : GitCrawler.World) (r : outcome A)
    (st : GitCrawler.Crawler) : Prop :=
  match r with
  | Return _ => True
  | Throw e => (∃ fault, e = GitCrawler.type_error w fault) ∧ ¬ all_typed st
  end.

(** A later state of the same crawl: the array and the request list have
    grown at their ends, the cache has kept its entries. *)
Definition extends (st st' : GitCrawler.Crawler) : Prop :=
  (∃ new, GitCrawler.nodeList st' = GitCrawler.nodeList st ++ new) ∧
  (∃ new, GitCrawler.requests st' = GitCrawler.requests st ++ new) ∧
  GitCrawler.nodeCounter st ≤ GitCrawler.nodeCounter st' ∧
  (∀ u n, GitCrawler.visitedUrls st !! u = Some n → GitCrawler.visitedUrls st' !! u = Some n).

(** The kustomization behind the normalized URL [u] can be fetched and
    parsed, at some moment. *)
Definition loadable (w : GitCrawler.World) (u : string) : Prop :=
  ∃ k c content kz,
    GitCrawler.parseGitUrl (GitCrawler.ensureKustomizationYaml u) = Return c ∧
    GitCrawler.fetch w k c = Return content ∧
    GitCrawler.yaml_parse w content = Return kz.

(** The normalized URLs of the references that the crawler follows from the
    parsed value [kz] found at [u]. *)
Definition child_url (u : string) (kz : ParsedYaml) (v : string) : Prop :=
  ∃ entry resolved,
    entry_string entry ∈ all_entries kz ∧
    GitCrawler.resolveUrl u entry = Return resolved ∧
    v = GitCrawler.normalizeUrl resolved.

(** A set of URLs that holds, with every URL of it, the loadable
    references of the kustomization found there: the part of a finite
    world that a crawl can reach. *)
Definition closed_world (w : GitCrawler.World) (W : gset string) : Prop :=
  ∀ u k c content kz v,
    u ∈ W →
    GitCrawler.parseGitUrl (GitCrawler.ensureKustomizationYaml u) = Return c →
    GitCrawler.fetch w k c = Return content →
    GitCrawler.yaml_parse w content = Return kz →
    child_url u kz v → loadable w v → v ∈ W.

(** What [load_node] leaves behind for the reference [u]: one node, with
    the next id, and at most one request; a failed request shows on the
    node; a node without error that has entries was fetched and parsed. *)
Record loaded_as (w : GitCrawler.World) (u : string) (st : GitCrawler.Crawler)
    (node : GitCrawler.CrawledNode) (st' : GitCrawler.Crawler) : Prop := {
  la_list : GitCrawler.nodeList st' = GitCrawler.nodeList st;
  la_cache : GitCrawler.visitedUrls st' = GitCrawler.visitedUrls st;
  la_counter : GitCrawler.nodeCounter st' = S (GitCrawler.nodeCounter st);
  la_id : crawler_id (GitCrawler.nodeCounter st) (n_id node);
  la_url : remoteUrl node = Some u;
  la_status : (loaded node = true ∧ n_error node = None) ∨
              (loaded node = false ∧ is_Some (n_error node));
  la_requests :
    GitCrawler.requests st' = GitCrawler.requests st ∨
    ∃ c, GitCrawler.requests st' = GitCrawler.requests st ++ [c] ∧
         ∀ e, load_failure w (length (GitCrawler.requests st)) c = Some e →
              loaded node = false ∧ carries_error node (exn_message e);
  la_children :
    GitCrawler.no_error node = true →
    kustomizationContent node = GitCrawler.placeholder ∨
    ((∃ c, GitCrawler.parseGitUrl u = Return c) ∧
     ∃ k c content,
       GitCrawler.parseGitUrl (GitCrawler.ensureKustomizationYaml u) = Return c ∧
       GitCrawler.fetch w k c = Return content ∧
       GitCrawler.yaml_parse w content = Return (kustomizationContent node));
  la_content :
    if loaded node
    then ∃ content, GitCrawler.yaml_parse w content = Return (kustomizationContent node)
    else kustomizationContent node = GitCrawler.placeholder
}.

(** What a call of [crawlKustomization] promises when it comes back: the
    cache holds a node for the reference, which is the node returned when
    the call returns; and the call returns unless a node holds a value that
    is not of the declared type. *)
Definition crawl_post (w : GitCrawler.World)
    (crawl : string → option NodeType → GitCrawler.Async GitCrawler.CrawledNode) : Prop :=
  ∀ url rt st r st',
    crawl url rt st = Some (r, st') → crawl_inv w st →
    (∃ node, GitCrawler.visitedUrls st' !! GitCrawler.normalizeUrl url = Some node ∧
             (∀ node', r = Return node' → node' = node)) ∧
    returns_or_type_error w r st' ∧
    crawl_inv w st' ∧ extends st st'.

(** A call of the crawler comes back whenever its reference is in the
    closed part [W] of the world, or cannot be loaded, and fewer URLs of [W]
    are still to visit than [fuel] says. *)
Definition crawl_returns (w : GitCrawler.World) (W : gset string) (fuel : nat)
    (crawl : string → option NodeType → GitCrawler.Async GitCrawler.CrawledNode) : Prop :=
  ∀ url rt st,
    (loadable w (GitCrawler.normalizeUrl url) → GitCrawler.normalizeUrl url ∈ W) →
    size (W ∖ dom (GitCrawler.visitedUrls st)) < fuel →
    ∃ r st', crawl url rt st = Some (r, st') ∧
             dom (GitCrawler.visitedUrls st) ⊆ dom (GitCrawler.visitedUrls st').

Definition not_found : exn :=
  {| exn_name := "Error"; exn_message := "GitHub API error: 404 Not Found" |}.

Definition sample_kustomization (rs cs : list string) : ParsedYaml :=
  of_kustomization
    {| apiVersion := Some "kustomize.config.k8s.io/v1beta1"; kind := Some "Kustomization";
       resources := rs; bases := []; components := cs |}.

(** The messages of V8 for a program that is not minified. *)
Definition v8_message (fault : TypeFault) : string :=
  match fault with
  | read_of_null property =>
      "Cannot read properties of null (reading '" +:+ property +:+ "')"
  | not_a_function method => "path." +:+ method +:+ " is not a function"
  | not_iterable field => "kustomization." +:+ field +:+ " is not iterable"
  end.

(** A repository with two kustomizations that refer to each other: [root]
    lists [a], a manifest file and two directories that do not exist; [a]
    lists [root]. *)
Definition sample_world : GitCrawler.World :=
  {| GitCrawler.fetch := λ _ c,
       if decide (path c = "root/kustomization.yaml") then Return "root"
       else if decide (path c = "a/kustomization.yaml") then Return "a"
       else Throw not_found;
     GitCrawler.yaml_parse := λ content,
       if decide (content = "root")
       then Return (sample_kustomization ["../a"; "x.yaml"; "../missing"] ["../a"; "../gone"])
       else Return (sample_kustomization ["../root"] []);
     GitCrawler.type_error_message := v8_message |}.

Definition sample_root : string := "https://github.com/o/r/root?ref=main".

Definition sample_reach : gset string :=
  {[ "https://github.com/o/r/root?ref=main"; "https://github.com/o/r/a?ref=main" ]}.

(** A world where no file can be fetched. *)
Definition dead_world : GitCrawler.World :=
  {| GitCrawler.fetch := λ _ _, Throw not_found;
     GitCrawler.yaml_parse := λ _, Return (of_kustomization empty_kustomization);
     GitCrawler.type_error_message := v8_message |}.

(** A repository in which the file of the component [c] is empty: the
    overlay [top] lists the resource [mid], which lists the component [c];
    the overlay [direct] lists the component [c] itself. *)
Definition empty_file_world : GitCrawler.World :=
  {| GitCrawler.fetch := λ _ c, Return (path c);
     GitCrawler.yaml_parse := λ content,
       if decide (content = "top/kustomization.yaml")
       then Return (sample_kustomization ["../mid"] [])
       else if decide (content = "mid/kustomization.yaml")
       then Return (sample_kustomization [] ["../c"])
       else if decide (content = "direct/kustomization.yaml")
       then Return (sample_kustomization [] ["../c"; "../mid"])
       else Return yaml_null;
     GitCrawler.type_error_message := v8_message |}.

(** ** internal/repository/resolver.go: the provider clients *)

Module Providers.

(** Modelled from the spec: [RepositoryInfo] and its [Type] constants are
    declared in a file that is not among the sources; these are the fields
    that resolver.go reads.  [OtherType] stands for any value of [Type]
    that is neither [GitHub] nor [GitLab], with the text that [%s] prints
    for it. *)
Inductive RepositoryType : Type :=
| GitHub
| GitLab
| OtherType (name : string).

Record RepositoryInfo : Type := {
  RepoType : RepositoryType;
  Owner : string;
  Repo : string;
  BaseURL : string
}.

(** One answer of a listing endpoint: the names of the page with
    [resp.NextPage] (zero behind the last page), or the error. *)
Definition Page : Type := result (list string * nat).

(** The calls of the go-github client that a token gives:
    [client.Repositories.ListBranches(ctx, owner, repo, opts)] at
    [opts.Page], and [client.Repositories.ListTags(ctx, owner, repo, tagOpts)]. *)
Record GitHubApi : Type := {
  gh_ListBranches : string → string → string → nat → Page;
  gh_ListTags : string → string → string → Page
}.

(** The calls of the GitLab client: [gitlab.NewClient(token, WithBaseURL(url))],
    which may fail, [client.Branches.ListBranches(projectID, opts)] at
    [opts.Page], and [client.Tags.ListTags(projectID, tagOpts)]. *)
Record GitLabApi : Type := {
  gl_NewClient : string → string → result ();
  gl_ListBranches : string → string → string → nat → Page;
  gl_ListTags : string → string → string → Page
}.

(** The loop [for { ... if resp.NextPage == 0 { break }; opts.Page = resp.NextPage }]
    entered at [page] with the names collected so far; [None] is a run
    that needs more rounds than [fuel]. *)
Fixpoint listAllBranches (fuel : nat) (listPage : nat → Page) (page : nat)
    (allBranches : list string) : option (result (list string)) :=
  match fuel with
  | 0 => None
  | S fuel' =>
      match listPage page with
      | Err e => Some (Err ("failed to list branches: " +:+ e))
      | Ok (branches, nextPage) =>
          let allBranches := allBranches ++ branches in
          if Nat.eqb nextPage 0 then Some (Ok allBranches)
          else listAllBranches fuel' listPage nextPage allBranches
      end
  end.

(** [tags, _, err := ...ListTags(...); if err == nil { append each tag }] *)
Definition appendTags (tags : Page) (allBranches : list string) : list string :=
  match tags with
  | Ok (ts, _) => allBranches ++ ts
  | Err _ => allBranches
  end.

Definition resolveGitHubBranchAndPath (fuel : nat) (api : GitHubApi)
    (repoInfo : RepositoryInfo) (urlPath token : string)
  : option (result (string * string)) :=
  match listAllBranches fuel
          (gh_ListBranches api token (Owner repoInfo) (Repo repoInfo)) 0 [] with
  | None => None
  | Some (Err e) => Some (Err e)
  | Some (Ok allBranches) =>
      let allBranches :=
        appendTags (gh_ListTags api token (Owner repoInfo) (Repo repoInfo)) allBranches in
      Some (Resolver.findLongestMatch allBranches urlPath)
  end.

Definition resolveGitLabBranchAndPath (fuel : nat) (api : GitLabApi)
    (repoInfo : RepositoryInfo) (urlPath token : string)
  : option (result (string * string)) :=
  let url := BaseURL repoInfo +:+ "/api/v4" in
  let client :=
    if negb (Str.is_empty token) then gl_NewClient api token url
    else gl_NewClient api "" url in
  match client with
  | Err e => Some (Err ("failed to create GitLab client: " +:+ e))
  | Ok _ =>
      let projectID := Owner repoInfo +:+ "/" +:+ Repo repoInfo in
      match listAllBranches fuel (gl_ListBranches api token url projectID) 0 [] with
      | None => None
      | Some (Err e) => Some (Err e)
      | Some (Ok allBranches) =>
          let allBranches :=
            appendTags (gl_ListTags api token url projectID) allBranches in
          Some (Resolver.findLongestMatch allBranches urlPath)
      end
  end.

(** [ResolveBranchAndPath] with the package variable [testRefLister] as an
    argument. *)
Definition ResolveBranchAndPath (fuel : nat)
    (testRefLister : option (RepositoryInfo → string → Resolver.RefLister))
    (gh : GitHubApi) (gl : GitLabApi)
    (repoInfo : RepositoryInfo) (urlPath token : string)
  : option (result (string * string)) :=
  match testRefLister with
  | Some l => Some (Resolver.ResolveBranchAndPath (l repoInfo token) urlPath)
  | None =>
      match RepoType repoInfo with
      | GitHub => resolveGitHubBranchAndPath fuel gh repoInfo urlPath token
      | GitLab => resolveGitLabBranchAndPath fuel gl repoInfo urlPath token
      | OtherType name => Some (Err ("unsupported repository type: " +:+ name))
      end
  end.

End Providers.

(** The names that a paginated listing gives from [page] on, when every
    page up to the last one answers. *)
Inductive pages_from (listPage : nat → Providers.Page) : nat → list string → Prop :=
| pages_last (page : nat) (names : list string) :
    listPage page = Ok (names, 0) → pages_from listPage page names
| pages_next (page next : nat) (names rest : list string) :
    listPage page = Ok (names, next) → next ≠ 0 →
    pages_from listPage next rest → pages_from listPage page (names ++ rest).

(** The error that ends a paginated listing entered at [page]. *)
Inductive pages_fail (listPage : nat → Providers.Page) : nat → string → Prop :=
| pages_fail_here (page : nat) (e : string) :
    listPage page = Err e → pages_fail listPage page e
| pages_fail_later (page next : nat) (names : list string) (e : string) :
    listPage page = Ok (names, next) → next ≠ 0 →
    pages_fail listPage next e → pages_fail listPage page e.

(** The tags that the resolver adds to the branches: those of the one tag
    page it asks for, none when that call fails. *)
Definition tags_read (tags : Providers.Page) : list string :=
  match tags with
  | Ok (ts, _) => ts
  | Err _ => []
  end.

(** A GitHub repository with two pages of branches whose tag listing
    fails. *)
Definition sample_github : Providers.GitHubApi :=
  {| Providers.gh_ListBranches := λ _ _ _ page,
       if Nat.eqb page 0 then Ok (["main"; "develop"], 2)
       else Ok (["release/v1"], 0);
     Providers.gh_ListTags := λ _ _ _, Err "rate limited" |}.

(** A GitLab instance whose second page of branches fails. *)
Definition sample_gitlab : Providers.GitLabApi :=
  {| Providers.gl_NewClient := λ _ _, Ok ();
     Providers.gl_ListBranches := λ _ _ _ page,
       if Nat.eqb page 0 then Ok (["main"], 2) else Err "timeout";
     Providers.gl_ListTags := λ _ _ _, Ok (["v1"], 0) |}.

Definition sample_repo (t : Providers.RepositoryType) : Providers.RepositoryInfo :=
  {| Providers.RepoType := t; Providers.Owner := "o"; Providers.Repo := "r";
     Providers.BaseURL := "https://gitlab.com" |}.

(** ** Vocabulary on paths and URLs *)

(** A string without the character [c]. *)
Definition free_of (c : ascii) (s : string) : Prop :=
  ∀ x y, s ≠ x +:+ String c y.

(** A string that [.] reads in full: no line terminator in it. *)
Definition one_line (s : string) : Prop := Js.dot_star s = s.

(** One path segment of a URL: not empty, without slash and without
    question mark. *)
Definition url_segment (s : string) : Prop :=
  s ≠ "" ∧ free_of "/" s ∧ free_of "?" s.

(** ** Vocabulary on the edges of a graph *)

(** The reference entries of a node that the graph builder turns into
    edges, each with its kind: the resources that are no plain YAML files,
    the bases, the components. *)
Definition edge_entries (n : KustomizeNode) : list (string * NodeType) :=
  let kz := kustomizationContent n in
  map (λ r, (r, resource))
      (List.filter (λ r, negb (DependencyResolver.plain_yaml r)) (resources kz)) ++
  map (λ b, (b, base)) (bases kz) ++
  map (λ c, (c, component)) (components kz).

(** The label of the edge of a reference: the reference itself, or the
    short name of a remote URL. *)
Definition edge_label (reference : string) : string :=
  if DependencyResolver.isRemoteUrl reference
  then DependencyResolver.extractLabelFromUrl reference
  else reference.

(** Source, kind and label of an edge. *)
Definition edge_facts (e : DependencyEdge) : string * NodeType * string :=
  (e_source e, e_type e, e_label e).

(** The edges that the entries of the nodes call for, targets apart. *)
Definition expected_edges (ns : list KustomizeNode) : list (string * NodeType * string) :=
  flat_map (λ n, map (λ '(r, t), (n_id n, t, edge_label r)) (edge_entries n)) ns.

(** The ids [edge-c], [edge-(c+1)], ... of [n] edges. *)
Definition edge_ids (c n : nat) : list string :=
  map (λ i, "edge-" +:+ pretty i) (seq c n).

(** The edges added between two builder states: their ids continue the
    counter, and their sources, kinds and labels are [facts]. *)
Definition adds (st st' : DependencyResolver.Builder)
    (facts : list (string * NodeType * string)) : Prop :=
  ∃ new, DependencyResolver.edgeList st' = DependencyResolver.edgeList st ++ new ∧
         DependencyResolver.edgeCounter st'
         = DependencyResolver.edgeCounter st + length new ∧
         map e_id new = edge_ids (DependencyResolver.edgeCounter st) (length new) ∧
         map edge_facts new = facts.

(** ** The shape of the nodes of a crawl *)

(** What the crawler writes on its [i]-th node: the id with the counter
    value [i], marked when the node is in error; a remote node whose kind
    is that of a resource or of a component; an error node holds the
    placeholder kustomization and a message, a loaded node no message. *)
Record node_shape (i : nat) (n : GitCrawler.CrawledNode) : Prop := {
  ns_id : n_id n = "node-" +:+ pretty i +:+ (if loaded n then "" else "-error");
  ns_remote : isRemote n = true ∧ is_Some (remoteUrl n);
  ns_type : n_type n ≠ base;
  ns_error : loaded n = false →
             kustomizationContent n = GitCrawler.placeholder ∧ is_Some (n_error n);
  ns_loaded : loaded n = true → n_error n = None
}.

(** What holds of the counters of a crawl between two calls: the node
    counter is the number of nodes; every loaded node has cost one request
    and no node more than one; the [i]-th node has the shape of the
    [i]-th node. *)
Record crawl_shape (st : GitCrawler.Crawler) : Prop := {
  cs_counter : GitCrawler.nodeCounter st = length (GitCrawler.nodeList st);
  cs_requests : length (GitCrawler.requests st) ≤ length (GitCrawler.nodeList st);
  cs_loaded : length (List.filter loaded (GitCrawler.nodeList st))
              ≤ length (GitCrawler.requests st);
  cs_nodes : ∀ i n, GitCrawler.nodeList st !! i = Some n → node_shape i n
}.

(** The array of the crawl begins with [root]. *)
Definition begins_with (root : GitCrawler.CrawledNode) (st : GitCrawler.Crawler) : Prop :=
  ∃ rest, GitCrawler.nodeList st = root :: rest.

(** ** The finished part of a search *)

(** A node that [dfs] has left: visited and off the recursion stack. *)
Definition finished (st : DependencyResolver.Dfs) (x : string) : Prop :=
  x ∈ DependencyResolver.visited st ∧ x ∉ DependencyResolver.recStack st.

(** The finished nodes hold their successors, and some rank falls along
    every edge between them: they are sorted topologically. *)
Definition ranked (es : list DependencyEdge) (st : DependencyResolver.Dfs) : Prop :=
  ∃ rank : string → nat,
    ∀ e, e ∈ es → finished st (e_source e) →
         finished st (e_target e) ∧ rank (e_target e) < rank (e_source e).

(** Two nodes and one edge between them. *)
Definition sample_chain : KustomizeGraph :=
  {| nodes := [("a", sample_node "node-0" "a" [] [] []);
               ("b", sample_node "node-1" "b" [] [] [])];
     edges := [ {| e_id := "edge-0"; e_source := "node-0"; e_target := "node-1";
                   e_type := resource; e_label := "b" |} ];
     rootPath := "a" |}.

(** ** Well-formed UTF-8 *)

(** [k] continuation octets at the start of [s], the first one within
    [lo..hi]: the rest of the string behind them. *)
Fixpoint utf8_tail (k lo hi : nat) (s : string) : option string :=
  match k with
  | 0 => Some s
  | S k' =>
      match s with
      | String c s' =>
          if Uri.between lo hi (nat_of_ascii c) then utf8_tail k' 128 191 s' else None
      | EmptyString => None
      end
  end.

Fixpoint utf8_go (fuel : nat) (s : string) : bool :=
  match fuel with
  | 0 => false
  | S fuel' =>
      match s with
      | EmptyString => true
      | String c s' =>
          let b := nat_of_ascii c in
          if Nat.ltb b 128 then utf8_go fuel' s'
          else match Uri.utf8_lead b with
               | Some (k, lo, hi) =>
                   match utf8_tail k lo hi s' with
                   | Some rest => utf8_go fuel' rest
                   | None => false
                   end
               | None => false
               end
      end
  end.

(** The octets of [s] are the UTF-8 form of some text: what a JavaScript
    string without lone surrogates is, seen as octets. *)
Definition utf8 (s : string) : bool := utf8_go (S (String.length s)) s.

(** ** Well-formed parts of a repository URL *)

(** A ref that [buildGitUrl] writes into the query and [parseGitUrl] reads
    back: absent, or a non-empty text other than the word [heads]. *)
Definition usable_ref (r : option string) : Prop :=
  match r with
  | None => True
  | Some v => v ≠ "" ∧ v ≠ "heads" ∧ utf8 v = true
  end.

(** A repository segment that [parseGitUrl] keeps as it stands: no closing
    [.git] to strip. *)
Definition repo_segment (r : string) : Prop :=
  url_segment r ∧ Js.strip_suffix ".git" r = r.

(** A path inside a repository as a URL carries it: without question mark
    and on one line. *)
Definition url_path (p : string) : Prop := free_of "?" p ∧ one_line p.

(** The path part that [buildGitUrl] and [normalizeUrl] put behind the
    repository. *)
Definition path_part (p : string) : string :=
  if Str.is_empty p then "" else "/" +:+ p.

(** A host that [parseGitUrl] takes for a GitLab instance. *)
Definition gitlab_host_name (h : string) : Prop :=
  Str.includes h "gitlab" = true ∧ free_of "/" h ∧ free_of "?" h.

(** The text of a repository URL behind its scheme. *)
Definition url_tail (h o r p : string) : string :=
  h +:+ "/" +:+ o +:+ "/" +:+ r +:+ path_part p.

(** ** What [parseGitUrl] reads of a URL *)




(** ** GitCrawler: the GitLab files API *)

Module GitLabFiles.

(** A call of [fetch(url, { headers })], and what the code reads of its
    answer: [response.ok], [response.status], [response.text()]. *)
Record Request : Type := {
  req_url : string;
  req_headers : list (string * string)
}.

Record Response : Type := {
  ok : bool;
  status : nat;
  text : string
}.

(** The network: the answer to the [k]-th request of a run, or the
    exception that [fetch] throws. *)
Definition Net : Type := nat → Request → outcome Response.

(** [headers['PRIVATE-TOKEN'] = this.gitlabToken], when the token is set. *)
Definition token_headers (gitlabToken : option string) : list (string * string) :=
  match GitCrawler.truthy gitlabToken with
  | Some t => [("PRIVATE-TOKEN", t)]
  | None => []
  end.

Definition branch_request (gitlabToken : option string) (host projectPath branch : string)
  : Request :=
  {| req_url := "https://" +:+ host +:+ "/api/v4/projects/" +:+ projectPath +:+
                "/repository/branches/" +:+ Uri.encodeURIComponent branch;
     req_headers := token_headers gitlabToken |}.

(** The loop [for (let i = Math.min(3, parts.length); i > 0; i--)] of
    [detectGitLabBranch], entered at [i], with the requests sent so far,
    and the fallback behind it. *)
Fixpoint branch_probe (net : Net) (gitlabToken : option string)
    (host projectPath : string) (parts : list string) (i : nat) (log : list Request)
  : (string * string) * list Request :=
  match i with
  | 0 => ((List.hd "" parts, Str.join "/" (drop 1 parts)), log)
  | S i' =>
      let potentialBranch := Str.join "/" (take i parts) in
      let potentialPath := Str.join "/" (drop i parts) in
      let request := branch_request gitlabToken host projectPath potentialBranch in
      match net (length log) request with
      | Return response =>
          if ok response then ((potentialBranch, potentialPath), log ++ [request])
          else branch_probe net gitlabToken host projectPath parts i' (log ++ [request])
      | Throw _ =>
          branch_probe net gitlabToken host projectPath parts i' (log ++ [request])
      end
  end.

Definition detectGitLabBranch (net : Net) (gitlabToken : option string)
    (host owner repo pathWithBranch : string) (log : list Request)
  : (string * string) * list Request :=
  let parts := Str.split "/" pathWithBranch in
  let projectPath := Uri.encodeURIComponent (owner +:+ "/" +:+ repo) in
  branch_probe net gitlabToken host projectPath parts (Nat.min 3 (length parts)) log.

Definition file_request (gitlabToken : option string) (host owner repo filePath ref : string)
  : Request :=
  {| req_url := "https://" +:+ host +:+ "/api/v4/projects/" +:+
                Uri.encodeURIComponent (owner +:+ "/" +:+ repo) +:+
                "/repository/files/" +:+ Uri.encodeURIComponent filePath +:+
                "/raw?ref=" +:+ Uri.encodeURIComponent ref;
     req_headers := token_headers gitlabToken |}.

Definition api_error (response : Response) (ref filePath : string) : exn :=
  {| exn_name := "Error";
     exn_message := "GitLab API error: " +:+ pretty (status response) +:+
                    " - Branch: " +:+ ref +:+ ", File: " +:+ filePath |}.

(** [fetchGitLabFile(components)]: the content of the file or the
    exception, and the requests sent. *)
Definition fetchGitLabFile (net : Net) (gitlabToken : option string)
    (components : GitUrlComponents) (log : list Request)
  : outcome string * list Request :=
  let '((ref, filePath), log) :=
    match GitCrawler.truthy (ref components) with
    | None =>
        if Str.includes (path components) "/" then
          let '((branch, path), log) :=
            detectGitLabBranch net gitlabToken (host components) (owner components)
              (repo components) (path components) log in
          ((Some branch, path), log)
        else ((ref components, path components), log)
    | Some _ => ((ref components, path components), log)
    end in
  let ref := default "main" (GitCrawler.truthy ref) in
  let request :=
    file_request gitlabToken (host components) (owner components) (repo components)
      filePath ref in
  match net (length log) request with
  | Throw e => (Throw e, log ++ [request])
  | Return response =>
      if ok response then (Return (text response), log ++ [request])
      else (Throw (api_error response ref filePath), log ++ [request])
  end.

End GitLabFiles.

(** A GitLab instance on which the branch [feature/x] exists and no
    other. *)
Definition sample_net : GitLabFiles.Net :=
  λ _ request,
    Return {| GitLabFiles.ok :=
                bool_decide (GitLabFiles.req_url request =
                  "https://gitlab.com/api/v4/projects/g%2Fp/repository/branches/feature%2Fx");
              GitLabFiles.status := 200; GitLabFiles.text := "" |}.

(** Does the server answer [ok] to the request, put as the [k]-th of the
    run?  A request that fails confirms nothing. *)
Definition confirms (net : GitLabFiles.Net) (k : nat) (request : GitLabFiles.Request) : bool :=
  match net k request with
  | Return response => GitLabFiles.ok response
  | Throw _ => false
  end.

(** The numbers from [i] down to [j]: the candidates in the order in which
    they are tried. *)
Definition candidates_down (i j : nat) : list nat := rev (seq j (S i - j)).

(** A server that cannot be reached. *)
Definition offline : GitLabFiles.Net :=
  λ _ _, Throw {| exn_name := "TypeError"; exn_message := "Failed to fetch" |}.

(** ** GitCrawler: the scan of a local directory *)

Module LocalScan.

(** [s.replace(pattern, '')] for a string pattern: the first occurrence is
    cut out. *)
Fixpoint remove_first (pattern s : string) : string :=
  match Str.strip_prefix pattern s with
  | Some rest => rest
  | None => match s with
            | EmptyString => EmptyString
            | String c s' => String c (remove_first pattern s')
            end
  end.

(** The class of a slash and a backslash. *)
Definition is_separator (c : ascii) : bool :=
  bool_decide (c = "/"%char) || bool_decide (c = "\"%char).

(** [s.replace(/^[\/\\]/, '')] *)
Definition strip_leading_separator (s : string) : string :=
  match s with
  | String c s' => if is_separator c then s' else s
  | EmptyString => EmptyString
  end.

(** [s.replace(/[\/\\]kustomization\.yaml$/, '')] *)
Definition strip_kustomization_file (s : string) : string :=
  if Str.ends_with s "/kustomization.yaml" then Js.strip_suffix "/kustomization.yaml" s
  else Js.strip_suffix "\kustomization.yaml" s.

(** [s.replace(/\\/g, '/')] *)
Fixpoint slashes (s : string) : string :=
  match s with
  | EmptyString => EmptyString
  | String c s' => String (if bool_decide (c = "\"%char) then "/"%char else c) (slashes s')
  end.

(** The path that [scanLocalDirectory] gives the node of a file. *)
Definition relativePath (directoryPath filePath : string) : string :=
  Js.or_else
    (slashes (strip_kustomization_file (strip_leading_separator
       (remove_first directoryPath filePath))))
    ".".

(** The bridge [window.electron]: each call returns or throws;
    [chooseDirectory] gives no path when the dialog is closed. *)
Record Electron : Type := {
  chooseDirectory : outcome (option string);
  scanDirectory : string → outcome (list string);
  readFile : string → outcome string
}.

Definition local_node (counter : nat) (relativePath : string)
    (kustomization : ParsedYaml) : GitCrawler.CrawledNode :=
  {| n_id := "node-" +:+ pretty counter;
     n_path := relativePath;
     n_type := resource;
     kustomizationContent := kustomization;
     isRemote := false;
     remoteUrl := None;
     loaded := true;
     n_error := None |}.

(** The loop over the files found, with the field [nodeCounter] and the
    array [nodes]. *)
Fixpoint scan_files (electron : Electron) (yaml_parse : string → outcome ParsedYaml)
    (directoryPath : string) (files : list string) (nodeCounter : nat)
    (nodes : list GitCrawler.CrawledNode) : outcome (list GitCrawler.CrawledNode) * nat :=
  match files with
  | [] => (Return nodes, nodeCounter)
  | filePath :: files' =>
      match readFile electron filePath with
      | Throw e => (Throw e, nodeCounter)
      | Return content =>
          match yaml_parse content with
          | Return kustomization =>
              let node := local_node nodeCounter (relativePath directoryPath filePath)
                            kustomization in
              scan_files electron yaml_parse directoryPath files' (S nodeCounter)
                (nodes ++ [node])
          | Throw _ =>
              scan_files electron yaml_parse directoryPath files' nodeCounter nodes
          end
      end
  end.

Definition needs_electron : exn :=
  {| exn_name := "Error"; exn_message := "Le scan local nécessite Electron" |}.

Definition nothing_selected : exn :=
  {| exn_name := "Error"; exn_message := "Aucun répertoire sélectionné" |}.

(** [scanLocalDirectory()], run where [window.electron] is [electron], on
    a crawler whose counter is [nodeCounter]: the nodes or the exception,
    and the counter behind the scan. *)
Definition scanLocalDirectory (electron : option Electron)
    (yaml_parse : string → outcome ParsedYaml) (nodeCounter : nat)
  : outcome (list GitCrawler.CrawledNode) * nat :=
  match electron with
  | None => (Throw needs_electron, nodeCounter)
  | Some electron =>
      match chooseDirectory electron with
      | Throw e => (Throw e, nodeCounter)
      | Return directoryPath =>
          match GitCrawler.truthy directoryPath with
          | None => (Throw nothing_selected, nodeCounter)
          | Some directoryPath =>
              match scanDirectory electron directoryPath with
              | Throw e => (Throw e, nodeCounter)
              | Return files =>
                  scan_files electron yaml_parse directoryPath files nodeCounter []
              end
          end
      end
  end.

End LocalScan.

(** The value that a file holds, when it can be read and parsed. *)
Definition parsed_file (electron : LocalScan.Electron)
    (yaml_parse : string → outcome ParsedYaml) (filePath : string)
  : option (string * ParsedYaml) :=
  match LocalScan.readFile electron filePath with
  | Return content =>
      match yaml_parse content with
      | Return kz => Some (filePath, kz)
      | Throw _ => None
      end
  | Throw _ => None
  end.

(** The nodes of the files [found], numbered from [counter]. *)
Definition local_nodes (directoryPath : string) (counter : nat)
    (found : list (string * ParsedYaml)) : list GitCrawler.CrawledNode :=
  imap (λ i '(filePath, kz),
          LocalScan.local_node (counter + i)
            (LocalScan.relativePath directoryPath filePath) kz) found.

(** A directory with an overlay, a file that does not parse and the root
    kustomization. *)
Definition sample_electron : LocalScan.Electron :=
  {| LocalScan.chooseDirectory := Return (Some "/repo");
     LocalScan.scanDirectory := λ _,
       Return ["/repo/overlays/prod/kustomization.yaml"; "/repo/broken/kustomization.yaml";
               "/repo/kustomization.yaml"];
     LocalScan.readFile := λ f, Return f |}.

Definition sample_yaml (content : string) : outcome ParsedYaml :=
  if decide (content = "/repo/broken/kustomization.yaml")
  then Throw {| exn_name := "YAMLParseError"; exn_message := "bad indentation" |}
  else Return (of_kustomization empty_kustomization).

(** ** Vocabulary on kustomization files *)

(** A name that ends like a kustomization file, whatever its case: what
    [isYamlFile] lets through. *)
Definition kustomization_name (path : string) : bool :=
  let lower := Str.to_lower path in
  Str.ends_with lower "kustomization.yaml" || Str.ends_with lower "kustomization.yml".

(** The path of the kustomization file of the directory [p] of a
    repository. *)
Definition kustomization_file (p : string) : string :=
  if Str.is_empty p then "kustomization.yaml" else p +:+ "/kustomization.yaml".

(** ** Closed sets of local kustomizations *)

(** Every entry that the builder turns into an edge is a local path that
    resolves to the path of one of the nodes. *)
Definition closed_local (ns : list KustomizeNode) : Prop :=
  ∀ n r t, n ∈ ns → (r, t) ∈ edge_entries n →
    DependencyResolver.isRemoteUrl r = false ∧
    ∃ m, m ∈ ns ∧ n_path m = DependencyResolver.resolvePath (n_path n) r.

(** The nodes under their paths, in their order. *)
Definition path_index (ns : list KustomizeNode) : Js.Map KustomizeNode :=
  map (λ n, (n_path n, n)) ns.

(** An edge between two of the nodes [ns], whose target sits where the
    label of the edge resolves to from the source. *)
Definition resolved_edge (ns : list KustomizeNode) (e : DependencyEdge) : Prop :=
  ∃ src tgt, src ∈ ns ∧ tgt ∈ ns ∧ e_source e = n_id src ∧ e_target e = n_id tgt ∧
             n_path tgt = DependencyResolver.resolvePath (n_path src) (e_label e).

(** * Part II: properties *)

Example findLongestMatch_test_longest :
  Resolver.findLongestMatch ["main"; "main-feature"; "main-feature-x"] "main-feature-x/foo/bar"
  = Ok ("main-feature-x", "foo/bar").
Proof. reflexivity. Qed.

Example findLongestMatch_test_slashes :
  Resolver.findLongestMatch ["develop"] "/develop/kustomize/base/"
  = Ok ("develop", "kustomize/base").
Proof. reflexivity. Qed.

Example findLongestMatch_test_empty :
  Resolver.findLongestMatch [] "main" = Err "no matching branch found in path: main".
Proof. reflexivity. Qed.

(** ** Facts about the string primitives *)

Lemma is_empty_true (s : string) : Str.is_empty s = true ↔ s = "".
Proof. destruct s; simpl; split; congruence. Qed.

Lemma is_empty_false (s : string) : Str.is_empty s = false ↔ s ≠ "".
Proof. destruct s; simpl; split; congruence. Qed.

Lemma string_length_0 (s : string) : String.length s = 0 → s = "".
Proof. destruct s; simpl; [done | lia]. Qed.

Lemma app_empty_l (s : string) : "" +:+ s = s.
Proof. reflexivity. Qed.

Lemma app_String (a : ascii) (s r : string) : String a s +:+ r = String a (s +:+ r).
Proof. reflexivity. Qed.

Lemma app_empty_r (s : string) : s +:+ "" = s.
Proof. induction s as [| a s IH]; [done |]. by rewrite app_String, IH. Qed.

Lemma app_assoc_str (s r t : string) : (s +:+ r) +:+ t = s +:+ (r +:+ t).
Proof. induction s as [| a s IH]; [done |]. by rewrite !app_String, IH. Qed.

Lemma strip_prefix_Some (p s r : string) :
  Str.strip_prefix p s = Some r ↔ s = p +:+ r.
Proof.
  revert s. induction p as [| a p IH]; intros s; simpl.
  - rewrite app_empty_l. split; congruence.
  - rewrite app_String. destruct s as [| b s]; [split; discriminate |].
    case_decide as Hab.
    + subst b. rewrite IH. split; [intros ->; done | intros [=]; done].
    + split; [done | intros [=]; congruence].
Qed.

Lemma starts_with_strip (s p : string) :
  Str.starts_with s p = true ↔ is_Some (Str.strip_prefix p s).
Proof.
  revert s. induction p as [| a p IH]; intros s; simpl.
  - split; [intros _; by eexists | done].
  - destruct s as [| b s]; [split; [done | intros [? [=]]] |].
    case_decide; [apply IH | split; [done | intros [? [=]]]].
Qed.

Lemma starts_with_app (s p : string) :
  Str.starts_with s p = true ↔ ∃ r, s = p +:+ r.
Proof.
  rewrite starts_with_strip. split.
  - intros [r Hr]. exists r. by apply strip_prefix_Some.
  - intros [r Hr]. exists r. by apply strip_prefix_Some.
Qed.

(** ** Branch/path disambiguation: [findLongestMatch] *)

Section FindLongestMatch.
Import Resolver.

Lemma TrimPrefix_cases (s p : string) :
  (s = p +:+ TrimPrefix s p) ∨ (Str.starts_with s p = false ∧ TrimPrefix s p = s).
Proof.
  unfold TrimPrefix. destruct (Str.strip_prefix p s) as [r |] eqn:E.
  - left. by apply strip_prefix_Some.
  - right. split; [| done].
    destruct (Str.starts_with s p) eqn:E'; [| done].
    apply starts_with_strip in E'. rewrite E in E'. by destruct E'.
Qed.

Lemma longest_spec (branches : list string) (p : string) :
  snd (longest branches p) = String.length (fst (longest branches p)) ∧
  ((fst (longest branches p) = "" ∧
    ∀ b, b ∈ branches → HasPrefix p b = true → b = "") ∨
   (fst (longest branches p) ≠ "" ∧
    longest_found branches p (fst (longest branches p)))).
Proof.
  unfold longest.
  induction branches as [| x l IH] using rev_ind; simpl.
  - split; [done |]. left. split; [done |]. intros b Hb. by apply elem_of_nil in Hb.
  - rewrite fold_left_app. simpl.
    destruct (fold_left (match_step p) l ("", 0)) as [m n]; simpl in *.
    destruct IH as [-> IH]. unfold match_step; simpl.
    destruct (HasPrefix p x) eqn:Hpx.
    + destruct (Nat.ltb_spec (String.length m) (String.length x)) as [Hlt | Hge]; simpl.
      * split; [done |]. right. split.
        { intros ->. simpl in Hlt. lia. }
        exists l, []. split; [done |]. split; [done |]. split.
        -- intros b Hb Hpb. destruct IH as [[-> Hall] | [_ (l1 & l2 & -> & _ & H1 & H2)]].
           ++ rewrite (Hall b Hb Hpb). exact Hlt.
           ++ apply elem_of_app in Hb as [Hb | Hb].
              ** specialize (H1 b Hb Hpb). lia.
              ** apply elem_of_cons in Hb as [-> | Hb]; [done |].
                 specialize (H2 b Hb Hpb). lia.
        -- intros b Hb. by apply elem_of_nil in Hb.
      * split; [done |]. destruct IH as [[-> Hall] | [Hne (l1 & l2 & -> & Hpm & H1 & H2)]].
        -- left. split; [done |]. intros b Hb Hpb.
           apply elem_of_app in Hb as [Hb | Hb]; [by apply Hall |].
           apply list_elem_of_singleton in Hb as ->. simpl in Hge.
           apply string_length_0. lia.
        -- right. split; [done |]. exists l1, (l2 ++ [x]).
           split; [by rewrite <- app_assoc |]. split; [done |]. split; [done |].
           intros b Hb Hpb. apply elem_of_app in Hb as [Hb | Hb]; [by apply H2 |].
           apply list_elem_of_singleton in Hb as ->. done.
    + split; [done |]. destruct IH as [[-> Hall] | [Hne (l1 & l2 & -> & Hpm & H1 & H2)]].
      * left. split; [done |]. intros b Hb Hpb.
        apply elem_of_app in Hb as [Hb | Hb]; [by apply Hall |].
        apply list_elem_of_singleton in Hb as ->. congruence.
      * right. split; [done |]. exists l1, (l2 ++ [x]).
        split; [by rewrite <- app_assoc |]. split; [done |]. split; [done |].
        intros b Hb Hpb. apply elem_of_app in Hb as [Hb | Hb]; [by apply H2 |].
        apply list_elem_of_singleton in Hb as ->. congruence.
Qed.

End FindLongestMatch.

Section TrimSlashes.
Import Resolver.

Lemma mem_slash (c : ascii) : Str.mem c "/" = bool_decide (c = "/"%char).
Proof. simpl. by repeat case_decide; case_bool_decide. Qed.

Lemma TrimLeft_spec (s : string) :
  ∃ n, s = Str.repeat_char "/" n +:+ TrimLeft s "/" ∧
       Str.starts_with (TrimLeft s "/") "/" = false.
Proof.
  induction s as [| c s (n & IH1 & IH2)].
  - by exists 0.
  - cbn [TrimLeft]. rewrite mem_slash. case_bool_decide as Hc.
    + subst c. exists (S n). split; [| done].
      cbn [Str.repeat_char]. rewrite app_String. by f_equal.
    + exists 0. split; [done |]. simpl. by case_decide.
Qed.

Lemma TrimRight_spec (t : string) :
  ∃ n, t = TrimRight t "/" +:+ Str.repeat_char "/" n ∧
       (∀ u, TrimRight t "/" ≠ u +:+ "/") ∧
       (Str.starts_with t "/" = false → Str.starts_with (TrimRight t "/") "/" = false).
Proof.
  induction t as [| c t (n & IH1 & IH2 & IH3)].
  - exists 0. split; [done |]. split; [| done]. by intros [| ? ?].
  - cbn [TrimRight]. rewrite mem_slash.
    destruct (Str.is_empty (TrimRight t "/")) eqn:He; simpl.
    + apply is_empty_true in He. case_bool_decide as Hc.
      * subst c. exists (S n). rewrite He in IH1. rewrite app_empty_l in *.
        split; [cbn [Str.repeat_char]; by f_equal |].
        split; [by intros [| ? ?] |]. by case_decide.
      * exists n. rewrite app_String. split; [by f_equal |]. split; [| done].
        intros [| c' u]; rewrite ?app_empty_l, ?app_String; intros [=]; [done |].
        by eapply IH2.
    + exists n. rewrite app_String. split; [by f_equal |]. split; [| done].
      intros [| c' u]; rewrite ?app_empty_l, ?app_String; intros [= Hc' Hr'].
      * by rewrite Hr' in He.
      * by eapply IH2.
Qed.

Lemma Trim_slash_spec (s : string) :
  ∃ n1 n2, s = Str.repeat_char "/" n1 +:+ Trim s "/" +:+ Str.repeat_char "/" n2 ∧
           Str.starts_with (Trim s "/") "/" = false ∧
           (∀ u, Trim s "/" ≠ u +:+ "/").
Proof.
  unfold Trim.
  destruct (TrimLeft_spec s) as (n1 & H1 & H2).
  destruct (TrimRight_spec (TrimLeft s "/")) as (n2 & H3 & H4 & H5).
  exists n1, n2. split; [| by auto]. by rewrite <- H3.
Qed.

End TrimSlashes.

Section FindLongestMatchSpec.
Import Resolver.

Lemma longest_found_in (branches : list string) (p m : string) :
  longest_found branches p m →
  m ∈ branches ∧ HasPrefix p m = true ∧
  ∀ b, b ∈ branches → HasPrefix p b = true → String.length b ≤ String.length m.
Proof.
  intros (l1 & l2 & -> & Hp & H1 & H2).
  split; [apply elem_of_app; right; apply elem_of_cons; by left |]. split; [done |].
  intros b Hb Hpb. apply elem_of_app in Hb as [Hb | Hb].
  - specialize (H1 b Hb Hpb). lia.
  - apply elem_of_cons in Hb as [-> | Hb]; [done | by apply H2].
Qed.

(** C1, amended.  [findLongestMatch] works on the path with its leading and
    trailing slashes trimmed.  It succeeds exactly when a NON-EMPTY name of
    the list is a prefix of the trimmed path; it then returns the first of
    the longest such names, and as remainder the trimmed path without that
    name and without one slash behind it, when there is one.  Otherwise (no
    name of the list prefixes the path, or only empty names do; the empty
    list is the special case) it returns the no-matching-branch error. *)
Theorem findLongestMatch_longest_nonempty_prefix (branches : list string) (urlPath : string) :
  ∃ p n1 n2,
    p = Trim urlPath "/" ∧
    urlPath = Str.repeat_char "/" n1 +:+ p +:+ Str.repeat_char "/" n2 ∧
    Str.starts_with p "/" = false ∧ (∀ u, p ≠ u +:+ "/") ∧
    match findLongestMatch branches urlPath with
    | Ok (m, rest) =>
        m ≠ "" ∧ longest_found branches p m ∧
        (p = m +:+ "/" +:+ rest ∨ (p = m +:+ rest ∧ Str.starts_with rest "/" = false))
    | Err e =>
        e = no_match_error p ∧
        ∀ b, b ∈ branches → HasPrefix p b = true → b = ""
    end.
Proof.
  destruct (Trim_slash_spec urlPath) as (n1 & n2 & Hsplit & Hl & Hr).
  exists (Trim urlPath "/"), n1, n2. do 4 (split; [done |]).
  unfold findLongestMatch.
  destruct (longest_spec branches (Trim urlPath "/")) as [_ [[Hm Hall] | [Hm Hfound]]].
  - rewrite Hm. simpl. done.
  - apply is_empty_false in Hm as Hm'. rewrite Hm'.
    apply is_empty_false in Hm'. split; [done |]. split; [done |].
    set (m := fst (longest branches (Trim urlPath "/"))) in *.
    destruct (longest_found_in _ _ _ Hfound) as (_ & Hpm & _).
    destruct (TrimPrefix_cases (Trim urlPath "/") m) as [Heq | [Hno _]];
      [| unfold HasPrefix in Hpm; congruence].
    destruct (TrimPrefix_cases (TrimPrefix (Trim urlPath "/") m) "/") as [Heq' | [Hno Heq']].
    + left. by rewrite <- Heq'.
    + right. rewrite Heq'. by split.
Qed.

(** C1 as stated fails on a list holding the empty name: the empty name is
    a prefix of every path, and of greatest length among the prefixing
    names of this list, yet the function reports no matching branch. *)
Lemma findLongestMatch_empty_name_counterexample :
  "" ∈ [""] ∧ HasPrefix (Trim "x" "/") "" = true ∧
  (∀ b, b ∈ [""] → HasPrefix (Trim "x" "/") b = true → String.length b ≤ String.length "") ∧
  findLongestMatch [""] "x" = Err "no matching branch found in path: x" ∧
  ¬ ∃ m rest, findLongestMatch [""] "x" = Ok (m, rest).
Proof.
  split; [by apply list_elem_of_singleton |]. split; [done |]. split.
  - intros b Hb _. apply list_elem_of_singleton in Hb as ->. done.
  - split; [done |]. intros (m & rest & [=]).
Qed.

(** With a lister installed, [ResolveBranchAndPath] is [findLongestMatch]
    on the names it lists, and the error of the lister when it has one. *)
Lemma ResolveBranchAndPath_lister (branches : list string) (msg urlPath : string) :
  ResolveBranchAndPath (Ok branches) urlPath = findLongestMatch branches urlPath ∧
  ResolveBranchAndPath (Err msg) urlPath = Err msg.
Proof. done. Qed.

End FindLongestMatchSpec.

(** ** Relative path joining: [resolvePath] and [joinPaths] *)

Section PathJoining.
Import DependencyResolver GitCrawler.

Lemma or_else_nonempty (x d : string) : d ≠ "" → Js.or_else x d ≠ "".
Proof.
  unfold Js.or_else. destruct (Str.is_empty x) eqn:E; [done |].
  intros _. by apply is_empty_false.
Qed.

Lemma or_else_empty (d : string) : Js.or_else "" d = d.
Proof. done. Qed.

Lemma split_climb_cons (s : string) :
  Str.split "/" (".." +:+ "/" +:+ s) = ".." :: Str.split "/" s.
Proof.
  rewrite !app_String, app_empty_l. cbn [Str.split].
  repeat case_decide; done.
Qed.

Lemma split_climb (n : nat) :
  Str.split "/" (climb (S n)) = repeat ".." (S n).
Proof.
  unfold climb. induction n as [| n IH].
  - done.
  - change (Str.join "/" (repeat ".." (S (S n))))
      with (".." +:+ "/" +:+ Str.join "/" (repeat ".." (S n))).
    rewrite split_climb_cons, IH. done.
Qed.

Lemma filter_repeat_true {A} (f : A → bool) (x : A) (n : nat) :
  f x = true → List.filter f (repeat x n) = repeat x n.
Proof. intros Hf. induction n as [| n IH]; simpl; [done |]. by rewrite Hf, IH. Qed.

Lemma climb_parts (f : string → bool) (n : nat) :
  f "" = false → f ".." = true →
  List.filter f (Str.split "/" (climb n)) = repeat ".." n.
Proof.
  intros H0 H2. destruct n as [| n].
  - simpl. by rewrite H0.
  - rewrite split_climb. by apply filter_repeat_true.
Qed.

Lemma length_removelast {A} (l : list A) : length (removelast l) = length l - 1.
Proof.
  induction l as [| x [| y l] IH]; [done | done |].
  change (removelast (x :: y :: l)) with (x :: removelast (y :: l)).
  simpl length in *. lia.
Qed.

(** Climbing at least as many directories as there are leaves nothing:
    the pops on the emptied array are no-ops. *)
Lemma climb_out (step : list string → string → list string) (n : nat) (parts : list string) :
  (∀ l, step l ".." = Js.pop l) →
  length parts ≤ n → fold_left step (repeat ".." n) parts = [].
Proof.
  intros Hstep. revert parts. induction n as [| n IH]; intros parts Hlen.
  - destruct parts; [done | simpl in Hlen; lia].
  - simpl. apply IH. rewrite Hstep. unfold Js.pop. rewrite length_removelast. lia.
Qed.

(** C10.  Both joins are total functions of their two strings, and their
    result is never the empty string.  A [..] met when no segment is left
    pops the empty array, which leaves it empty; whenever the segments
    cancel out the result is ["."], in particular for a relative path that
    climbs as many directories as the base has, or more. *)
Theorem relative_path_joining_total (basePath relativePath : string) :
  (resolvePath basePath relativePath ≠ "" ∧ joinPaths basePath relativePath ≠ "") ∧
  (resolve_step [] ".." = [] ∧ join_step [] ".." = []) ∧
  (resolve_parts basePath relativePath = [] → resolvePath basePath relativePath = ".") ∧
  (join_parts basePath relativePath = [] → joinPaths basePath relativePath = ".") ∧
  (∀ n, length (List.filter nonempty (Str.split "/" basePath)) ≤ n →
        resolvePath basePath (climb n) = ".") ∧
  (∀ n, length (List.filter real_segment (Str.split "/" basePath)) ≤ n →
        joinPaths basePath (climb n) = ".").
Proof.
  split; [split; by apply or_else_nonempty |].
  split; [done |].
  split; [unfold resolvePath; by intros -> |].
  split; [unfold joinPaths; by intros -> |].
  split.
  - intros n Hn. unfold resolvePath, resolve_parts.
    rewrite (climb_parts nonempty) by done.
    rewrite climb_out; [done | |].
    + intros l. unfold resolve_step. by case_decide.
    + case_decide; [simpl; lia | done].
  - intros n Hn. unfold joinPaths, join_parts.
    rewrite (climb_parts real_segment) by done.
    rewrite climb_out; [done | | done].
    intros l. unfold join_step. by case_decide.
Qed.

Example resolvePath_climbs_past_the_root :
  resolvePath "a/b" "../../../../c" = "c" ∧ joinPaths "a/b" "../../../../c" = "c" ∧
  resolvePath "." ".." = "." ∧ joinPaths "" "../.." = "." ∧
  resolvePath "a" "./.." = "." ∧ joinPaths "a/./b" "../.." = ".".
Proof. repeat split; reflexivity. Qed.

End PathJoining.

(** ** The insertion-ordered map *)

Section JsMap.
Context {V : Type}.
Implicit Types (m : Js.Map V) (k : string) (v : V).

Lemma map_get_set m k v k' :
  Js.map_get (Js.map_set m k v) k' = if decide (k = k') then Some v else Js.map_get m k'.
Proof.
  induction m as [| [k0 v0] m IH]; simpl.
  - by repeat case_decide.
  - destruct (decide (k0 = k)) as [-> | Hne]; simpl.
    + by repeat case_decide.
    + rewrite IH. repeat case_decide; congruence.
Qed.

Lemma map_get_Some_elem m k v : Js.map_get m k = Some v → (k, v) ∈ m.
Proof.
  induction m as [| [k0 v0] m IH]; simpl; [done |].
  case_decide; [intros [= ->]; subst; apply elem_of_cons; by left | intros H'; apply elem_of_cons; right; auto].
Qed.

Lemma map_get_None m k : Js.map_get m k = None ↔ k ∉ map fst m.
Proof.
  induction m as [| [k0 v0] m IH]; simpl.
  - split; [intros _; apply not_elem_of_nil | done].
  - case_decide; subst.
    + split; [done | intros Hk; destruct Hk; apply elem_of_cons; by left].
    + rewrite IH, not_elem_of_cons. split; [by intros ? | by intros [_ ?]].
Qed.

Lemma map_get_elem_NoDup m k v :
  NoDup (map fst m) → (k, v) ∈ m → Js.map_get m k = Some v.
Proof.
  induction m as [| [k0 v0] m IH]; simpl; intros Hnd Hin.
  - by apply elem_of_nil in Hin.
  - apply NoDup_cons in Hnd as [Hk0 Hnd].
    apply elem_of_cons in Hin as [[= -> ->] | Hin]; [by case_decide |].
    case_decide; [| by apply IH]. subst.
    destruct Hk0. apply list_elem_of_fmap. by exists (k, v).
Qed.

Lemma map_set_keys m k v :
  map fst (Js.map_set m k v) =
  if bool_decide (k ∈ map fst m) then map fst m else map fst m ++ [k].
Proof.
  induction m as [| [k0 v0] m IH]; simpl.
  - done.
  - destruct (decide (k0 = k)) as [-> | Hne]; simpl.
    + rewrite bool_decide_eq_true_2; [done |]. apply elem_of_cons; by left.
    + rewrite IH. case_bool_decide as H1; case_bool_decide as H2; try done.
      * destruct H2. apply elem_of_cons. by right.
      * apply elem_of_cons in H2 as [-> | H2]; done.
Qed.

Lemma map_set_keys_NoDup m k v :
  NoDup (map fst m) → NoDup (map fst (Js.map_set m k v)).
Proof.
  intros Hnd. rewrite map_set_keys. case_bool_decide as H; [done |].
  apply NoDup_app. split; [done |]. split; [| apply NoDup_singleton].
  intros x Hx Hx'. apply list_elem_of_singleton in Hx' as ->. done.
Qed.

Lemma map_set_elem m k v k' v' :
  (k', v') ∈ Js.map_set m k v → (k' = k ∧ v' = v) ∨ (k', v') ∈ m.
Proof.
  induction m as [| [k0 v0] m IH]; simpl.
  - intros Hin. apply list_elem_of_singleton in Hin as [= -> ->]. by left.
  - case_decide; subst.
    + intros Hin. apply elem_of_cons in Hin as [[= -> ->] | Hin]; [by left | right; apply elem_of_cons; by right].
    + intros Hin. apply elem_of_cons in Hin as [[= -> ->] | Hin];
        [right; apply elem_of_cons; by left |].
      destruct (IH Hin) as [? | ?]; [by left | right; apply elem_of_cons; by right].
Qed.

Lemma map_set_values_fresh {B} (f : V → B) m k v :
  NoDup (map f (Js.map_values m)) → f v ∉ map f (Js.map_values m) →
  NoDup (map f (Js.map_values (Js.map_set m k v))).
Proof.
  unfold Js.map_values.
  induction m as [| [k0 v0] m IH]; simpl; intros Hnd Hfresh.
  - apply NoDup_singleton.
  - apply NoDup_cons in Hnd as [H0 Hnd].
    apply not_elem_of_cons in Hfresh as [Hne Hfresh].
    case_decide; subst; simpl.
    + apply NoDup_cons. done.
    + apply NoDup_cons. split; [| by apply IH].
      intros Hin. apply list_elem_of_fmap in Hin as (x & Hx1 & Hx2).
      apply list_elem_of_fmap in Hx2 as ([k' v'] & -> & Hx2). simpl in *.
      apply map_set_elem in Hx2 as [[-> ->] | Hx2]; [done |].
      apply H0. apply list_elem_of_fmap. exists v'. split; [done |].
      apply list_elem_of_fmap. by exists (k', v').
Qed.

End JsMap.

(** ** The type-correction pass *)

Section TypeCorrection.
Import DependencyResolver.

Lemma fold_left_preserves {A B} (P : A → Prop) (f : A → B → A) (l : list B) (a : A) :
  (∀ a b, P a → P (f a b)) → P a → P (fold_left f l a).
Proof. intros Hf. revert a. induction l as [| b l IH]; simpl; auto. Qed.

Lemma set_type_same (n : KustomizeNode) : set_type n (n_type n) = n.
Proof. by destruct n. Qed.

Lemma correct_node_id t ts n : n_id (correct_node t ts n) = n_id n.
Proof. unfold correct_node. by case_decide. Qed.

Lemma correct_first_pointwise (nm : Js.Map KustomizeNode) t ts :
  NoDup (map n_id (Js.map_values nm)) →
  correct_first nm t ts = map (λ kn, (kn.1, correct_node t ts kn.2)) nm.
Proof.
  unfold Js.map_values.
  induction nm as [| [k n] nm IH]; simpl; intros Hnd; [done |].
  apply NoDup_cons in Hnd as [Hn Hnd]. unfold correct_node at 1. simpl.
  case_decide as Hid.
  - f_equal. rewrite <- (map_id nm) at 1. apply map_ext_in.
    intros [k' n'] Hin. unfold correct_node. simpl. case_decide as Hid'; [| done].
    destruct Hn. rewrite Hid, <- Hid'.
    apply list_elem_of_fmap. exists n'. split; [done |].
    apply list_elem_of_fmap. exists (k', n'). split; [done |]. by apply list_elem_of_In.
  - f_equal. by apply IH.
Qed.

Lemma correct_fold_pointwise (m : Js.Map (list NodeType)) (nm : Js.Map KustomizeNode) :
  NoDup (map n_id (Js.map_values nm)) →
  fold_left (λ nm '(nodeId, refTypes), correct_first nm nodeId refTypes) m nm =
  map (λ kn, (kn.1, fold_left (λ n '(t, ts), correct_node t ts n) m kn.2)) nm.
Proof.
  revert nm. induction m as [| [t ts] m IH]; intros nm Hnd; simpl.
  - rewrite <- (map_id nm) at 1. apply map_ext. by intros [? ?].
  - rewrite correct_first_pointwise by done. rewrite IH.
    + rewrite map_map. done.
    + unfold Js.map_values in *. rewrite !map_map. rewrite map_map in Hnd.
      erewrite map_ext; [exact Hnd |]. intros [? ?]. simpl. apply correct_node_id.
Qed.

Lemma correct_node_fold (m : Js.Map (list NodeType)) (n : KustomizeNode) :
  NoDup (map fst m) →
  fold_left (λ n '(t, ts), correct_node t ts n) m n =
  match Js.map_get m (n_id n) with
  | Some ts => set_type n (corrected_type ts (n_type n))
  | None => n
  end.
Proof.
  revert n. induction m as [| [t ts] m IH]; intros n Hnd; [done |].
  change (map fst ((t, ts) :: m)) with (t :: map fst m) in Hnd.
  apply NoDup_cons in Hnd as [Ht Hnd]. cbn [fold_left Js.map_get].
  rewrite IH by done. rewrite correct_node_id. unfold correct_node.
  destruct (decide (t = n_id n)) as [-> | Hne].
  - rewrite !decide_True by done.
    apply map_get_None in Ht. by rewrite Ht.
  - rewrite !decide_False by done. done.
Qed.

Lemma elem_of_set_add {T} `{EqDecision T} (s : list T) (x y : T) :
  y ∈ Js.set_add s x ↔ y ∈ s ∨ y = x.
Proof.
  unfold Js.set_add. case_bool_decide as Hx.
  - split; [by left | intros [? | ->]; done].
  - rewrite elem_of_app, list_elem_of_singleton. done.
Qed.


Lemma reference_types_step (es : list DependencyEdge) (m : Js.Map (list NodeType)) e :
  reference_types_of es m → reference_types_of (es ++ [e]) (add_reference_type m e).
Proof.
  intros [Hnd Hm].
  assert (∃ s0, (∀ ty, ty ∈ s0 ↔ ∃ e', e' ∈ es ∧ e_target e' = e_target e ∧ e_type e' = ty) ∧
                NoDup (map fst (add_reference_type m e)) ∧
                ∀ t, Js.map_get (add_reference_type m e) t =
                     if decide (e_target e = t) then Some (Js.set_add s0 (e_type e))
                     else Js.map_get m t) as (s0 & Hs0 & Hnd' & Hget).
  { unfold add_reference_type. pose proof (Hm (e_target e)) as Ht.
    destruct (Js.map_get m (e_target e)) as [s0 |] eqn:E.
    - rewrite E. exists s0. split; [done |]. split; [by apply map_set_keys_NoDup |].
      intros t. apply map_get_set.
    - rewrite map_get_set, decide_True by done. exists []. split.
      + intros ty. split; [intros Hin; by apply elem_of_nil in Hin |].
        intros (e' & He' & Heq & _). by destruct (Ht e' He').
      + split; [by do 2 apply map_set_keys_NoDup |].
        intros t. rewrite !map_get_set. by case_decide. }
  split; [done |]. intros t. rewrite Hget. case_decide as Ht.
  - subst t. intros ty. rewrite elem_of_set_add, Hs0. split.
    + intros [(e' & He' & Heq & Hty) | ->].
      * exists e'. split; [apply elem_of_app; by left | done].
      * exists e. split; [apply elem_of_app; right; by apply list_elem_of_singleton | done].
    + intros (e' & He' & Heq & Hty). apply elem_of_app in He' as [He' | He'].
      * left. by exists e'.
      * apply list_elem_of_singleton in He' as ->. by right.
  - specialize (Hm t). destruct (Js.map_get m t) as [s |].
    + intros ty. rewrite Hm. split.
      * intros (e' & He' & Heq). exists e'. split; [apply elem_of_app; by left | done].
      * intros (e' & He' & Heq & Hty). apply elem_of_app in He' as [He' | He'].
        -- by exists e'.
        -- apply list_elem_of_singleton in He' as ->. done.
    + intros e' He'. apply elem_of_app in He' as [He' | He']; [by apply Hm |].
      apply list_elem_of_singleton in He' as ->. done.
Qed.

Lemma reference_types_spec (es : list DependencyEdge) :
  reference_types_of es (nodeReferenceTypes es).
Proof.
  unfold nodeReferenceTypes. induction es as [| e es IH] using rev_ind.
  - split; [apply NoDup_nil_2 |]. intros t e He. by apply elem_of_nil in He.
  - rewrite fold_left_app. by apply reference_types_step.
Qed.

Lemma incoming_true (es : list DependencyEdge) t ty :
  incoming es t ty = true ↔ ∃ e, e ∈ es ∧ e_target e = t ∧ e_type e = ty.
Proof.
  unfold incoming. rewrite existsb_exists. split.
  - intros (e & He & Hb). apply bool_decide_eq_true in Hb.
    exists e. by rewrite list_elem_of_In.
  - intros (e & He & Hb). exists e. rewrite <- list_elem_of_In.
    split; [done |]. by apply bool_decide_eq_true.
Qed.

Lemma set_has_incoming (es : list DependencyEdge) t ts ty :
  (∀ ty, ty ∈ ts ↔ ∃ e, e ∈ es ∧ e_target e = t ∧ e_type e = ty) →
  Js.set_has ts ty = incoming es t ty.
Proof.
  intros Hts. unfold Js.set_has.
  destruct (incoming es t ty) eqn:E.
  - apply bool_decide_eq_true. apply Hts. by apply incoming_true.
  - apply bool_decide_eq_false. rewrite Hts, <- incoming_true. congruence.
Qed.

(** Under unique ids the pass is the priority rule applied to every node
    of the index, the entries staying where they are. *)
Lemma correctNodeTypes_priority (nm : Js.Map KustomizeNode) (es : list DependencyEdge) :
  NoDup (map n_id (Js.map_values nm)) →
  correctNodeTypes nm es =
  map (λ kn, (kn.1, set_type kn.2 (role_by_priority es kn.2))) nm.
Proof.
  intros Hnd. unfold correctNodeTypes.
  destruct (reference_types_spec es) as [Hkeys Hm].
  rewrite correct_fold_pointwise by done. apply map_ext. intros [k n]. simpl.
  f_equal. rewrite correct_node_fold by done.
  specialize (Hm (n_id n)). unfold role_by_priority.
  destruct (Js.map_get (nodeReferenceTypes es) (n_id n)) as [ts |].
  - unfold corrected_type. by rewrite !(set_has_incoming es (n_id n)).
  - assert (∀ ty, incoming es (n_id n) ty = false) as Hno.
    { intros ty. destruct (incoming es (n_id n) ty) eqn:E; [| done].
      apply incoming_true in E as (e & He & Heq & _). by destruct (Hm e He). }
    rewrite !Hno. by rewrite set_type_same.
Qed.

Lemma map_set_values {V} (m : Js.Map V) k v x :
  x ∈ Js.map_values (Js.map_set m k v) → x = v ∨ x ∈ Js.map_values m.
Proof.
  unfold Js.map_values. intros Hx.
  apply list_elem_of_fmap in Hx as ([k' v'] & -> & Hin).
  apply map_set_elem in Hin as [[_ ->] | Hin]; [by left | right].
  apply list_elem_of_fmap. by exists (k', v').
Qed.

Lemma virtual_ids_differ (j c : nat) :
  ("remote-" +:+ pretty j = "remote-" +:+ pretty c → j = c) ∧
  ("missing-" +:+ pretty j = "missing-" +:+ pretty c → j = c) ∧
  "remote-" +:+ pretty j ≠ "missing-" +:+ pretty c.
Proof.
  split; [| split].
  - intros H. apply (inj (String.append "remote-")) in H. by apply (inj pretty) in H.
  - intros H. apply (inj (String.append "missing-")) in H. by apply (inj pretty) in H.
  - rewrite !app_String. intros [=].
Qed.

Section KnownIds.
Context (ns : list KustomizeNode).
Context (Hgiven : ∀ n, n ∈ ns → ¬ virtual_id (n_id n)).

Lemma known_ids_keep st source target type label :
  known_ids ns st → known_ids ns (push_edge st (nodeMap st) source target type label).
Proof.
  intros [Hnd Hall]. split; [done |]. simpl. intros n Hn.
  destruct (Hall n Hn) as [? | (j & Hj & Hid)]; [by left | right].
  exists j. split; [lia | done].
Qed.

Lemma known_ids_insert st k v source target type label :
  known_ids ns st →
  (n_id v = "remote-" +:+ pretty (edgeCounter st) ∨
   n_id v = "missing-" +:+ pretty (edgeCounter st)) →
  known_ids ns (push_edge st (Js.map_set (nodeMap st) k v) source target type label).
Proof.
  intros [Hnd Hall] Hv. split; simpl.
  - apply map_set_values_fresh; [done |]. intros Hin.
    apply list_elem_of_fmap in Hin as (n & Hid & Hn).
    destruct (Hall n Hn) as [Hgiv | (j & Hj & Hj')].
    + apply (Hgiven n Hgiv). rewrite <- Hid. exists (edgeCounter st). done.
    + destruct (virtual_ids_differ j (edgeCounter st)) as (H1 & H2 & H3).
      destruct (virtual_ids_differ (edgeCounter st) j) as (_ & _ & H4).
      destruct Hv as [Hv | Hv], Hj' as [Hj' | Hj'];
        rewrite Hv, Hj' in Hid; try (by apply H3); try (by apply H4);
        [apply symmetry, H1 in Hid | apply symmetry, H2 in Hid]; lia.
  - intros n Hn. apply map_set_values in Hn as [-> | Hn].
    + right. exists (edgeCounter st). split; [lia | done].
    + destruct (Hall n Hn) as [? | (j & Hj & Hid)]; [by left | right].
      exists j. split; [lia | done].
Qed.

Lemma processReference_known_ids sourceNode reference type st :
  known_ids ns st → known_ids ns (processReference sourceNode reference type st).
Proof.
  intros Hst. unfold processReference.
  destruct (isRemoteUrl reference).
  - cbv zeta. case_decide.
    + apply known_ids_insert; [done | by left].
    + by apply known_ids_keep.
  - destruct (isLocalPath reference); [| done].
    destruct (Js.map_get (nodeMap st) _).
    + by apply known_ids_keep.
    + apply known_ids_insert; [done | by right].
Qed.

Lemma buildEdgesForNode_known_ids node st :
  known_ids ns st → known_ids ns (buildEdgesForNode node st).
Proof.
  intros Hst. unfold buildEdgesForNode.
  repeat apply fold_left_preserves; try done.
  - intros; by apply processReference_known_ids.
  - intros; by apply processReference_known_ids.
  - intros st' r Hst'. destruct (negb (plain_yaml r)); [| done].
    by apply processReference_known_ids.
Qed.

End KnownIds.

Lemma index_known (l : list KustomizeNode) :
  NoDup (map n_id l) →
  let m := fold_left (λ m node, Js.map_set m (n_path node) node) l [] in
  NoDup (map n_id (Js.map_values m)) ∧ ∀ n, n ∈ Js.map_values m → n ∈ l.
Proof.
  induction l as [| x l IH] using rev_ind; intros Hnd; simpl.
  - split; [apply NoDup_nil_2 |]. intros n Hn. by apply elem_of_nil in Hn.
  - rewrite fold_left_app. simpl. rewrite map_app in Hnd.
    apply NoDup_app in Hnd as (Hnd & Hx & _).
    destruct (IH Hnd) as [IH1 IH2]. split.
    + apply map_set_values_fresh; [done |]. intros Hin.
      apply list_elem_of_fmap in Hin as (n & Hid & Hn).
      apply (Hx (n_id x)).
      * rewrite Hid. apply list_elem_of_fmap. exists n. split; [done | by apply IH2].
      * apply list_elem_of_singleton. done.
    + intros n Hn. apply map_set_values in Hn as [-> | Hn].
      * apply elem_of_app. right. by apply list_elem_of_singleton.
      * apply elem_of_app. left. by apply IH2.
Qed.

(** The ids of the index stay unique through [buildGraph] when the given
    nodes have different ids, none of the form of a virtual id. *)
Lemma build_ids_unique (counter : nat) (ns : list KustomizeNode) :
  NoDup (map n_id ns) → (∀ n, n ∈ ns → ¬ virtual_id (n_id n)) →
  known_ids ns (build counter ns).
Proof.
  intros Hnd Hgiven. unfold build.
  apply fold_left_preserves.
  - intros st node Hst. by apply buildEdgesForNode_known_ids.
  - destruct (index_known ns Hnd) as [H1 H2]. split; simpl; [done |].
    intros n Hn. left. by apply H2.
Qed.

(** C2.  For the graph that [buildGraph] makes of nodes with different ids,
    none of them of the form of a virtual id, the type-correction pass sets
    the role of every node of the index by the priority over the kinds of
    the edges that target it: component when an incoming edge has kind
    component, else base when one has kind base, else the role the node had
    before the pass; nothing else of the node or of the index changes. *)
Theorem type_correction_by_priority (counter : nat) (ns : list KustomizeNode) :
  NoDup (map n_id ns) → (∀ n, n ∈ ns → ¬ virtual_id (n_id n)) →
  let before := build counter ns in
  let g := buildGraph counter ns in
  edges g = edgeList before ∧
  nodes g = map (λ kn, (kn.1, set_type kn.2 (role_by_priority (edges g) kn.2)))
                (nodeMap before) ∧
  ∀ k n', (k, n') ∈ nodes g →
    ∃ n, (k, n) ∈ nodeMap before ∧ n' = set_type n (n_type n') ∧
         n_type n' =
           if incoming (edges g) (n_id n') component then component
           else if incoming (edges g) (n_id n') base then base
           else n_type n.
Proof.
  intros Hnd Hgiven before g.
  destruct (build_ids_unique counter ns Hnd Hgiven) as [Hids _].
  assert (nodes g = map (λ kn, (kn.1, set_type kn.2 (role_by_priority (edges g) kn.2)))
                        (nodeMap before)) as Hnodes.
  { subst g before. unfold buildGraph. simpl. by apply correctNodeTypes_priority. }
  split; [done |]. split; [done |].
  intros k n' Hin. rewrite Hnodes in Hin.
  apply list_elem_of_fmap in Hin as ([k0 n] & [= -> ->] & Hin). simpl.
  exists n. split; [done |]. split; [done |]. done.
Qed.

End TypeCorrection.

(** C2 at the sample overlay. *)
Lemma type_correction_by_priority_witness :
  NoDup (map n_id sample_nodes) ∧
  (∀ n, n ∈ sample_nodes → ¬ virtual_id (n_id n)) ∧
  map (λ kn, n_type kn.2) (nodes (DependencyResolver.buildGraph 0 sample_nodes))
  = [resource; resource; component].
Proof.
  assert (NoDup (map n_id sample_nodes)) as Hnd.
  { apply (bool_decide_unpack _). vm_compute. exact I. }
  assert (∀ n, n ∈ sample_nodes → ¬ virtual_id (n_id n)) as Hgiven.
  { intros n Hn [k Hk]. unfold sample_nodes in Hn.
    repeat (apply elem_of_cons in Hn as [-> | Hn]);
      [.. | by apply elem_of_nil in Hn];
      simpl in Hk; rewrite !app_String in Hk; destruct Hk; discriminate. }
  split; [exact Hnd |]. split; [exact Hgiven |].
  destruct (type_correction_by_priority 0 sample_nodes Hnd Hgiven) as (_ & Hnodes & _).
  rewrite Hnodes. vm_compute. reflexivity.
Defined.

(** ** Virtual nodes of the graph builder *)

Section VirtualNodes.
Import DependencyResolver.

Lemma map_set_has_value {V} (m : Js.Map V) k v : v ∈ Js.map_values (Js.map_set m k v).
Proof.
  unfold Js.map_values. apply list_elem_of_fmap. exists (k, v). split; [done |].
  apply map_get_Some_elem. rewrite map_get_set. by case_decide.
Qed.

Lemma map_get_value {V} (m : Js.Map V) k v : Js.map_get m k = Some v → v ∈ Js.map_values m.
Proof.
  intros H. unfold Js.map_values. apply list_elem_of_fmap. exists (k, v).
  split; [done |]. by apply map_get_Some_elem.
Qed.

Lemma find_none_iff {A} (f : A → bool) (l : list A) :
  (∀ x, x ∈ l → f x = false) → List.find f l = None.
Proof.
  induction l as [| x l IH]; [done |]. intros H. simpl.
  rewrite (H x) by (apply elem_of_cons; by left).
  apply IH. intros y Hy. apply H. apply elem_of_cons. by right.
Qed.

(** Per call: every entry that [processReference] handles adds exactly one
    edge, from the source node and of the declared kind, and the target of
    that edge is the id of a node of the index as the call leaves it.  A
    remote URL that no node of the index carries gets a virtual remote node
    (unloaded, role component for a component entry and base otherwise); a
    relative entry whose resolved path has no node gets a virtual missing
    node at that path (role base, unloaded, no error text). *)
Lemma processReference_edge_has_target
    (sourceNode : KustomizeNode) (reference : string) (type : NodeType) (st : Builder) :
  let st' := processReference sourceNode reference type st in
  ∃ e,
    edgeList st' = edgeList st ++ [e] ∧
    e_source e = n_id sourceNode ∧ e_type e = type ∧
    (∃ n, n ∈ Js.map_values (nodeMap st') ∧ n_id n = e_target e) ∧
    (isRemoteUrl reference = true →
     (∀ n, n ∈ Js.map_values (nodeMap st) → remoteUrl n ≠ Some reference) →
     ∃ v, Js.map_get (nodeMap st') (extractDisplayNameFromUrl reference) = Some v ∧
          n_id v = e_target e ∧ v = virtual_remote (n_id v) reference type ∧
          loaded v = false ∧ remoteUrl v = Some reference ∧
          n_type v = (if decide (type = component) then component else base)) ∧
    (isRemoteUrl reference = false →
     Js.map_get (nodeMap st) (resolvePath (n_path sourceNode) reference) = None →
     ∃ v, Js.map_get (nodeMap st') (resolvePath (n_path sourceNode) reference) = Some v ∧
          n_id v = e_target e ∧
          v = virtual_missing (n_id v) (resolvePath (n_path sourceNode) reference) ∧
          loaded v = false ∧ n_type v = base ∧ n_error v = None).
Proof.
  unfold processReference. destruct (isRemoteUrl reference) eqn:Hremote.
  - cbv zeta.
    destruct (List.find _ (Js.map_values (nodeMap st))) as [node |] eqn:Hfind.
    + apply find_some in Hfind as [Hnode Hurl]. apply bool_decide_eq_true in Hurl.
      apply list_elem_of_In in Hnode.
      eexists. split; [reflexivity |]. simpl. do 2 (split; [done |]). split; [| split].
      * case_decide as Hid.
        -- eexists. split; [apply map_set_has_value |]. by rewrite Hid.
        -- by exists node.
      * intros _ Hnone. by destruct (Hnone node Hnode).
      * done.
    + eexists. split; [reflexivity |]. simpl. do 2 (split; [done |]).
      rewrite decide_True by done. split; [| split].
      * eexists. split; [apply map_set_has_value | done].
      * intros _ _. eexists. split; [rewrite map_get_set; by rewrite decide_True |]. done.
      * done.
  - unfold isLocalPath. rewrite Hremote. simpl.
    destruct (Js.map_get (nodeMap st) _) as [targetNode |] eqn:Hget.
    + eexists. split; [reflexivity |]. simpl. do 2 (split; [done |]). split; [| split].
      * exists targetNode. split; [by eapply map_get_value | done].
      * done.
      * done.
    + eexists. split; [reflexivity |]. simpl. do 2 (split; [done |]). split; [| split].
      * eexists. split; [apply map_set_has_value | done].
      * done.
      * intros _ _. eexists. split; [rewrite map_get_set; by rewrite decide_True |]. done.
Qed.

(** C7, at two inputs where the finished graph breaks it.  Virtual remote
    nodes are filed in the path-keyed index under their display name.  Two
    remote entries that differ in their [ref] only share that name: the
    second virtual node replaces the first, and the edge of the first entry
    names an id that no node of the graph has.  A remote entry whose display
    name is the path of a crawled node replaces that node as well. *)
Theorem buildGraph_edge_target_displaced :
  (let g := buildGraph 0 sample_two_refs in
   map e_target (edges g) = ["remote-0"; "remote-1"] ∧
   map n_id (Js.map_values (nodes g)) = ["node-0"; "remote-1"] ∧
   ¬ ∃ n, n ∈ Js.map_values (nodes g) ∧ n_id n = "remote-0") ∧
  (let g := buildGraph 0 sample_remote_over_local in
   map e_target (edges g) = ["node-1"; "remote-1"] ∧
   map n_id (Js.map_values (nodes g)) = ["node-0"; "remote-1"] ∧
   ¬ ∃ n, n ∈ Js.map_values (nodes g) ∧ n_id n = "node-1").
Proof.
  split.
  - split; [by vm_compute |]. split; [by vm_compute |].
    intros (n & Hn & Hid). vm_compute in Hn.
    repeat (apply elem_of_cons in Hn as [-> | Hn]; [discriminate |]).
    by apply elem_of_nil in Hn.
  - split; [by vm_compute |]. split; [by vm_compute |].
    intros (n & Hn & Hid). vm_compute in Hn.
    repeat (apply elem_of_cons in Hn as [-> | Hn]; [discriminate |]).
    by apply elem_of_nil in Hn.
Qed.

End VirtualNodes.

(** ** Plain YAML entries *)

Section PlainYaml.
Import DependencyResolver GitCrawler.

(** The crawler passes over a manifest file, among the resources and among
    the bases alike (both loops call [processResource]): the state stays as
    it is, so nothing is requested and no node is made. *)
Lemma processResource_skips_yaml (w : World)
    (crawl : string → option NodeType → Async CrawledNode)
    (parentUrl entry : string) (st : Crawler) :
  isYamlFile entry = true →
  processResource w crawl parentUrl (entry_string entry) st = Some (Return (), st).
Proof. intros H. unfold processResource. by rewrite H. Qed.

(** The graph builder passes over the entries of [resources] that end in
    [.yaml] or [.yml]. *)
Lemma buildEdgesForNode_skips_yaml_resources (node : KustomizeNode) (st : Builder) :
  Forall (λ r, plain_yaml r = true) (resources (kustomizationContent node)) →
  bases (kustomizationContent node) = [] →
  components (kustomizationContent node) = [] →
  buildEdgesForNode node st = st.
Proof.
  intros Hres Hb Hc. unfold buildEdgesForNode. rewrite Hb, Hc. simpl.
  induction Hres as [| r rs Hr _ IH]; simpl; [done |]. by rewrite Hr.
Qed.

(** C6, at the input where the code breaks it.  A manifest file listed
    among the [bases] is a plain YAML entry for the crawler, yet the loop of
    [buildEdgesForNode] over the bases has no such test: the graph gets an
    edge for the entry, and a virtual missing node of its name. *)
Theorem buildGraph_yaml_base_not_skipped :
  let g := buildGraph 0 sample_yaml_base in
  isYamlFile "deploy.yaml" = true ∧ plain_yaml "deploy.yaml" = true ∧
  map (λ e, (e_source e, e_target e, e_type e, e_label e)) (edges g)
  = [("node-0", "missing-0", base, "deploy.yaml")] ∧
  map (λ kn, (kn.1, n_id kn.2, loaded kn.2)) (nodes g)
  = [(".", "node-0", true); ("deploy.yaml", "missing-0", false)].
Proof. vm_compute. done. Qed.

End PlainYaml.

(** ** Cycle detection *)

Section Cycles.
Import DependencyResolver.
Context (es : list DependencyEdge).

Lemma walk_snoc (l : list string) (a b : string) :
  walk es (l ++ [a]) → has_edge es a b → walk es ((l ++ [a]) ++ [b]).
Proof.
  induction l as [| x l IH]; simpl; [by auto |].
  destruct l as [| y l]; simpl in *; [by intuition |].
  intros [Hxy Hw] Hab. split; [done |]. by apply IH.
Qed.

Lemma walk_tail (x : string) (l : list string) : walk es (x :: l) → walk es l.
Proof. destruct l; simpl; [done | by intros [_ ?]]. Qed.

Lemma walk_drop (i : nat) (l : list string) : walk es l → walk es (drop i l).
Proof.
  revert l. induction i as [| i IH]; intros l Hw; [by rewrite drop_0 |].
  destruct l as [| x l]; [done |]. simpl. apply IH. by eapply walk_tail.
Qed.

Lemma indexOf_Some (l : list string) (x : string) :
  x ∈ l → ∃ i rest, Js.indexOf l x = Some i ∧ drop i l = x :: rest.
Proof.
  induction l as [| y l IH]; [intros H; by apply elem_of_nil in H |].
  intros Hx. simpl. case_decide as Hy.
  - subst y. exists 0, l. done.
  - apply elem_of_cons in Hx as [-> | Hx]; [done |].
    destruct (IH Hx) as (i & rest & -> & Hd). exists (S i), rest. done.
Qed.

Lemma drop_snoc_last (i : nat) (l : list string) (n : string) :
  drop i (l ++ [n]) ≠ [] → ∃ l', drop i (l ++ [n]) = l' ++ [n].
Proof.
  revert i. induction l as [| x l IH]; intros [| i] Hne.
  - by exists [].
  - simpl in Hne. by rewrite drop_nil in Hne.
  - by exists (x :: l).
  - simpl in *. by apply IH.
Qed.

(** The cycle that [dfs] writes on meeting a node of its path again. *)
Lemma report_closed_walk (path : list string) (n target : string) :
  walk es (path ++ [n]) → NoDup (path ++ [n]) → has_edge es n target →
  target ∈ path ++ [n] →
  closed_walk es (Js.slice_from (path ++ [n]) (Js.indexOf (path ++ [n]) target) ++ [target]).
Proof.
  intros Hw Hnd He Hin.
  destruct (indexOf_Some _ _ Hin) as (i & rest & -> & Hd). simpl.
  exists target, rest. rewrite Hd. split; [done |].
  split; [rewrite <- Hd; eapply sublist_NoDup; [exact Hnd | apply sublist_drop] |].
  destruct (drop_snoc_last i path n) as (l' & Hl'); [by rewrite Hd |].
  change (target :: rest ++ [target]) with ((target :: rest) ++ [target]).
  rewrite <- Hd, Hl'. apply walk_snoc; [| done].
  rewrite <- Hl'. by apply walk_drop.
Qed.

Lemma outEdges_elem (n : string) (e : DependencyEdge) :
  e ∈ outEdges es n → has_edge es n (e_target e).
Proof.
  unfold outEdges. rewrite list_elem_of_In, filter_In, <- list_elem_of_In.
  intros [He Hs]. apply bool_decide_eq_true in Hs. by exists e.
Qed.

Lemma dfs_inv_enter (path : list string) (n : string) (st : Dfs) :
  dfs_inv es path st → walk es (path ++ [n]) → n ∉ path →
  dfs_inv es (path ++ [n]) (enter n st).
Proof.
  intros [H1 H2 H3 H5 H4] Hw Hn. split; simpl; [| | done | | done].
  3:{ apply NoDup_app. split; [done |]. split; [| apply NoDup_singleton].
      intros x Hx Hx'. apply list_elem_of_singleton in Hx' as ->. done. }
  - intros x. rewrite elem_of_union, elem_of_singleton, elem_of_app, list_elem_of_singleton, H1.
    tauto.
  - intros x. rewrite !elem_of_union. intros [? | ?]; [by left | right; by apply H2].
Qed.

Lemma dfs_inv_leave (path : list string) (n : string) (st : Dfs) :
  dfs_inv es (path ++ [n]) st → walk es path → n ∉ path → dfs_inv es path (leave n st).
Proof.
  intros [H1 H2 H3 H5 H4] Hw Hn. split; simpl; [| | done | | done].
  3:{ by apply NoDup_app in H5 as [? _]. }
  - intros x. rewrite elem_of_difference, elem_of_singleton, H1, elem_of_app,
      list_elem_of_singleton.
    split; [intros [[? | ?] ?]; done | intros Hx; split; [by left | by intros ->]].
  - intros x. rewrite elem_of_difference. intros [Hx _]. by apply H2.
Qed.

Lemma dfs_inv_report (path : list string) (n target : string) (st : Dfs) :
  dfs_inv es (path ++ [n]) st → has_edge es n target → target ∈ recStack st →
  dfs_inv es (path ++ [n]) (report (path ++ [n]) target st).
Proof.
  intros [H1 H2 H3 H5 H4] He Ht. split; simpl; [done | done | done | done |].
  apply Forall_app. split; [done |]. apply Forall_singleton.
  apply report_closed_walk; [done | done | done | by apply H1].
Qed.

(** Partial correctness of one call of [dfs]. *)
Lemma dfs_sound (fuel : nat) (n : string) (path : list string) (st st' : Dfs) :
  dfs fuel es n path st = Some st' →
  dfs_inv es path st → n ∉ visited st → walk es (path ++ [n]) →
  dfs_inv es path st' ∧ visited st ⊆ visited st' ∧ n ∈ visited st'.
Proof.
  revert n path st st'. induction fuel as [| fuel IH]; intros n path st st'; [done |].
  cbn [dfs]. intros Hdfs Hinv Hn Hw.
  assert (∀ l st1 st2,
    (∀ e, e ∈ l → has_edge es n (e_target e)) →
    Js.for_each (λ st edge,
        if bool_decide (e_target edge ∉ visited st)
        then dfs fuel es (e_target edge) (path ++ [n]) st
        else if bool_decide (e_target edge ∈ recStack st)
             then Some (report (path ++ [n]) (e_target edge) st)
             else Some st) l st1 = Some st2 →
    dfs_inv es (path ++ [n]) st1 →
    dfs_inv es (path ++ [n]) st2 ∧ visited st1 ⊆ visited st2) as Hloop.
  { induction l as [| e l IHl]; intros st1 st2 Hl; simpl.
    - intros [= ->]. done.
    - assert (has_edge es n (e_target e)) as He by (apply Hl, elem_of_cons; by left).
      assert (∀ e', e' ∈ l → has_edge es n (e_target e')) as Hl'
        by (intros e' He'; apply Hl, elem_of_cons; by right).
      case_bool_decide as Hvis.
      + destruct (dfs fuel es (e_target e) (path ++ [n]) st1) as [st1' |] eqn:Hcall; [| done].
        intros Hrest Hinv1.
        destruct (IH _ _ _ _ Hcall Hinv1 Hvis) as (Hinv1' & Hsub & _);
          [by apply walk_snoc |].
        destruct (IHl _ _ Hl' Hrest Hinv1') as [? ?]. split; [done | by etrans].
      + case_bool_decide as Hstack.
        * intros Hrest Hinv1.
          destruct (IHl _ _ Hl' Hrest (dfs_inv_report _ _ _ _ Hinv1 He Hstack)) as [? ?].
          done.
        * intros Hrest Hinv1. by apply (IHl _ _ Hl'). }
  destruct (Js.for_each _ (outEdges es n) (enter n st)) as [st2 |] eqn:Hfor; [| done].
  simpl in Hdfs. injection Hdfs as <-.
  assert (n ∉ path) as Hnp.
  { intros Hin. apply Hn. destruct Hinv as [H1 H2 _ _ _]. by apply H2, H1. }
  destruct (Hloop _ _ _ (outEdges_elem n) Hfor (dfs_inv_enter _ _ _ Hinv Hw Hnp))
    as [Hinv2 Hsub].
  split; [| split].
  - apply dfs_inv_leave; [done | by destruct Hinv | done].
  - simpl in *. intros x Hx. apply Hsub, elem_of_union. by right.
  - simpl in *. apply Hsub, elem_of_union. left. by apply elem_of_singleton.
Qed.

Lemma size_list_to_set_le (l : list string) :
  size (list_to_set l : gset string) ≤ length l.
Proof.
  induction l as [| x l IH].
  - rewrite list_to_set_nil, size_empty. done.
  - rewrite list_to_set_cons, size_union_alt, size_singleton. simpl length.
    pose proof (subseteq_size (list_to_set l ∖ {[x]}) (list_to_set l : gset string)) as Hle.
    assert ((list_to_set l : gset string) ∖ {[x]} ⊆ list_to_set l) as Hsub.
    { intros y. rewrite elem_of_difference. by intros [? _]. }
    specialize (Hle Hsub). lia.
Qed.

Lemma size_unvisited_mono (U V V' : gset string) :
  V ⊆ V' → size (U ∖ V') ≤ size (U ∖ V).
Proof.
  intros Hsub. apply subseteq_size. intros x. rewrite !elem_of_difference.
  intros [? Hx]. split; [done |]. intros Hv. by apply Hx, Hsub.
Qed.

Lemma size_unvisited_enter (U V : gset string) (n : string) :
  n ∈ U → n ∉ V → size (U ∖ ({[n]} ∪ V)) < size (U ∖ V).
Proof.
  intros Hu Hv. apply subset_size. split.
  - intros x. rewrite !elem_of_difference, elem_of_union. intros [? Hx].
    split; [done |]. intros ?. apply Hx. by right.
  - intros Hsub. specialize (Hsub n). rewrite !elem_of_difference, elem_of_union in Hsub.
    destruct Hsub as [_ Hn]; [done |]. apply Hn. left. by apply elem_of_singleton.
Qed.

(** Every call of [dfs] returns when the fuel exceeds the number of ids
    that are not visited yet. *)
Lemma dfs_total (U : gset string) (fuel : nat) (n : string) (path : list string) (st : Dfs) :
  (∀ e, e ∈ es → e_target e ∈ U) →
  size (U ∖ visited st) < fuel → n ∈ U → n ∉ visited st →
  ∃ st', dfs fuel es n path st = Some st' ∧ visited st ⊆ visited st'.
Proof.
  intros HU. revert n path st. induction fuel as [| fuel IH]; intros n path st Hsize Hn Hv;
    [lia |].
  cbn [dfs].
  assert (size (U ∖ visited (enter n st)) < fuel) as Hsize1.
  { pose proof (size_unvisited_enter U (visited st) n Hn Hv). simpl. lia. }
  assert (∀ l st1,
    (∀ e, e ∈ l → e ∈ es) → size (U ∖ visited st1) < fuel →
    ∃ st2,
      Js.for_each (λ st edge,
        if bool_decide (e_target edge ∉ visited st)
        then dfs fuel es (e_target edge) (path ++ [n]) st
        else if bool_decide (e_target edge ∈ recStack st)
             then Some (report (path ++ [n]) (e_target edge) st)
             else Some st) l st1 = Some st2 ∧
      visited st1 ⊆ visited st2) as Hloop.
  { induction l as [| e l IHl]; intros st1 Hl Hs1; simpl.
    - by exists st1.
    - assert (e ∈ es) as He by (apply Hl, elem_of_cons; by left).
      assert (∀ e', e' ∈ l → e' ∈ es) as Hl'
        by (intros e' He'; apply Hl, elem_of_cons; by right).
      case_bool_decide as Hvis.
      + destruct (IH (e_target e) (path ++ [n]) st1 Hs1 (HU e He) Hvis) as (st1' & -> & Hsub).
        destruct (IHl st1' Hl') as (st2 & -> & Hsub').
        { pose proof (size_unvisited_mono U _ _ Hsub). lia. }
        exists st2. split; [done |]. by etrans.
      + case_bool_decide as Hstack.
        * destruct (IHl (report (path ++ [n]) (e_target e) st1) Hl' Hs1) as (st2 & -> & ?).
          by exists st2.
        * by apply IHl. }
  destruct (Hloop (outEdges es n) (enter n st)) as (st2 & -> & Hsub); [| done |].
  { intros e. unfold outEdges. rewrite list_elem_of_In, filter_In, <- list_elem_of_In.
    by intros [? _]. }
  simpl. eexists. split; [done |]. simpl in *.
  intros x Hx. apply Hsub, elem_of_union. by right.
Qed.

Lemma dfs_inv_start : dfs_inv es [] dfs_start.
Proof.
  split; simpl; [| done | done | apply NoDup_nil_2 | done].
  intros x. split; intros H; [by apply not_elem_of_empty in H | by apply elem_of_nil in H].
Qed.

Lemma dfs_all_sound (fuel : nat) (ids : list string) (st st' : Dfs) :
  dfs_all fuel es ids st = Some st' → dfs_inv es [] st → dfs_inv es [] st'.
Proof.
  unfold dfs_all. revert st. induction ids as [| i ids IH]; intros st; simpl.
  - by intros [= ->].
  - case_bool_decide as Hvis; [| by apply IH].
    destruct (dfs fuel es i [] st) as [st1 |] eqn:Hcall; [| done].
    intros Hrest Hinv. apply (IH st1 Hrest).
    by destruct (dfs_sound _ _ _ _ _ Hcall Hinv Hvis).
Qed.

Lemma dfs_all_total (U : gset string) (fuel : nat) (ids : list string) (st : Dfs) :
  (∀ e, e ∈ es → e_target e ∈ U) → (∀ i, i ∈ ids → i ∈ U) →
  size (U ∖ visited st) < fuel →
  ∃ st', dfs_all fuel es ids st = Some st'.
Proof.
  intros HU. unfold dfs_all. revert st. induction ids as [| i ids IH]; intros st Hids Hsize; simpl.
  - by exists st.
  - assert (∀ i', i' ∈ ids → i' ∈ U) as Hids'
      by (intros i' Hi'; apply Hids, elem_of_cons; by right).
    case_bool_decide as Hvis; [| by apply IH].
    destruct (dfs_total U fuel i [] st HU Hsize) as (st1 & -> & Hsub);
      [apply Hids, elem_of_cons; by left | done |].
    apply IH; [done |]. pose proof (size_unvisited_mono U _ _ Hsub). lia.
Qed.

End Cycles.

Lemma detectCycles_returns (g : KustomizeGraph) :
  ∃ cs, DependencyResolver.detectCycles g = Some cs ∧ Forall (closed_walk (edges g)) cs.
Proof.
  unfold DependencyResolver.detectCycles.
  set (ids := map n_id (Js.map_values (nodes g))).
  destruct (dfs_all_total (edges g) (graph_ids (edges g) ids)
              (S (length (nodes g) + length (edges g))) ids DependencyResolver.dfs_start)
    as (st' & Hst').
  - intros e He. unfold graph_ids. apply elem_of_list_to_set, elem_of_app. right.
    apply list_elem_of_fmap. by exists e.
  - intros i Hi. unfold graph_ids. apply elem_of_list_to_set, elem_of_app. by left.
  - pose proof (size_list_to_set_le (ids ++ map e_target (edges g))) as Hle.
    rewrite length_app in Hle. unfold ids, Js.map_values in Hle.
    rewrite !length_map in Hle.
    pose proof (subseteq_size (graph_ids (edges g) ids ∖ DependencyResolver.visited
                                 DependencyResolver.dfs_start)
                  (graph_ids (edges g) ids)) as Hsub.
    unfold graph_ids, ids, Js.map_values in *.
    assert (∀ X Y : gset string, X ∖ Y ⊆ X) as Hdiff
      by (intros X Y x; rewrite elem_of_difference; by intros [? _]).
    specialize (Hsub (Hdiff _ _)). lia.
  - rewrite Hst'. simpl. eexists. split; [done |].
    by destruct (dfs_all_sound _ _ _ _ _ Hst' (dfs_inv_start (edges g))).
Qed.

Lemma filter_Permutation_bool {A} (f : A → bool) (l l' : list A) :
  l ≡ₚ l' → List.filter f l ≡ₚ List.filter f l'.
Proof.
  induction 1 as [| x l l' _ IH | x y l | l l' l'' _ IH1 _ IH2]; simpl.
  - done.
  - destruct (f x); [by constructor | done].
  - destruct (f x), (f y); try done. apply perm_swap.
  - by etrans.
Qed.

Section ThreeCycle.
Import DependencyResolver.
Context (es : list DependencyEdge).

Lemma dfs_isolated (fuel : nat) (n : string) (path : list string) (st : Dfs) :
  outEdges es n = [] → dfs (S fuel) es n path st = Some (leave n (enter n st)).
Proof. intros H. cbn [dfs]. by rewrite H. Qed.

Lemma dfs_three_cycle (x y z : string) (ex ey ez : DependencyEdge) (k : nat) (st : Dfs) :
  x ≠ y → y ≠ z → x ≠ z →
  outEdges es x = [ex] → e_target ex = y →
  outEdges es y = [ey] → e_target ey = z →
  outEdges es z = [ez] → e_target ez = x →
  x ∉ visited st → y ∉ visited st → z ∉ visited st →
  dfs (S (S (S k))) es x [] st =
  Some (leave x (leave y (leave z (report [x; y; z] x (enter z (enter y (enter x st))))))).
Proof.
  intros Hxy Hyz Hxz Hx Hex Hy Hey Hz Hez Hvx Hvy Hvz.
  cbn [dfs]. rewrite Hx. cbn [Js.for_each]. rewrite Hex.
  rewrite bool_decide_eq_true_2.
  2:{ simpl. rewrite elem_of_union, elem_of_singleton. by intros [? | ?]. }
  rewrite Hy. cbn [Js.for_each]. rewrite Hey.
  rewrite bool_decide_eq_true_2.
  2:{ simpl. rewrite !elem_of_union, !elem_of_singleton. by intros [? | [? | ?]]. }
  rewrite Hz. cbn [Js.for_each]. rewrite Hez.
  rewrite bool_decide_eq_false_2.
  2:{ simpl. rewrite !elem_of_union, !elem_of_singleton. intros H. apply H. auto. }
  rewrite bool_decide_eq_true_2.
  2:{ simpl. rewrite !elem_of_union, !elem_of_singleton. auto. }
  reflexivity.
Qed.

Lemma three_cycle_after (x y z : string) (st : Dfs) :
  (∀ u, u ∉ recStack st) → cycles st = [] →
  let st' := leave x (leave y (leave z (report [x; y; z] x (enter z (enter y (enter x st)))))) in
  x ∈ visited st' ∧ y ∈ visited st' ∧ z ∈ visited st' ∧
  (∀ u, u ∉ recStack st') ∧ cycles st' = [[x; y; z; x]].
Proof.
  intros Hrec Hcyc. simpl. rewrite Hcyc. rewrite decide_True by done. simpl.
  rewrite !elem_of_union, !elem_of_singleton.
  split; [auto |]. split; [auto |]. split; [auto |]. split; [| done].
  intros u. rewrite !elem_of_difference, !elem_of_union, !elem_of_singleton.
  intros [[[[? | [? | [? | ?]]] ?] ?] ?]; try done. by apply (Hrec u).
Qed.

Context (a b c : string) (e1 e2 e3 : DependencyEdge).
Context (Hab : a ≠ b) (Hbc : b ≠ c) (Hac : a ≠ c).
Context (Hes : es ≡ₚ [e1; e2; e3]).
Context (H1 : e_source e1 = a ∧ e_target e1 = b).
Context (H2 : e_source e2 = b ∧ e_target e2 = c).
Context (H3 : e_source e3 = c ∧ e_target e3 = a).

Lemma outEdges_three (x : string) :
  outEdges es x =
  if decide (x = a) then [e1] else if decide (x = b) then [e2]
  else if decide (x = c) then [e3] else [].
Proof.
  destruct H1 as [H1s _], H2 as [H2s _], H3 as [H3s _].
  assert (outEdges [e1; e2; e3] x =
          if decide (x = a) then [e1] else if decide (x = b) then [e2]
          else if decide (x = c) then [e3] else []) as Hthree.
  { unfold outEdges. simpl. rewrite H1s, H2s, H3s.
    repeat case_decide; repeat case_bool_decide; congruence. }
  pose proof (filter_Permutation_bool (λ e, bool_decide (e_source e = x)) _ _ Hes) as Hp.
  fold (outEdges es x) in Hp. fold (outEdges [e1; e2; e3] x) in Hp.
  rewrite Hthree in Hp.
  destruct (decide (x = a)); [by apply Permutation_singleton_r in Hp |].
  destruct (decide (x = b)); [by apply Permutation_singleton_r in Hp |].
  destruct (decide (x = c)); [by apply Permutation_singleton_r in Hp |].
  by apply Permutation_nil_r in Hp.
Qed.

Lemma isolated_step (k : nat) (x : string) (st : Dfs) :
  x ≠ a → x ≠ b → x ≠ c →
  dfs (S k) es x [] st = Some (leave x (enter x st)).
Proof.
  intros Ha Hb Hc. apply dfs_isolated. rewrite outEdges_three.
  by rewrite !decide_False.
Qed.

Lemma leave_enter_recStack (x : string) (st : Dfs) :
  (∀ u, u ∉ recStack st) → ∀ u, u ∉ recStack (leave x (enter x st)).
Proof.
  intros Hrec u. simpl. rewrite elem_of_difference, elem_of_union, elem_of_singleton.
  intros [[? | ?] ?]; [done | by apply (Hrec u)].
Qed.

Lemma dfs_all_after (k : nat) (ids : list string) (st : Dfs) :
  after_cycle a b c st →
  ∃ st', dfs_all (S k) es ids st = Some st' ∧ after_cycle a b c st'.
Proof.
  unfold dfs_all. revert st. induction ids as [| i ids IH]; intros st Hst; cbn [Js.for_each].
  - by exists st.
  - case_bool_decide as Hvis; [| by apply IH].
    destruct Hst as (Ha & Hb & Hc & Hrec & Hcyc).
    rewrite isolated_step by (intros ->; done).
    apply IH. split; [| split; [| split; [| split]]]; simpl;
      rewrite ?elem_of_union; auto.
    by apply leave_enter_recStack.
Qed.

Lemma dfs_all_before (k : nat) (ids : list string) (st : Dfs) :
  before_cycle a b c st →
  ∃ st', dfs_all (S (S (S k))) es ids st = Some st' ∧
         ((∃ i, i ∈ ids ∧ i ∈ [a; b; c]) → after_cycle a b c st').
Proof.
  unfold dfs_all. revert st. induction ids as [| i ids IH]; intros st Hst; cbn [Js.for_each].
  - exists st. split; [done |]. intros (i & Hi & _). by apply elem_of_nil in Hi.
  - destruct Hst as (Ha & Hb & Hc & Hrec & Hcyc).
    destruct H1 as [_ H1t], H2 as [_ H2t], H3 as [_ H3t].
    assert (∀ st1, after_cycle a b c st1 →
              ∃ st', Js.for_each (λ st nodeId,
                   if bool_decide (nodeId ∉ visited st)
                   then dfs (S (S (S k))) es nodeId [] st else Some st) ids st1 = Some st' ∧
                 ((∃ i0, i0 ∈ i :: ids ∧ i0 ∈ [a; b; c]) → after_cycle a b c st')) as Hafter.
    { intros st1 Hst1. destruct (dfs_all_after (S (S k)) ids st1 Hst1) as (st' & Hst' & ?).
      exists st'. split; [exact Hst' | done]. }
    destruct (decide (i = a)) as [-> | Hia]; [| destruct (decide (i = b)) as [-> | Hib];
      [| destruct (decide (i = c)) as [-> | Hic]]].
    + rewrite bool_decide_eq_true_2 by done.
      rewrite (dfs_three_cycle a b c e1 e2 e3) by
        (try done; rewrite outEdges_three; repeat case_decide; congruence).
      apply Hafter.
      destruct (three_cycle_after a b c st Hrec Hcyc) as (? & ? & ? & ? & Hc').
      split; [done |]. split; [done |]. split; [done |]. split; [done |].
      eexists. split; [exact Hc' |]. intros x.
      rewrite !elem_of_cons, !elem_of_nil. tauto.
    + rewrite bool_decide_eq_true_2 by done.
      rewrite (dfs_three_cycle b c a e2 e3 e1) by
        (try done; try (by apply not_eq_sym);
         rewrite outEdges_three; repeat case_decide; congruence).
      apply Hafter.
      destruct (three_cycle_after b c a st Hrec Hcyc) as (? & ? & ? & ? & Hc').
      split; [done |]. split; [done |]. split; [done |]. split; [done |].
      eexists. split; [exact Hc' |]. intros x.
      rewrite !elem_of_cons, !elem_of_nil. tauto.
    + rewrite bool_decide_eq_true_2 by done.
      rewrite (dfs_three_cycle c a b e3 e1 e2) by
        (try done; try (by apply not_eq_sym);
         rewrite outEdges_three; repeat case_decide; congruence).
      apply Hafter.
      destruct (three_cycle_after c a b st Hrec Hcyc) as (? & ? & ? & ? & Hc').
      split; [done |]. split; [done |]. split; [done |]. split; [done |].
      eexists. split; [exact Hc' |]. intros x.
      rewrite !elem_of_cons, !elem_of_nil. tauto.
    + assert (before_cycle a b c (leave i (enter i st))) as Hnext.
      { split; [| split; [| split; [| split]]]; simpl;
          rewrite ?elem_of_union, ?elem_of_singleton;
          try (by intros [? | ?]); [| done].
        by apply leave_enter_recStack. }
      case_bool_decide as Hvis.
      * rewrite isolated_step by done.
        destruct (IH _ Hnext) as (st' & -> & Himp). exists st'. split; [done |].
        intros (i0 & Hi0 & HT). apply Himp. exists i0. split; [| done].
        apply elem_of_cons in Hi0 as [-> | ?]; [| done].
        rewrite !elem_of_cons, elem_of_nil in HT. by destruct HT as [? | [? | [? | []]]].
      * destruct (IH st) as (st' & -> & Himp); [done |]. exists st'. split; [done |].
        intros (i0 & Hi0 & HT). apply Himp. exists i0. split; [| done].
        apply elem_of_cons in Hi0 as [-> | ?]; [| done].
        rewrite !elem_of_cons, elem_of_nil in HT. by destruct HT as [? | [? | [? | []]]].
Qed.

End ThreeCycle.

(** C5.  [detectCycles] returns on every graph.  Every cycle it returns is
    a sequence of node ids joined by edges of the graph that starts and
    ends at the same node, the node met again on the recursion stack, and
    holds no other node twice.  On
    an acyclic graph it returns the empty list.  On a graph whose edges, in
    any order, are a → b → c → a, for three different nodes of which the
    index holds at least one, it returns exactly one cycle, and the nodes
    of that cycle are a, b and c. *)
Theorem detectCycles_sound_and_complete (g : KustomizeGraph) :
  ∃ cs, DependencyResolver.detectCycles g = Some cs ∧
    Forall (closed_walk (edges g)) cs ∧
    (acyclic (edges g) → cs = []) ∧
    (∀ a b c e1 e2 e3,
       a ≠ b → b ≠ c → a ≠ c →
       edges g ≡ₚ [e1; e2; e3] →
       e_source e1 = a ∧ e_target e1 = b →
       e_source e2 = b ∧ e_target e2 = c →
       e_source e3 = c ∧ e_target e3 = a →
       (∃ n, n ∈ Js.map_values (nodes g) ∧ n_id n ∈ [a; b; c]) →
       ∃ cyc, cs = [cyc] ∧ ∀ x, x ∈ cyc ↔ x ∈ [a; b; c]).
Proof.
  destruct (detectCycles_returns g) as (cs & Hcs & Hsound).
  exists cs. split; [done |]. split; [done |]. split.
  - intros Hacyclic. destruct cs as [| c cs]; [done |].
    apply Forall_cons in Hsound as [Hc _]. by destruct (Hacyclic c).
  - intros a b c e1 e2 e3 Hab Hbc Hac Hes H1 H2 H3 (n & Hn & Hid).
    unfold DependencyResolver.detectCycles in Hcs.
    rewrite (Permutation_length Hes) in Hcs. simpl length in Hcs.
    rewrite Nat.add_comm in Hcs. simpl Nat.add in Hcs.
    destruct (dfs_all_before (edges g) a b c e1 e2 e3 Hab Hbc Hac Hes H1 H2 H3
                (S (length (nodes g))) (map n_id (Js.map_values (nodes g)))
                DependencyResolver.dfs_start) as (st' & Hst' & Hafter).
    { unfold before_cycle. simpl.
      split; [apply not_elem_of_empty |]. split; [apply not_elem_of_empty |].
      split; [apply not_elem_of_empty |]. split; [| done].
      intros x. apply not_elem_of_empty. }
    rewrite Hst' in Hcs. simpl in Hcs. injection Hcs as <-.
    destruct Hafter as (_ & _ & _ & _ & cyc & Hcyc & Hmem).
    { exists (n_id n). split; [| done]. apply list_elem_of_fmap. by exists n. }
    by exists cyc.
Qed.

Example detectCycles_three_nodes :
  let e (s t : string) :=
    {| e_id := ""; e_source := s; e_target := t; e_type := resource; e_label := "" |} in
  let graph (es : list DependencyEdge) :=
    {| nodes := map (λ n, (n_path n, n)) sample_nodes; edges := es; rootPath := "." |} in
  DependencyResolver.detectCycles
    (graph [e "node-0" "node-1"; e "node-1" "node-2"; e "node-2" "node-0"])
  = Some [["node-0"; "node-1"; "node-2"; "node-0"]] ∧
  DependencyResolver.detectCycles
    (graph [e "node-0" "node-1"; e "node-1" "node-2"; e "node-0" "node-2"])
  = Some [] ∧
  DependencyResolver.detectCycles
    (graph [e "node-1" "node-1"; e "node-1" "node-2"; e "node-2" "node-1"])
  = Some [["node-1"; "node-1"]; ["node-1"; "node-2"; "node-1"]].
Proof. vm_compute. done. Qed.

(** ** The crawler *)

Section CrawlerIds.

Lemma length_app_str (s t : string) :
  String.length (s +:+ t) = String.length s + String.length t.
Proof. induction s as [| a s IH]; [done |]. rewrite app_String. simpl. by rewrite IH. Qed.

Lemma app_inj_r (s s' t : string) : s +:+ t = s' +:+ t → s = s'.
Proof.
  revert s'. induction s as [| a s IH]; intros [| a' s'] H.
  - done.
  - apply (f_equal String.length) in H. rewrite app_empty_l, app_String in H.
    simpl in H. rewrite length_app_str in H. lia.
  - apply (f_equal String.length) in H. rewrite app_empty_l, app_String in H.
    simpl in H. rewrite length_app_str in H. lia.
  - rewrite !app_String in H. injection H as -> H. f_equal. by apply IH.
Qed.

Lemma mem_app_r (c : ascii) (s t : string) : Str.mem c t = true → Str.mem c (s +:+ t) = true.
Proof.
  intros H. induction s as [| a s IH]; [done |]. rewrite app_String. simpl.
  by case_decide.
Qed.

Lemma pretty_N_go_dash (x : N) (s : string) :
  Str.mem "-" (pretty_N_go x s) = Str.mem "-" s.
Proof.
  revert s. induction (N.lt_wf_0 x) as [x _ IH]; intros s.
  assert (x = 0 ∨ 0 < x)%N as [-> | ?] by lia.
  - by rewrite pretty_N_go_0.
  - rewrite pretty_N_go_step by done. rewrite IH by (by apply N.div_lt).
    unfold pretty_N_char. simpl. by repeat case_match.
Qed.

Lemma pretty_nat_dash (k : nat) : Str.mem "-" (pretty k) = false.
Proof.
  unfold pretty, pretty_nat, pretty, pretty_N. case_decide; [done |].
  by rewrite pretty_N_go_dash.
Qed.

Lemma crawler_id_inj (k k' : nat) (id : string) :
  crawler_id k id → crawler_id k' id → k = k'.
Proof.
  assert (∀ a b : nat, pretty a ≠ pretty b +:+ "-error") as Hmixed.
  { intros a b H. pose proof (pretty_nat_dash a) as Ha. rewrite H in Ha.
    rewrite mem_app_r in Ha; done. }
  intros [-> | ->] [H | H]; apply (inj (String.append "node-")) in H.
  - by apply (inj pretty) in H.
  - by destruct (Hmixed k k').
  - by destruct (Hmixed k' k).
  - apply app_inj_r in H. by apply (inj pretty) in H.
Qed.

End CrawlerIds.

Section ParsedValues.

Lemma strings_only_of_strings (l : list string) : strings_only (of_strings l) = true.
Proof. unfold of_strings. simpl. induction l as [| s l IH]; [done |]. simpl. done. Qed.

Lemma well_typed_of_kustomization (k : KustomizationYaml) :
  well_typed (of_kustomization k) = true.
Proof.
  unfold of_kustomization, well_typed. cbn [y_resources y_bases y_components].
  by rewrite !strings_only_of_strings.
Qed.

Lemma strings_only_inv (l : YamlList) :
  strings_only l = true → ∃ ss, l = of_strings ss.
Proof.
  destruct l as [entries |]; [| done]. simpl. intros H.
  induction entries as [| e entries IH].
  - by exists [].
  - simpl in H. apply andb_true_iff in H as [He H].
    destruct (IH H) as [ss Hss]. destruct e as [s | |]; [| done | done].
    exists (s :: ss). unfold of_strings in *. simpl. congruence.
Qed.

(** A parsed value is of the declared type exactly when it is a
    kustomization. *)
Lemma well_typed_inv (v : ParsedYaml) :
  well_typed v = true → ∃ k, v = of_kustomization k.
Proof.
  destruct v as [| [av kd rs bs cs]]; [done |]. simpl. intros H.
  apply andb_true_iff in H as [H Hc]. apply andb_true_iff in H as [Hr Hb].
  apply strings_only_inv in Hr as [r ->], Hb as [b ->], Hc as [c ->].
  by exists {| apiVersion := av; kind := kd; resources := r; bases := b; components := c |}.
Qed.

Lemma strings_only_entries (l : YamlList) (x : YamlEntry) :
  strings_only l = true → x ∈ entries_of l → ∃ s, x = entry_string s.
Proof.
  intros H Hx. apply strings_only_inv in H as [ss ->]. simpl in Hx.
  apply list_elem_of_fmap in Hx as (s & -> & _). by exists s.
Qed.

Lemma well_typed_placeholder : well_typed GitCrawler.placeholder = true.
Proof. reflexivity. Qed.

End ParsedValues.

Section CrawlerInvariant.
Import GitCrawler.
Context (w : World).

Lemma load_node_spec (u : string) (rt : option NodeType) (st st' : Crawler)
    (node : CrawledNode) :
  load_node w u rt st = (node, st') → loaded_as w u st node st'.
Proof.
  unfold load_node, try_load, fetchFileContent, createNode, createErrorNode.
  destruct (parseGitUrl (ensureKustomizationYaml u)) as [c | e0] eqn:Hk;
    [destruct (fetch w (length (requests st)) c) as [content | e1] eqn:Hf;
      [destruct (yaml_parse w content) as [kz | e2] eqn:Hy |] |];
    destruct (parseGitUrl u) as [cu | e3] eqn:Hu; simpl; rewrite ?Hu;
    intros [= <- <-]; split; simpl;
    first
      [ done
      | by left
      | by right
      | by (right; split; [done | eexists])
      | by (right; exists c; split; [done |];
            unfold load_failure; rewrite ?Hf, ?Hy; intros e [=])
      | by (right; exists c; split; [done |];
            unfold load_failure; rewrite ?Hf, ?Hy; intros e [= <-];
            split; [done |]; eexists; split; [done |]; left)
      | by (right; exists c; split; [done |];
            unfold load_failure; rewrite ?Hf, ?Hy; intros e [= <-];
            split; [done |]; eexists; split; [done |]; right; eexists)
      | by (intros _; left)
      | by (intros _; right; split; [by eexists |];
            exists (length (requests st)), c, content)
      | by exists content ].
Qed.

Lemma extends_refl (st : Crawler) : extends st st.
Proof.
  split; [exists []; by rewrite app_nil_r |].
  split; [exists []; by rewrite app_nil_r |]. done.
Qed.

Lemma extends_trans (st1 st2 st3 : Crawler) :
  extends st1 st2 → extends st2 st3 → extends st1 st3.
Proof.
  intros ([l1 Hl1] & [r1 Hr1] & Hc1 & Hv1) ([l2 Hl2] & [r2 Hr2] & Hc2 & Hv2).
  split; [exists (l1 ++ l2); by rewrite Hl2, Hl1, app_assoc |].
  split; [exists (r1 ++ r2); by rewrite Hr2, Hr1, app_assoc |].
  split; [lia | auto].
Qed.

Lemma extends_elem (st st' : Crawler) (n : CrawledNode) :
  extends st st' → n ∈ nodeList st → n ∈ nodeList st'.
Proof. intros ([new ->] & _) Hn. apply elem_of_app. by left. Qed.

(** The nodes made so far stay: if all nodes are of the declared type
    later on, they are now. *)
Lemma all_typed_extends (st st' : Crawler) : extends st st' → all_typed st' → all_typed st.
Proof. intros Hext Hall n Hn. apply Hall. by eapply extends_elem. Qed.

Lemma returns_or_type_error_unit {A} (r : outcome A) (st : Crawler) :
  returns_or_type_error w r st →
  returns_or_type_error w (match r with Return _ => Return () | Throw e => Throw e end) st.
Proof. by destruct r. Qed.

Lemma remember_inv (u : string) (node : CrawledNode) (st st2 : Crawler) :
  crawl_inv w st → loaded_as w u st node st2 → visitedUrls st !! u = None →
  crawl_inv w (remember u node st2) ∧ extends st (remember u node st2) ∧
  visitedUrls (remember u node st2) !! u = Some node.
Proof.
  intros [I1 I2 I3 I4 I5 I6 I7] [L1 L2 L3 L4 L5 L6 L7 _ L9] Hnew.
  split; [| split].
  - split; simpl; rewrite ?L1, ?L2, ?L3.
    + intros u' n. rewrite lookup_insert. case_decide as Hu.
      * intros [= <-]. subst u'. split; [| done].
        apply elem_of_app. right. by apply list_elem_of_singleton.
      * intros Hn. destruct (I1 _ _ Hn) as [? ?]. split; [| done].
        apply elem_of_app. by left.
    + intros n Hn. apply elem_of_app in Hn as [Hn | Hn].
      * destruct (I2 n Hn) as (u' & Hu' & Hget). exists u'. split; [done |].
        rewrite lookup_insert_ne; [done |]. intros <-. congruence.
      * apply list_elem_of_singleton in Hn as ->. exists u. split; [done |].
        by rewrite lookup_insert_eq.
    + intros n Hn. apply elem_of_app in Hn as [Hn | Hn].
      * destruct (I3 n Hn) as (k & Hk & Hid). exists k. split; [lia | done].
      * apply list_elem_of_singleton in Hn as ->. exists (nodeCounter st).
        split; [lia | done].
    + rewrite map_app. apply NoDup_app. split; [done |]. split; [| apply NoDup_singleton].
      intros id Hid Hid'. apply list_elem_of_singleton in Hid' as ->.
      apply list_elem_of_fmap in Hid as (n & Heq & Hn).
      destruct (I3 n Hn) as (k & Hk & Hidk). rewrite <- Heq in Hidk.
      pose proof (crawler_id_inj _ _ _ Hidk L4). lia.
    + intros n Hn. apply elem_of_app in Hn as [Hn | Hn]; [by apply I5 |].
      by apply list_elem_of_singleton in Hn as ->.
    + intros k c e Hreq Hfail. destruct L7 as [Heq | (c' & Heq & Hc')]; rewrite Heq in Hreq.
      * destruct (I6 k c e Hreq Hfail) as (n & Hn & ?). exists n. split; [| done].
        apply elem_of_app. by left.
      * apply lookup_app_Some in Hreq as [Hreq | [Hlen Hreq]].
        -- destruct (I6 k c e Hreq Hfail) as (n & Hn & ?). exists n. split; [| done].
           apply elem_of_app. by left.
        -- destruct (k - length (requests st)) as [| j] eqn:Hj; [| done].
           injection Hreq as <-. assert (k = length (requests st)) as -> by lia.
           exists node. split; [| by apply Hc'].
           apply elem_of_app. right. by apply list_elem_of_singleton.
    + intros n Hn. apply elem_of_app in Hn as [Hn | Hn]; [by apply I7 |].
      by apply list_elem_of_singleton in Hn as ->.
  - split; [exists [node]; simpl; by rewrite L1 |]. split; [| split].
    + simpl. destruct L7 as [-> | (c & -> & _)]; [exists []; by rewrite app_nil_r | by exists [c]].
    + simpl. lia.
    + intros u' n Hn. simpl. rewrite L2. rewrite lookup_insert_ne; [done |].
      intros <-. congruence.
  - simpl. by rewrite lookup_insert_eq.
Qed.

Lemma resolveUrl_returns (baseUrl relativePath : string) (c : GitUrlComponents) :
  parseGitUrl baseUrl = Return c → ∃ v, resolveUrl baseUrl relativePath = Return v.
Proof.
  intros H. unfold resolveUrl. destruct (isFullUrl relativePath); [by eexists |].
  rewrite H. by eexists.
Qed.

(** The three loops leave a placeholder, which has no entries, at once. *)
Lemma crawl_children_placeholder
    (crawl : string → option NodeType → Async CrawledNode) (u : string) (st : Crawler) :
  crawl_children w crawl u placeholder st = Some (Return (), st).
Proof. done. Qed.

(** What one round of a loop promises, and the loop with it: the state of
    the crawl stays well-formed, and nothing is thrown but a [TypeError],
    on a value that is not of the declared type.  [stp] is the state in
    which the node of the loop was stored. *)
Lemma for_each_entry_post (stp : Crawler) (body : YamlEntry → Async ())
    (entries : list YamlEntry) (st st' : Crawler) (r : outcome ()) :
  (∀ x st0 r0 st0', x ∈ entries → body x st0 = Some (r0, st0') →
     crawl_inv w st0 → extends stp st0 →
     returns_or_type_error w r0 st0' ∧ crawl_inv w st0' ∧ extends st0 st0') →
  for_each_entry body entries st = Some (r, st') → crawl_inv w st → extends stp st →
  returns_or_type_error w r st' ∧ crawl_inv w st' ∧ extends st st'.
Proof.
  revert st. induction entries as [| x xs IH]; intros st Hbody; simpl.
  - intros [= <- <-] Hinv _. split; [done |]. split; [done | apply extends_refl].
  - destruct (body x st) as [[[[] | e] st1] |] eqn:Hx; [| | done].
    + intros Hrest Hinv Hext.
      destruct (Hbody _ _ _ _ ltac:(apply elem_of_cons; by left) Hx Hinv Hext)
        as (_ & Hinv1 & Hext1).
      destruct (IH st1) as (? & ? & ?); [| done | done | by eapply extends_trans |].
      { intros x' st0 r0 st0' Hx'. apply Hbody. apply elem_of_cons. by right. }
      split; [done |]. split; [done |]. by eapply extends_trans.
    + intros [= <- <-] Hinv Hext.
      by apply (Hbody _ _ _ _ ltac:(apply elem_of_cons; by left) Hx Hinv Hext).
Qed.

Section Children.
Context (crawl : string → option NodeType → Async CrawledNode).
Context (Hcrawl : crawl_post w crawl).
Context (parentUrl : string) (parent : GitUrlComponents).
Context (Hparent : parseGitUrl parentUrl = Return parent).
Context (stp : Crawler) (content : ParsedYaml).
Context (Hcontent : ∀ st0, extends stp st0 → all_typed st0 → well_typed content = true).

Lemma ill_typed_entry (x : YamlEntry) (st : Crawler) :
  x ∈ all_entries content → is_string x = false → extends stp st → ¬ all_typed st.
Proof.
  intros Hx Hno Hext Hall. pose proof (Hcontent st Hext Hall) as Hwt.
  clear Hcontent. destruct content as [| o]; [done |]. simpl in Hwt, Hx.
  apply andb_true_iff in Hwt as [Hwt Hc]. apply andb_true_iff in Hwt as [Hr Hb].
  assert (∃ s, x = entry_string s) as [s ->]; [| done].
  apply elem_of_app in Hx as [Hx | Hx]; [exact (strings_only_entries _ _ Hr Hx) |].
  apply elem_of_app in Hx as [Hx | Hx];
    [exact (strings_only_entries _ _ Hb Hx) | exact (strings_only_entries _ _ Hc Hx)].
Qed.

Lemma processResource_post (x : YamlEntry) (st : Crawler) (r : outcome ()) (st' : Crawler) :
  x ∈ all_entries content →
  processResource w crawl parentUrl x st = Some (r, st') → crawl_inv w st → extends stp st →
  returns_or_type_error w r st' ∧ crawl_inv w st' ∧ extends st st'.
Proof.
  intros Hx. unfold processResource. destruct x as [res | |].
  - destruct (isYamlFile res).
    + intros [= <- <-] ? _. split; [done |]. split; [done | apply extends_refl].
    + destruct (resolveUrl_returns parentUrl res parent Hparent) as [v ->].
      destruct (crawl v (Some resource) st) as [[[n | e] st1] |] eqn:Hc; [| | done];
        intros [= <- <-] Hinv _; destruct (Hcrawl _ _ _ _ _ Hc Hinv) as (_ & _ & ? & ?);
        done.
  - intros [= <- <-] Hinv Hext. split; [| split; [done | apply extends_refl]].
    split; [by eexists | by eapply ill_typed_entry].
  - intros [= <- <-] Hinv Hext. split; [| split; [done | apply extends_refl]].
    split; [by eexists | by eapply ill_typed_entry].
Qed.

Lemma processComponent_post (x : YamlEntry) (st : Crawler) (r : outcome ()) (st' : Crawler) :
  x ∈ all_entries content →
  processComponent w crawl parentUrl x st = Some (r, st') → crawl_inv w st → extends stp st →
  returns_or_type_error w r st' ∧ crawl_inv w st' ∧ extends st st'.
Proof.
  intros Hx. unfold processComponent. destruct x as [comp | |].
  - destruct (resolveUrl_returns parentUrl comp parent Hparent) as [v ->].
    destruct (crawl v (Some component) st) as [[[n | e] st1] |] eqn:Hc; [| | done];
      intros [= <- <-] Hinv _; destruct (Hcrawl _ _ _ _ _ Hc Hinv) as (_ & ? & ? & ?);
      done.
  - intros [= <- <-] Hinv Hext. split; [| split; [done | apply extends_refl]].
    split; [by eexists | by eapply ill_typed_entry].
  - intros [= <- <-] Hinv Hext. split; [| split; [done | apply extends_refl]].
    split; [by eexists | by eapply ill_typed_entry].
Qed.

Lemma for_each_of_post (field : string) (body : YamlEntry → Async ()) (l : YamlList)
    (st st' : Crawler) (r : outcome ()) :
  (∀ x, x ∈ entries_of l → x ∈ all_entries content) →
  (l = yaml_not_iterable → well_typed content = false) →
  (∀ x st0 r0 st0', x ∈ all_entries content → body x st0 = Some (r0, st0') →
     crawl_inv w st0 → extends stp st0 →
     returns_or_type_error w r0 st0' ∧ crawl_inv w st0' ∧ extends st0 st0') →
  for_each_of w field body l st = Some (r, st') → crawl_inv w st → extends stp st →
  returns_or_type_error w r st' ∧ crawl_inv w st' ∧ extends st st'.
Proof.
  intros Hin Hiter Hbody. unfold for_each_of. destruct l as [entries |].
  - apply for_each_entry_post. intros x st0 r0 st0' Hx. apply Hbody. by apply Hin.
  - intros [= <- <-] Hinv Hext. split; [| split; [done | apply extends_refl]].
    split; [by eexists |]. intros Hall.
    pose proof (Hcontent st Hext Hall) as Hwt. by rewrite Hiter in Hwt.
Qed.

Lemma crawl_children_post (st st' : Crawler) (r : outcome ()) :
  crawl_children w crawl parentUrl content st = Some (r, st') →
  crawl_inv w st → extends stp st →
  returns_or_type_error w r st' ∧ crawl_inv w st' ∧ extends st st'.
Proof.
  assert (∀ v, v = content →
            crawl_children w crawl parentUrl v st = Some (r, st') →
            crawl_inv w st → extends stp st →
            returns_or_type_error w r st' ∧ crawl_inv w st' ∧ extends st st') as Hgen;
    [| by apply Hgen].
  intros v Hv. unfold crawl_children. intros H Hinv Hext.
  destruct v as [| o].
  { injection H as <- <-. split; [| split; [done | apply extends_refl]].
    split; [by eexists |]. intros Hall. pose proof (Hcontent st Hext Hall) as Hwt.
    by rewrite <- Hv in Hwt. }
  assert (Hres : ∀ x, x ∈ entries_of (y_resources o) → x ∈ all_entries content)
    by (intros x Hx; rewrite <- Hv; simpl; apply elem_of_app; by left).
  assert (Hbas : ∀ x, x ∈ entries_of (y_bases o) → x ∈ all_entries content)
    by (intros x Hx; rewrite <- Hv; simpl; apply elem_of_app; right;
        apply elem_of_app; by left).
  assert (Hcmp : ∀ x, x ∈ entries_of (y_components o) → x ∈ all_entries content)
    by (intros x Hx; rewrite <- Hv; simpl; apply elem_of_app; right;
        apply elem_of_app; by right).
  assert (Hi1 : y_resources o = yaml_not_iterable → well_typed content = false)
    by (intros E; rewrite <- Hv; simpl; by rewrite E).
  assert (Hi2 : y_bases o = yaml_not_iterable → well_typed content = false)
    by (intros E; rewrite <- Hv; simpl; rewrite E; simpl; by rewrite andb_false_r).
  assert (Hi3 : y_components o = yaml_not_iterable → well_typed content = false)
    by (intros E; rewrite <- Hv; simpl; rewrite E; simpl; by rewrite andb_false_r).
  destruct (for_each_of w "resources" (processResource w crawl parentUrl) (y_resources o) st)
    as [[r1 st1] |] eqn:H1; [| done].
  destruct (for_each_of_post _ _ _ _ _ _ Hres Hi1 processResource_post H1 Hinv Hext)
    as (Hr1 & Hinv1 & Hext1).
  destruct r1 as [[] | e1]; [| by injection H as <- <-].
  assert (extends stp st1) as Hext1' by (by eapply extends_trans).
  destruct (for_each_of w "bases" (processResource w crawl parentUrl) (y_bases o) st1)
    as [[r2 st2] |] eqn:H2; [| done].
  destruct (for_each_of_post _ _ _ _ _ _ Hbas Hi2 processResource_post H2 Hinv1 Hext1')
    as (Hr2 & Hinv2 & Hext2).
  destruct r2 as [[] | e2];
    [| injection H as <- <-; split; [done |]; split; [done | by eapply extends_trans]].
  assert (extends stp st2) as Hext2' by (by eapply extends_trans).
  destruct (for_each_of_post _ _ _ _ _ _ Hcmp Hi3 processComponent_post H Hinv2 Hext2')
    as (Hr3 & Hinv3 & Hext3).
  split; [done |]. split; [done |]. eauto using extends_trans.
Qed.

End Children.

(** Every call of [crawlKustomization] that comes back leaves the node of
    the reference in the cache and keeps the state of the crawl
    well-formed; it returns that node, unless a [TypeError] on a value that
    is not of the declared type ends it. *)
Lemma crawlKustomization_post (fuel : nat) : crawl_post w (crawlKustomization fuel w).
Proof.
  induction fuel as [| fuel IH]; intros url rt st r st'; [done |].
  cbn [crawlKustomization].
  destruct (visitedUrls st !! normalizeUrl url) as [existing |] eqn:Hcache.
  - intros [= <- <-] Hinv.
    split; [exists existing; split; [done | by intros ? [= <-]] |].
    split; [done |]. split; [done | apply extends_refl].
  - destruct (load_node w (normalizeUrl url) rt st) as [node st2] eqn:Hload.
    intros Hrun Hinv. pose proof (load_node_spec _ _ _ _ _ Hload) as Hspec.
    destruct (remember_inv _ _ _ _ Hinv Hspec Hcache) as (Hinv3 & Hext3 & Hget3).
    destruct (no_error node) eqn:Hne.
    + destruct (crawl_children _ _ _ _ _) as [[r4 st4] |] eqn:Hch; [| done].
      assert (returns_or_type_error w r4 st4 ∧ crawl_inv w st4 ∧
              extends (remember (normalizeUrl url) node st2) st4)
        as (Hr4 & Hinv4 & Hext4).
      { destruct (la_children _ _ _ _ _ Hspec Hne) as [Hph | [[c Hc] _]].
        - rewrite Hph, crawl_children_placeholder in Hch. injection Hch as <- <-.
          split; [done |]. split; [done | apply extends_refl].
        - eapply (crawl_children_post _ IH _ _ Hc (remember (normalizeUrl url) node st2));
            [| done | done | apply extends_refl].
          intros st0 Hext0 Hall. apply Hall. eapply extends_elem; [done |].
          simpl. apply elem_of_app. right. by apply list_elem_of_singleton. }
      assert (visitedUrls st4 !! normalizeUrl url = Some node) as Hget4 by (by apply Hext4).
      destruct r4 as [[] | e]; injection Hrun as <- <-.
      * split; [exists node; split; [done | by intros ? [= <-]] |].
        split; [done |]. split; [done | by eapply extends_trans].
      * split; [exists node; split; [done | by intros ? [=]] |].
        split; [done |]. split; [done | by eapply extends_trans].
    + injection Hrun as <- <-.
      split; [exists node; split; [done | by intros ? [= <-]] |]. done.
Qed.

End CrawlerInvariant.

Section CrawlerTermination.
Import GitCrawler.
Context (w : World) (W : gset string).

Lemma for_each_entry_total (fuel : nat) (body : YamlEntry → Async ())
    (entries : list YamlEntry) (st : Crawler) :
  (∀ x st0, x ∈ entries → size (W ∖ dom (visitedUrls st0)) < fuel →
     ∃ r st', body x st0 = Some (r, st') ∧ dom (visitedUrls st0) ⊆ dom (visitedUrls st')) →
  size (W ∖ dom (visitedUrls st)) < fuel →
  ∃ r st', for_each_entry body entries st = Some (r, st') ∧
           dom (visitedUrls st) ⊆ dom (visitedUrls st').
Proof.
  revert st. induction entries as [| x xs IH]; intros st Hbody Hsize; simpl.
  - by exists (Return ()), st.
  - destruct (Hbody x st) as (r1 & st1 & -> & Hsub1); [apply elem_of_cons; by left | done |].
    destruct r1 as [[] | e]; [| by exists (Throw e), st1].
    destruct (IH st1) as (r & st' & -> & Hsub).
    + intros x' st0 Hx'. apply Hbody. apply elem_of_cons. by right.
    + pose proof (size_unvisited_mono W _ _ Hsub1). lia.
    + exists r, st'. split; [done |]. by etrans.
Qed.

Section Children.
Context (fuel : nat) (crawl : string → option NodeType → Async CrawledNode).
Context (Hcrawl : crawl_returns w W fuel crawl).
Context (parentUrl : string) (kz : ParsedYaml).
Context (Hchildren : ∀ v, child_url parentUrl kz v → loadable w v → v ∈ W).

Lemma processResource_total (x : YamlEntry) (st : Crawler) :
  x ∈ all_entries kz →
  size (W ∖ dom (visitedUrls st)) < fuel →
  ∃ r st', processResource w crawl parentUrl x st = Some (r, st') ∧
           dom (visitedUrls st) ⊆ dom (visitedUrls st').
Proof.
  intros Hx Hsize. unfold processResource.
  destruct x as [res | |]; [| by eexists _, _ | by eexists _, _].
  destruct (isYamlFile res); [by eexists _, _ |].
  destruct (resolveUrl parentUrl res) as [v | e] eqn:Hv; [| by eexists _, _].
  destruct (Hcrawl v (Some resource) st) as ([n | e] & st' & -> & Hsub); [| done | |];
    try (by eexists _, _).
  apply Hchildren. by exists res, v.
Qed.

Lemma processComponent_total (x : YamlEntry) (st : Crawler) :
  x ∈ all_entries kz →
  size (W ∖ dom (visitedUrls st)) < fuel →
  ∃ r st', processComponent w crawl parentUrl x st = Some (r, st') ∧
           dom (visitedUrls st) ⊆ dom (visitedUrls st').
Proof.
  intros Hx Hsize. unfold processComponent.
  destruct x as [comp | |]; [| by eexists _, _ | by eexists _, _].
  destruct (resolveUrl parentUrl comp) as [v | e] eqn:Hv; [| by eexists _, _].
  destruct (Hcrawl v (Some component) st) as ([n | e] & st' & -> & Hsub); [| done | |];
    try (by eexists _, _).
  apply Hchildren. by exists comp, v.
Qed.

Lemma for_each_of_total (field : string) (body : YamlEntry → Async ()) (l : YamlList)
    (st : Crawler) :
  (∀ x st0, x ∈ entries_of l → size (W ∖ dom (visitedUrls st0)) < fuel →
     ∃ r st', body x st0 = Some (r, st') ∧ dom (visitedUrls st0) ⊆ dom (visitedUrls st')) →
  size (W ∖ dom (visitedUrls st)) < fuel →
  ∃ r st', for_each_of w field body l st = Some (r, st') ∧
           dom (visitedUrls st) ⊆ dom (visitedUrls st').
Proof.
  intros Hbody Hsize. unfold for_each_of. destruct l as [entries |]; [| by eexists _, _].
  by apply (for_each_entry_total fuel).
Qed.

Lemma crawl_children_total (st : Crawler) :
  size (W ∖ dom (visitedUrls st)) < fuel →
  ∃ r st', crawl_children w crawl parentUrl kz st = Some (r, st') ∧
           dom (visitedUrls st) ⊆ dom (visitedUrls st').
Proof.
  intros Hsize. unfold crawl_children.
  pose proof processResource_total as HR. pose proof processComponent_total as HC.
  destruct kz as [| o]; [by eexists _, _ |]. simpl in HR, HC.
  destruct (for_each_of_total "resources" (processResource w crawl parentUrl)
              (y_resources o) st) as (r1 & st1 & -> & Hsub1); [| done |].
  { intros x st0 Hx. apply HR. apply elem_of_app. by left. }
  destruct r1 as [[] | e]; [| by eexists _, _].
  assert (size (W ∖ dom (visitedUrls st1)) < fuel) as Hsize1
    by (pose proof (size_unvisited_mono W _ _ Hsub1); lia).
  destruct (for_each_of_total "bases" (processResource w crawl parentUrl)
              (y_bases o) st1) as (r2 & st2 & -> & Hsub2); [| done |].
  { intros x st0 Hx. apply HR.
    apply elem_of_app. right. apply elem_of_app. by left. }
  destruct r2 as [[] | e]; [| eexists _, _; split; [done | by etrans]].
  assert (size (W ∖ dom (visitedUrls st2)) < fuel) as Hsize2
    by (pose proof (size_unvisited_mono W _ _ Hsub2); lia).
  destruct (for_each_of_total "components" (processComponent w crawl parentUrl)
              (y_components o) st2) as (r3 & st3 & -> & Hsub3); [| done |].
  { intros x st0 Hx. apply HC.
    apply elem_of_app. right. apply elem_of_app. by right. }
  eexists _, _. split; [done |]. etrans; [done |]. by etrans.
Qed.

End Children.

Context (Hclosed : closed_world w W).

(** In a closed part of the world the crawl comes back: each call that
    loads a kustomization takes one URL of [W] off the unvisited ones, and
    the cache answers for the URLs met again, so that a cycle of references
    ends where it closes. *)
Lemma crawlKustomization_returns (fuel : nat) :
  crawl_returns w W fuel (crawlKustomization fuel w).
Proof.
  induction fuel as [| fuel IH]; intros url rt st HW Hsize; [lia |].
  cbn [crawlKustomization].
  destruct (visitedUrls st !! normalizeUrl url) as [existing |] eqn:Hcache;
    [by eexists _, _ |].
  destruct (load_node w (normalizeUrl url) rt st) as [node st2] eqn:Hload.
  pose proof (load_node_spec _ _ _ _ _ _ Hload) as Hspec.
  assert (dom (visitedUrls (remember (normalizeUrl url) node st2)) =
          {[normalizeUrl url]} ∪ dom (visitedUrls st)) as Hdom.
  { simpl. rewrite (la_cache _ _ _ _ _ Hspec). apply dom_insert_L. }
  assert (dom (visitedUrls st) ⊆ dom (visitedUrls (remember (normalizeUrl url) node st2)))
    as Hsub3 by (rewrite Hdom; apply union_subseteq_r).
  destruct (no_error node) eqn:Hne; [| by eexists _, _].
  destruct (la_children _ _ _ _ _ Hspec Hne) as [Hph | [_ (k & c & content & Hc & Hf & Hy)]].
  - rewrite Hph, crawl_children_placeholder. by eexists _, _.
  - assert (normalizeUrl url ∈ W) as HinW by (apply HW; by exists k, c, content, (kustomizationContent node)).
    assert (normalizeUrl url ∉ dom (visitedUrls st)) as Hfresh
      by (by apply not_elem_of_dom).
    destruct (crawl_children_total fuel (crawlKustomization fuel w) IH (normalizeUrl url)
                (kustomizationContent node)) with (st := remember (normalizeUrl url) node st2)
      as (r4 & st4 & -> & Hsub4).
    + intros v Hv Hl.
      by apply (Hclosed (normalizeUrl url) k c content (kustomizationContent node) v).
    + rewrite Hdom. pose proof (size_unvisited_enter W _ _ HinW Hfresh). lia.
    + destruct r4 as [[] | e]; eexists _, _; (split; [done | by etrans]).
Qed.

End CrawlerTermination.

Section CrawlerTheorems.
Import GitCrawler.

Lemma crawl_inv_fresh (w : World) : crawl_inv w fresh_crawler.
Proof.
  split; simpl; try done.
  - intros n H. by apply elem_of_nil in H.
  - intros n H. by apply elem_of_nil in H.
  - apply NoDup_nil_2.
  - intros n H. by apply elem_of_nil in H.
  - intros n H. by apply elem_of_nil in H.
Qed.

Lemma crawl_inv_urls_unique (w : World) (st : Crawler) :
  crawl_inv w st → NoDup (map remoteUrl (nodeList st)).
Proof.
  intros [_ I2 _ I4 _ _ _]. apply NoDup_fmap_2_strong; [| by eapply NoDup_fmap_1].
  intros n1 n2 H1 H2 Heq.
  destruct (I2 n1 H1) as (u1 & Hu1 & Hg1). destruct (I2 n2 H2) as (u2 & Hu2 & Hg2).
  congruence.
Qed.

(** Where the files give kustomizations of the declared type, so do the
    nodes. *)
Lemma typed_world_all_typed (w : World) (st : Crawler) :
  typed_world w → crawl_inv w st → all_typed st.
Proof.
  intros Hw [_ _ _ _ _ _ I7] n Hn. specialize (I7 n Hn).
  destruct (loaded n); [| by rewrite I7].
  destruct I7 as [content Hcontent]. by eapply Hw.
Qed.


Lemma crawlFromOverlay_comes_back (w : World) (W : gset string) (fuel : nat) (url : string) :
  closed_world w W → (loadable w (normalizeUrl url) → normalizeUrl url ∈ W) →
  size W < fuel →
  ∃ r st, crawlFromOverlay fuel w url = Some (r, st).
Proof.
  intros Hclosed HW Hsize. unfold crawlFromOverlay.
  destruct (crawlKustomization_returns w W Hclosed fuel url None fresh_crawler)
    as (r & st' & -> & _); [done | |].
  - pose proof (subseteq_size (W ∖ dom (visitedUrls fresh_crawler)) W) as Hle.
    assert (W ∖ dom (visitedUrls fresh_crawler) ⊆ W) as Hsub
      by (intros x; rewrite elem_of_difference; by intros [? _]).
    specialize (Hle Hsub). lia.
  - destruct r; by eexists _, _.
Qed.

Lemma crawlFromOverlay_typed (w : World) (fuel : nat) (url : string)
    (r : outcome (list CrawledNode)) (st : Crawler) :
  typed_world w → crawlFromOverlay fuel w url = Some (r, st) → ∃ ns, r = Return ns.
Proof.
  intros Hw. unfold crawlFromOverlay.
  destruct (crawlKustomization fuel w url None fresh_crawler) as [[[n | e] st'] |] eqn:Hrun;
    [| | done]; intros [= <- <-]; [by eexists |].
  destruct (crawlKustomization_post w fuel _ _ _ _ _ Hrun (crawl_inv_fresh w))
    as (_ & [_ Hnot] & Hinv & _).
  destruct Hnot. by apply (typed_world_all_typed w).
Qed.




(** A file without content parses to [null], which is no failure of the
    parser: the node is made and stored as loaded, and the read of its
    [resources] throws a [TypeError] behind the [try].  At the root the
    crawl fails with it; below a component it fails too, and the entries
    behind the component are not visited; below a resource the exception
    ends in the [catch] of [processResource] and the crawl returns its
    nodes. *)
Example crawl_of_an_empty_file :
  match crawlFromOverlay 3 empty_file_world "https://github.com/o/r/c" with
  | Some (Throw e, st) =>
      e = {| exn_name := "TypeError";
             exn_message := "Cannot read properties of null (reading 'resources')" |} ∧
      map (λ n, (n_id n, n_path n, loaded n, kustomizationContent n)) (nodeList st)
      = [("node-0", "c", true, yaml_null)]
  | _ => False
  end ∧
  match crawlFromOverlay 3 empty_file_world "https://github.com/o/r/direct" with
  | Some (Throw e, st) =>
      exn_name e = "TypeError" ∧
      map (λ n, (n_id n, n_path n, n_type n, loaded n)) (nodeList st)
      = [("node-0", "direct", resource, true); ("node-1", "c", component, true)]
  | _ => False
  end ∧
  match crawlFromOverlay 4 empty_file_world "https://github.com/o/r/top" with
  | Some (Return ns, st) =>
      map (λ n, (n_id n, n_path n, n_type n, loaded n, n_error n)) ns
      = [("node-0", "top", resource, true, None); ("node-1", "mid", resource, true, None);
         ("node-2", "c", component, true, None)]
  | _ => False
  end.
Proof. vm_compute. done. Qed.

(** C4.  A call of [crawlKustomization] on a reference whose normalized
    locator is in the cache returns the cached node and leaves the state as
    it is: no request, no new node.  A reference that normalizes like one
    crawled before gets the node of that crawl, the node which that crawl
    has returned if it has returned.  The nodes of a finished crawl have
    different ids and different locators, each the key of its node in the
    cache.  In a closed part of the world, cyclic or not, that holds fewer
    URLs than the fuel, the crawl comes back, and it comes back with its
    list where the files give kustomizations of the declared type. *)
Theorem crawl_visits_each_locator_once (w : World) :
  (∀ fuel url rt st n,
     visitedUrls st !! normalizeUrl url = Some n →
     crawlKustomization (S fuel) w url rt st = Some (Return n, st)) ∧
  (∀ fuel fuel' url url' rt rt' st r st1 st2,
     crawl_inv w st → crawlKustomization fuel w url rt st = Some (r, st1) →
     extends st1 st2 → normalizeUrl url' = normalizeUrl url →
     ∃ n, visitedUrls st1 !! normalizeUrl url = Some n ∧
          (∀ n', r = Return n' → n' = n) ∧
          crawlKustomization (S fuel') w url' rt' st2 = Some (Return n, st2)) ∧
  (∀ fuel url ns st,
     crawlFromOverlay fuel w url = Some (Return ns, st) →
     NoDup (map n_id ns) ∧ NoDup (map remoteUrl ns) ∧
     ∀ n, n ∈ ns → ∃ u, remoteUrl n = Some u ∧ visitedUrls st !! u = Some n) ∧
  (∀ W fuel url,
     closed_world w W → (loadable w (normalizeUrl url) → normalizeUrl url ∈ W) →
     size W < fuel →
     ∃ r st, crawlFromOverlay fuel w url = Some (r, st) ∧
             (typed_world w → ∃ ns, r = Return ns)).
Proof.
  split; [| split; [| split]].
  - intros fuel url rt st n Hn. cbn [crawlKustomization]. by rewrite Hn.
  - intros fuel fuel' url url' rt rt' st r st1 st2 Hinv Hrun Hext Hsame.
    destruct (crawlKustomization_post w fuel _ _ _ _ _ Hrun Hinv)
      as ((n & Hn & Hret) & _ & _ & _).
    exists n. split; [done |]. split; [done |].
    cbn [crawlKustomization]. rewrite Hsame.
    destruct Hext as (_ & _ & _ & Hkeep). by rewrite (Hkeep _ _ Hn).
  - intros fuel url ns st. unfold crawlFromOverlay.
    destruct (crawlKustomization fuel w url None fresh_crawler) as [[[n | e] st'] |] eqn:Hrun;
      [| done | done].
    intros [= <- <-].
    destruct (crawlKustomization_post w fuel _ _ _ _ _ Hrun (crawl_inv_fresh w))
      as (_ & _ & Hinv & _).
    split; [by destruct Hinv |]. split; [by eapply crawl_inv_urls_unique |].
    by destruct Hinv.
  - intros W fuel url Hclosed HW Hsize.
    destruct (crawlFromOverlay_comes_back w W fuel url Hclosed HW Hsize) as (r & st & Hrun).
    exists r, st. split; [done |]. intros Hw. by eapply crawlFromOverlay_typed.
Qed.

(** The nodes of a finished crawl, when they are of the declared type, are
    an input of the kind that the graph builder expects: different ids,
    none of the form of a virtual id. *)
Lemma crawled_nodes_fit_builder (w : World) (fuel : nat) (url : string)
    (ns : list CrawledNode) (st : Crawler) :
  crawlFromOverlay fuel w url = Some (Return ns, st) →
  (NoDup (map n_id ns) ∧ ∀ n, n ∈ ns → ¬ virtual_id (n_id n)) ∧
  ∀ typed : list KustomizeNode,
    map as_crawled typed = ns →
    NoDup (map n_id typed) ∧ ∀ n, n ∈ typed → ¬ virtual_id (n_id n).
Proof.
  unfold crawlFromOverlay.
  destruct (crawlKustomization fuel w url None fresh_crawler) as [[[n | e] st'] |] eqn:Hrun;
    [| done | done].
  intros [= <- <-].
  destruct (crawlKustomization_post w fuel _ _ _ _ _ Hrun (crawl_inv_fresh w))
    as (_ & _ & [_ _ I3 I4 _ _ _] & _).
  assert (∀ n0, n0 ∈ nodeList st' → ¬ virtual_id (n_id n0)) as Hids.
  { intros n0 Hn0 [j Hj].
    destruct (I3 n0 Hn0) as (k & _ & [Hk | Hk]); rewrite Hk in Hj;
      rewrite !app_String in Hj; destruct Hj; discriminate. }
  split; [done |]. intros typed Htyped.
  assert (map n_id typed = map n_id (nodeList st')) as Hsame.
  { rewrite <- Htyped, map_map. done. }
  split; [by rewrite Hsame |]. intros n0 Hn0.
  apply (Hids (as_crawled n0)). rewrite <- Htyped. apply list_elem_of_fmap. by exists n0.
Qed.

Lemma sample_world_typed : typed_world sample_world.
Proof.
  intros content v. simpl. case_decide; intros [= <-]; apply well_typed_of_kustomization.
Qed.

Lemma sample_world_closed : closed_world sample_world sample_reach.
Proof.
  assert (∀ p, (∀ k c content kz,
            parseGitUrl (ensureKustomizationYaml p) = Return c →
            fetch sample_world k c = Return content →
            yaml_parse sample_world content = Return kz → False) →
          ¬ loadable sample_world p) as Hdead.
  { intros p H (k & c & content & kz & H1 & H2 & H3). by eapply H. }
  intros u k c content kz v Hu Hc Hf Hy (entry & resolved & Hentry & Hres & ->) Hload.
  unfold sample_reach in *.
  apply elem_of_union in Hu as [Hu | Hu]; apply elem_of_singleton in Hu; subst u;
    vm_compute in Hc; injection Hc as <-;
    vm_compute in Hf; injection Hf as <-;
    vm_compute in Hy; injection Hy as <-;
    simpl in Hentry;
    repeat (apply elem_of_cons in Hentry as [[= ->] | Hentry]);
    try (by apply elem_of_nil in Hentry);
    vm_compute in Hres; injection Hres as <-;
    try (apply elem_of_union; left; apply elem_of_singleton; by vm_compute);
    try (apply elem_of_union; right; apply elem_of_singleton; by vm_compute);
    exfalso; revert Hload; apply Hdead; intros k' c' content' kz' Hc' Hf' _;
    vm_compute in Hc'; injection Hc' as <-; vm_compute in Hf'; discriminate.
Qed.

(** C4 at the two kustomizations that refer to each other: the crawl ends,
    with one node for each of them and one for each broken reference. *)
Lemma crawl_visits_each_locator_once_witness :
  closed_world sample_world sample_reach ∧
  (loadable sample_world (normalizeUrl sample_root) → normalizeUrl sample_root ∈ sample_reach) ∧
  size sample_reach < 3 ∧
  ∃ ns st, crawlFromOverlay 3 sample_world sample_root = Some (Return ns, st).
Proof.
  assert (loadable sample_world (normalizeUrl sample_root) →
          normalizeUrl sample_root ∈ sample_reach) as Hroot.
  { intros _. apply elem_of_union. left. apply elem_of_singleton. by vm_compute. }
  assert (size sample_reach < 3) as Hsize.
  { unfold sample_reach. rewrite size_union, !size_singleton; [lia |].
    intros x Hx Hx'. apply elem_of_singleton in Hx, Hx'. congruence. }
  split; [exact sample_world_closed |]. split; [exact Hroot |]. split; [exact Hsize |].
  destruct (crawl_visits_each_locator_once sample_world) as (_ & _ & _ & Hback).
  destruct (Hback sample_reach 3 sample_root sample_world_closed Hroot Hsize)
    as (r & st & Hrun & Htyped).
  destruct (Htyped sample_world_typed) as [ns ->]. by exists ns, st.
Defined.

Example crawl_of_a_cycle :
  match crawlFromOverlay 3 sample_world sample_root with
  | Some (Return ns, st) =>
      map (λ n, (n_id n, n_path n, n_type n, loaded n)) ns
      = [ ("node-0", "root", resource, true);
          ("node-1", "a", resource, true);
          ("node-2-error", "missing", resource, false);
          ("node-3-error", "gone", component, false) ] ∧
      map path (requests st)
      = [ "root/kustomization.yaml"; "a/kustomization.yaml";
          "missing/kustomization.yaml"; "gone/kustomization.yaml" ]
  | _ => False
  end.
Proof. vm_compute. done. Qed.

End CrawlerTheorems.

(** ** Parsing remote URLs: [parseGitUrl] and [normalizeUrl] *)

Section UrlParsing.
Import GitCrawler.

Lemma search_Some {A} (m : string → option A) (s : string) (r : A) :
  Js.search m s = Some r → ∃ t, m t = Some r.
Proof.
  induction s as [| ch s IH]; simpl.
  - destruct (m "") eqn:E; [intros [= <-]; by exists "" | done].
  - destruct (m (String ch s)) eqn:E; [intros [= <-]; by eexists | apply IH].
Qed.

Lemma segment_slash_nonempty (s seg rest : string) :
  Js.segment_slash s = Some (seg, rest) → seg ≠ "".
Proof.
  unfold Js.segment_slash. destruct (Str.span Js.not_slash s) as [sg rs].
  destruct (Str.is_empty sg) eqn:E; [done |].
  destruct (Str.strip_prefix "/" rs); [| done]. intros [= <- _]. by apply is_empty_false.
Qed.

Lemma last_segment_nonempty (s seg rest : string) :
  last_segment s = Some (seg, rest) → seg ≠ "".
Proof.
  unfold last_segment. destruct (Str.span Js.not_slash s) as [sg rs].
  destruct (Str.is_empty sg) eqn:E; [done |]. intros [= <- _]. by apply is_empty_false.
Qed.

Lemma gitlab_host_spec (s h rest : string) :
  gitlab_host s = Some (h, rest) → Str.includes h "gitlab" = true ∧ h ≠ "".
Proof.
  unfold gitlab_host. destruct (Str.span Js.not_slash s) as [hh rs].
  destruct (Str.includes hh "gitlab") eqn:E; [| done].
  destruct (Str.strip_prefix "/" rs); [| done]. cbn [mbind option_bind]. intros [= <- _].
  split; [done |]. by intros ->.
Qed.

Lemma github_at_spec (t o r : string) (p : option string) :
  github_at t = Some (o, r, p) → o ≠ "" ∧ r ≠ "".
Proof.
  unfold github_at. destruct (scheme t) as [[sch rest] |]; [| done]. cbn [mbind option_bind].
  destruct (Str.strip_prefix "github.com/" rest) as [rest1 |]; [| done]. cbn [mbind option_bind].
  destruct (Js.segment_slash rest1) as [[o' rest2] |] eqn:Ho; [| done]. cbn [mbind option_bind].
  destruct (last_segment rest2) as [[r' rest3] |] eqn:Hr; [| done]. cbn [mbind option_bind].
  intros [= <- <- _]. split; [by eapply segment_slash_nonempty | by eapply last_segment_nonempty].
Qed.

Lemma gitlab_at_spec (t h o r : string) (p : option string) :
  gitlab_at t = Some (h, o, r, p) →
  Str.includes h "gitlab" = true ∧ h ≠ "" ∧ o ≠ "" ∧ r ≠ "".
Proof.
  unfold gitlab_at. destruct (scheme t) as [[sch rest] |]; [| done]. cbn [mbind option_bind].
  destruct (gitlab_host rest) as [[h' rest1] |] eqn:Hh; [| done]. cbn [mbind option_bind].
  destruct (Js.segment_slash rest1) as [[o' rest2] |] eqn:Ho; [| done]. cbn [mbind option_bind].
  destruct (last_segment rest2) as [[r' rest3] |] eqn:Hr; [| done]. cbn [mbind option_bind].
  intros [= <- <- <- _]. destruct (gitlab_host_spec _ _ _ Hh).
  split; [done |]. split; [done |].
  split; [by eapply segment_slash_nonempty | by eapply last_segment_nonempty].
Qed.

Lemma gitlab_tree_at_spec (t sch h o r bp : string) :
  gitlab_tree_at t = Some (sch, h, o, r, bp) →
  Str.includes h "gitlab" = true ∧ h ≠ "" ∧ o ≠ "" ∧ r ≠ "" ∧ bp ≠ "".
Proof.
  unfold gitlab_tree_at. destruct (scheme t) as [[sch' rest] |]; [| done]. cbn [mbind option_bind].
  destruct (gitlab_host rest) as [[h' rest1] |] eqn:Hh; [| done]. cbn [mbind option_bind].
  destruct (Js.segment_slash rest1) as [[o' rest2] |] eqn:Ho; [| done]. cbn [mbind option_bind].
  destruct (Js.segment_slash rest2) as [[r' rest3] |] eqn:Hr; [| done]. cbn [mbind option_bind].
  destruct (Str.strip_prefix "-/" rest3) as [rest4 |]; [| done]. cbn [mbind option_bind].
  destruct (tree_or_blob rest4) as [rest5 |]; [| done]. cbn [mbind option_bind].
  destruct (Str.strip_prefix "/" rest5) as [rest6 |]; [| done]. cbn [mbind option_bind].
  destruct (Js.dot_plus rest6) as [bp' |] eqn:Hbp; [| done]. cbn [mbind option_bind].
  intros [= <- <- <- <- <-]. destruct (gitlab_host_spec _ _ _ Hh).
  split; [done |]. split; [done |]. split; [by eapply segment_slash_nonempty |].
  split; [by eapply segment_slash_nonempty |].
  unfold Js.dot_plus in Hbp. destruct (Str.is_empty (Js.dot_star rest6)) eqn:E; [done |].
  injection Hbp as <-. by apply is_empty_false.
Qed.


Lemma truthy_Some (r : option string) (v : string) : truthy r = Some v → r = Some v ∧ v ≠ "".
Proof.
  destruct r as [x |]; simpl; [| done]. destruct (Str.is_empty x) eqn:E; [done |].
  intros [= <-]. split; [done | by apply is_empty_false].
Qed.


Lemma split_nonempty (sep : ascii) (s : string) : Str.split sep s ≠ [].
Proof.
  destruct s as [| ch s]; simpl; [done |]. case_decide; [done |].
  by destruct (Str.split sep s).
Qed.

Lemma join_cons (sep p : string) (ps : list string) :
  ps ≠ [] → Str.join sep (p :: ps) = p +:+ sep +:+ Str.join sep ps.
Proof. by destruct ps. Qed.

Lemma join_split (sep : ascii) (s : string) :
  Str.join (String sep "") (Str.split sep s) = s.
Proof.
  induction s as [| ch s IH]; [done |]. cbn [Str.split].
  pose proof (split_nonempty sep s) as Hne. case_decide as Hc.
  - subst ch. rewrite join_cons by done. by rewrite IH.
  - destruct (Str.split sep s) as [| p ps]; [done |].
    destruct ps as [| q ps].
    + simpl in *. by rewrite IH.
    + rewrite join_cons by done. rewrite join_cons in IH by done.
      rewrite app_String. by rewrite IH.
Qed.

(** The branch heuristic of [parseGitUrl] takes as many leading segments as
    there are, up to three. *)
Lemma heuristic_split_spec (bp : string) :
  let parts := Str.split "/" bp in
  let k := Nat.min 3 (length parts) in
  1 ≤ k ∧ (∀ j, 1 ≤ j ≤ 3 → j ≤ length parts → j ≤ k) ∧
  heuristic_split bp = (Str.join "/" (take k parts), Str.join "/" (drop k parts)).
Proof.
  intros parts k. pose proof (split_nonempty "/" bp) as Hne.
  pose proof (join_split "/" bp) as Hjoin. fold parts in Hne, Hjoin.
  unfold heuristic_split. fold parts. subst k.
  destruct parts as [| p1 [| p2 [| p3 rest]]]; [done | | |]; simpl length.
  - simpl. split; [lia |]. split; [lia |]. simpl in Hjoin. by rewrite Hjoin.
  - simpl. split; [lia |]. split; [lia |]. done.
  - change (Nat.min 3 (S (S (S (length rest))))) with 3.
    split; [lia |]. split; [lia |]. done.
Qed.

(** C9, amended.  For a GitLab tree or blob URL without a usable [ref] in
    its query, [parseGitUrl] takes as branch the leading segments of the
    text behind [tree/], as many as there are up to three, the candidate
    with the most segments among one, two and three, and the segments left
    as path.  [normalizeUrl], which the crawler applies to every reference
    before anything is parsed, takes the first two segments as the branch
    instead and writes them into a [ref] parameter. *)
Theorem branch_split_heuristics (url sch h o r bp : string) :
  Js.search gitlab_tree_at (fst (Js.split_query url)) = Some (sch, h, o, r, bp) →
  Js.search github_at (fst (Js.split_query url)) = None →
  (∃ qref, query_ref (snd (Js.split_query url)) = Return qref ∧ truthy qref = None) →
  let parts := Str.split "/" bp in
  let k := Nat.min 3 (length parts) in
  1 ≤ k ∧ (∀ j, 1 ≤ j ≤ 3 → j ≤ length parts → j ≤ k) ∧
  (∃ c, parseGitUrl url = Return c ∧
        ref c = Some (Str.join "/" (take k parts)) ∧
        path c = Str.join "/" (drop k parts)) ∧
  normalizeUrl url =
    (sch +:+ "://" +:+ h +:+ "/" +:+ o +:+ "/" +:+ r) +:+
    (if Str.is_empty (Str.join "/" (drop 2 parts)) then ""
     else "/" +:+ Str.join "/" (drop 2 parts)) +:+
    "?ref=" +:+ Uri.encodeURIComponent (Str.join "/" (take 2 parts)).
Proof.
  intros Htree Hgh (qref & Hq & Htr) parts k.
  destruct (heuristic_split_spec bp) as (Hk & Hmax & Hsplit).
  split; [done |]. split; [done |]. split.
  - unfold parseGitUrl. destruct (Js.split_query url) as [baseUrl queryString].
    simpl in *. rewrite Hq, Hgh, Htree, Htr, Hsplit. by eexists.
  - unfold normalizeUrl. destruct (Js.split_query url) as [baseUrl queryString].
    simpl in *. by rewrite Htree.
Qed.

(** C9 at a GitLab tree URL of four segments. *)
Lemma branch_split_heuristics_witness :
  (∃ c, parseGitUrl "https://gitlab.com/o/r/-/tree/a/b/c/d" = Return c ∧
        ref c = Some "a/b/c" ∧ path c = "d") ∧
  normalizeUrl "https://gitlab.com/o/r/-/tree/a/b/c/d" = "https://gitlab.com/o/r/c/d?ref=a%2Fb".
Proof.
  destruct (branch_split_heuristics "https://gitlab.com/o/r/-/tree/a/b/c/d"
              "https" "gitlab.com" "o" "r" "a/b/c/d" eq_refl eq_refl)
    as (_ & _ & Hparse & Hnorm).
  - by exists None.
  - split; [exact Hparse | exact Hnorm].
Defined.

(** C9 as stated fails in the crawl: for a GitLab tree URL of four segments
    the heuristic of three segments would give the branch [a/b/c] and the
    path [d]; the crawler normalizes the URL first, and requests the file
    at the branch [a/b] and under the path [c/d]. *)
Lemma crawler_split_counterexample :
  heuristic_split "a/b/c/d" = ("a/b/c", "d") ∧
  normalizeUrl "https://gitlab.com/o/r/-/tree/a/b/c/d" = "https://gitlab.com/o/r/c/d?ref=a%2Fb" ∧
  parseGitUrl (normalizeUrl "https://gitlab.com/o/r/-/tree/a/b/c/d")
  = Return {| provider := gitlab; host := "gitlab.com"; owner := "o"; repo := "r";
              ref := Some "a/b"; path := "c/d" |} ∧
  match crawlFromOverlay 1 dead_world "https://gitlab.com/o/r/-/tree/a/b/c/d" with
  | Some (Return [n], st) =>
      n_path n = "c/d" ∧
      requests st = [ {| provider := gitlab; host := "gitlab.com"; owner := "o"; repo := "r";
                         ref := Some "a/b"; path := "c/d/kustomization.yaml" |} ]
  | _ => False
  end.
Proof. vm_compute. done. Qed.

End UrlParsing.

(** ** [findLongestMatch]: which names decide the result *)

Section FindLongestMatchNames.
Import Resolver.

Lemma prefixes_same_length (p a b : string) :
  Str.starts_with p a = true → Str.starts_with p b = true →
  String.length a = String.length b → a = b.
Proof.
  revert a b. induction p as [| c p IH]; intros a b Ha Hb Hl.
  - destruct a, b; simpl in *; done.
  - destruct a as [| x a], b as [| y b]; simpl in *; try done.
    repeat case_decide; try done. subst.
    f_equal. apply IH; [done | done | lia].
Qed.

Lemma longest_by_names (bs1 bs2 : list string) (p : string) :
  (∀ b, b ≠ "" → HasPrefix p b = true → (b ∈ bs1 ↔ b ∈ bs2)) →
  fst (longest bs1 p) = fst (longest bs2 p).
Proof.
  intros Hsame.
  destruct (longest_spec bs1 p) as [_ [[E1 H1] | [N1 F1]]],
           (longest_spec bs2 p) as [_ [[E2 H2] | [N2 F2]]].
  - congruence.
  - apply longest_found_in in F2 as (Hin & Hp & _).
    exfalso. apply N2, (H1 _ (proj2 (Hsame _ N2 Hp) Hin) Hp).
  - apply longest_found_in in F1 as (Hin & Hp & _).
    exfalso. apply N1, (H2 _ (proj1 (Hsame _ N1 Hp) Hin) Hp).
  - apply longest_found_in in F1 as (Hin1 & Hp1 & Hmax1).
    apply longest_found_in in F2 as (Hin2 & Hp2 & Hmax2).
    apply (prefixes_same_length p); [done | done |].
    apply Nat.le_antisymm.
    + apply Hmax2; [by apply (Hsame _ N1 Hp1) | done].
    + apply Hmax1; [by apply (Hsame _ N2 Hp2) | done].
Qed.

(** X1.  The result of [findLongestMatch] is decided by the non-empty names
    that prefix the trimmed path: two name lists that hold the same such
    names give the same result, whatever their order, their repetitions and
    their other names. *)
Theorem findLongestMatch_decided_by_prefixing_names
    (bs1 bs2 : list string) (urlPath : string) :
  (∀ b, b ≠ "" → HasPrefix (Trim urlPath "/") b = true → (b ∈ bs1 ↔ b ∈ bs2)) →
  findLongestMatch bs1 urlPath = findLongestMatch bs2 urlPath.
Proof.
  intros Hsame. unfold findLongestMatch.
  by rewrite (longest_by_names bs1 bs2 _ Hsame).
Qed.

Lemma findLongestMatch_decided_by_prefixing_names_witness :
  findLongestMatch ["release"; "main"; ""; "release/v1"; "main"] "/release/v1/app/"
  = findLongestMatch ["release/v1"; "release"] "/release/v1/app/".
Proof.
  apply findLongestMatch_decided_by_prefixing_names.
  intros b Hne Hp. rewrite !elem_of_cons, !elem_of_nil.
  split.
  - intros [-> | [-> | [-> | [-> | [-> | []]]]]]; try done; auto.
  - intros [-> | [-> | []]]; auto.
Defined.

(** X2.  More names never lose a match: when [findLongestMatch] splits a
    path with some names, it splits it with any longer list too, at a
    branch that is at least as long, and at the same branch when no added
    name is a longer prefix of the path. *)
Theorem findLongestMatch_more_names
    (bs more : list string) (urlPath m rest : string) :
  findLongestMatch bs urlPath = Ok (m, rest) →
  ∃ m' rest',
    findLongestMatch (bs ++ more) urlPath = Ok (m', rest') ∧
    String.length m ≤ String.length m' ∧
    ((∀ b, b ∈ more → HasPrefix (Trim urlPath "/") b = true →
           String.length b ≤ String.length m) →
     m' = m ∧ rest' = rest).
Proof.
  unfold findLongestMatch. set (p := Trim urlPath "/").
  destruct (Str.is_empty (fst (longest bs p))) eqn:E; [done |].
  intros [= <- <-].
  apply is_empty_false in E.
  destruct (longest_spec bs p) as [_ [[E1 _] | [_ F1]]]; [done |].
  apply longest_found_in in F1 as (Hin1 & Hp1 & Hmax1).
  destruct (longest_spec (bs ++ more) p) as [_ [[E2 H2] | [N2 F2]]].
  - exfalso. apply E, (H2 _ (proj2 (elem_of_app _ _ _) (or_introl Hin1)) Hp1).
  - apply is_empty_false in N2. rewrite N2.
    apply longest_found_in in F2 as (Hin2 & Hp2 & Hmax2).
    eexists _, _. split; [done |].
    split; [apply Hmax2; [apply elem_of_app; by left | done] |].
    intros Hmore.
    assert (fst (longest (bs ++ more) p) = fst (longest bs p)) as ->; [| done].
    apply (prefixes_same_length p); [done | done |].
    apply Nat.le_antisymm.
    + apply elem_of_app in Hin2 as [Hin2 | Hin2]; [by apply Hmax1 | by apply Hmore].
    + apply Hmax2; [apply elem_of_app; by left | done].
Qed.

Lemma findLongestMatch_more_names_witness :
  ∃ m' rest',
    findLongestMatch (["main"] ++ ["main/v2"; "dev"]) "main/v2/app" = Ok (m', rest') ∧
    String.length "main" ≤ String.length m' ∧
    ((∀ b, b ∈ ["main/v2"; "dev"] → HasPrefix (Trim "main/v2/app" "/") b = true →
           String.length b ≤ String.length "main") →
     m' = "main" ∧ rest' = "v2/app").
Proof. apply findLongestMatch_more_names. reflexivity. Defined.

End FindLongestMatchNames.

(** ** The provider clients of resolver.go *)

Section ProviderClients.
Import Resolver Providers.

Lemma listAllBranches_pages (listPage : nat → Page) (page : nat) (names : list string) :
  pages_from listPage page names →
  ∃ fuel0, ∀ fuel acc, fuel0 ≤ fuel →
    listAllBranches fuel listPage page acc = Some (Ok (acc ++ names)).
Proof.
  induction 1 as [page names H | page next names rest H Hnext _ [fuel0 IH]].
  - exists 1. intros [| fuel] acc Hf; [lia |]. simpl. by rewrite H.
  - exists (S fuel0). intros [| fuel] acc Hf; [lia |]. simpl. rewrite H.
    destruct (Nat.eqb_spec next 0); [done |].
    rewrite IH by lia. by rewrite <- app_assoc.
Qed.

Lemma listAllBranches_fail (listPage : nat → Page) (page : nat) (e : string) :
  pages_fail listPage page e →
  ∃ fuel0, ∀ fuel acc, fuel0 ≤ fuel →
    listAllBranches fuel listPage page acc = Some (Err ("failed to list branches: " +:+ e)).
Proof.
  induction 1 as [page e H | page next names e H Hnext _ [fuel0 IH]].
  - exists 1. intros [| fuel] acc Hf; [lia |]. simpl. by rewrite H.
  - exists (S fuel0). intros [| fuel] acc Hf; [lia |]. simpl. rewrite H.
    destruct (Nat.eqb_spec next 0); [done |].
    by rewrite IH by lia.
Qed.

(** X3.  [resolveGitHubBranchAndPath] and [resolveGitLabBranchAndPath] split
    the path with the branches of all pages followed by the tags of one tag
    page; a tag listing that fails is passed over, a branch page that fails
    ends the call with its wrapped error, whatever the earlier pages
    held. *)
Theorem provider_resolution_lists_then_matches
    (gh : GitHubApi) (gl : GitLabApi) (repoInfo : RepositoryInfo) (urlPath token : string) :
  let ghPages := gh_ListBranches gh token (Owner repoInfo) (Repo repoInfo) in
  let ghTags := gh_ListTags gh token (Owner repoInfo) (Repo repoInfo) in
  let url := BaseURL repoInfo +:+ "/api/v4" in
  let projectID := Owner repoInfo +:+ "/" +:+ Repo repoInfo in
  let glPages := gl_ListBranches gl token url projectID in
  let glTags := gl_ListTags gl token url projectID in
  (∀ names, pages_from ghPages 0 names →
     ∃ fuel0, ∀ fuel, fuel0 ≤ fuel →
       resolveGitHubBranchAndPath fuel gh repoInfo urlPath token
       = Some (findLongestMatch (names ++ tags_read ghTags) urlPath)) ∧
  (∀ e, pages_fail ghPages 0 e →
     ∃ fuel0, ∀ fuel, fuel0 ≤ fuel →
       resolveGitHubBranchAndPath fuel gh repoInfo urlPath token
       = Some (Err ("failed to list branches: " +:+ e))) ∧
  (∀ names, gl_NewClient gl token url = Ok () → pages_from glPages 0 names →
     ∃ fuel0, ∀ fuel, fuel0 ≤ fuel →
       resolveGitLabBranchAndPath fuel gl repoInfo urlPath token
       = Some (findLongestMatch (names ++ tags_read glTags) urlPath)) ∧
  (∀ e, gl_NewClient gl token url = Ok () → pages_fail glPages 0 e →
     ∃ fuel0, ∀ fuel, fuel0 ≤ fuel →
       resolveGitLabBranchAndPath fuel gl repoInfo urlPath token
       = Some (Err ("failed to list branches: " +:+ e))) ∧
  (∀ e fuel, gl_NewClient gl token url = Err e →
     resolveGitLabBranchAndPath fuel gl repoInfo urlPath token
     = Some (Err ("failed to create GitLab client: " +:+ e))).
Proof.
  intros ghPages ghTags url projectID glPages glTags.
  assert (Hclient : (if negb (Str.is_empty token) then gl_NewClient gl token url
                     else gl_NewClient gl "" url) = gl_NewClient gl token url).
  { destruct (Str.is_empty token) eqn:E; [| done].
    apply is_empty_true in E. by subst token. }
  assert (Htags : ∀ tags names, appendTags tags names = names ++ tags_read tags).
  { intros [[ts ?] | ?] names; simpl; [done | by rewrite app_nil_r]. }
  split; [| split; [| split; [| split]]].
  - intros names Hp. destruct (listAllBranches_pages _ _ _ Hp) as [fuel0 H].
    exists fuel0. intros fuel Hf. unfold resolveGitHubBranchAndPath.
    fold ghPages ghTags. rewrite (H fuel [] Hf). simpl. by rewrite Htags.
  - intros e Hp. destruct (listAllBranches_fail _ _ _ Hp) as [fuel0 H].
    exists fuel0. intros fuel Hf. unfold resolveGitHubBranchAndPath.
    fold ghPages. by rewrite (H fuel [] Hf).
  - intros names Hc Hp. destruct (listAllBranches_pages _ _ _ Hp) as [fuel0 H].
    exists fuel0. intros fuel Hf. unfold resolveGitLabBranchAndPath.
    fold url projectID. rewrite Hclient, Hc. fold glPages glTags.
    rewrite (H fuel [] Hf). simpl. by rewrite Htags.
  - intros e Hc Hp. destruct (listAllBranches_fail _ _ _ Hp) as [fuel0 H].
    exists fuel0. intros fuel Hf. unfold resolveGitLabBranchAndPath.
    fold url projectID. rewrite Hclient, Hc. fold glPages.
    by rewrite (H fuel [] Hf).
  - intros e fuel Hc. unfold resolveGitLabBranchAndPath.
    fold url. by rewrite Hclient, Hc.
Qed.

Lemma provider_resolution_lists_then_matches_witness :
  (∃ fuel0, ∀ fuel, fuel0 ≤ fuel →
     resolveGitHubBranchAndPath fuel sample_github (sample_repo GitHub) "release/v1/app" ""
     = Some (Ok ("release/v1", "app"))) ∧
  (∃ fuel0, ∀ fuel, fuel0 ≤ fuel →
     resolveGitLabBranchAndPath fuel sample_gitlab (sample_repo GitLab) "main/app" ""
     = Some (Err "failed to list branches: timeout")).
Proof.
  destruct (provider_resolution_lists_then_matches sample_github sample_gitlab
              (sample_repo GitHub) "release/v1/app" "") as (Hgh & _).
  destruct (provider_resolution_lists_then_matches sample_github sample_gitlab
              (sample_repo GitLab) "main/app" "") as (_ & _ & _ & Hgl & _).
  split.
  - apply (Hgh ["main"; "develop"; "release/v1"]).
    apply (pages_next _ 0 2 ["main"; "develop"] ["release/v1"]);
      [reflexivity | discriminate | apply pages_last; reflexivity].
  - apply (Hgl "timeout"); [reflexivity |].
    apply (pages_fail_later _ 0 2 ["main"] "timeout");
      [reflexivity | discriminate | apply pages_fail_here; reflexivity].
Defined.

End ProviderClients.

(** ** Splitting and joining *)

Section SplitJoin.

Lemma free_of_nil (c : ascii) : free_of c "".
Proof. intros [| a x] y; rewrite ?app_String; done. Qed.

Lemma free_of_String (c a : ascii) (s : string) :
  free_of c (String a s) ↔ a ≠ c ∧ free_of c s.
Proof.
  split.
  - intros H. split.
    + intros ->. by apply (H "" s).
    + intros x y ->. by apply (H (String a x) y).
  - intros [Ha Hs] [| b x] y; rewrite ?app_String, ?app_empty_l.
    + intros [=]. done.
    + intros [= -> ->]. by apply (Hs x y).
Qed.

Lemma mem_free (c : ascii) (s : string) : Str.mem c s = false → free_of c s.
Proof.
  induction s as [| a s IH]; intros H; [apply free_of_nil |].
  simpl in H. case_decide; [done |].
  apply free_of_String. split; [congruence | by apply IH].
Qed.

Lemma free_of_app (c : ascii) (s t : string) :
  free_of c (s +:+ t) ↔ free_of c s ∧ free_of c t.
Proof.
  induction s as [| a s IH].
  - rewrite app_empty_l. split; [intros H; split; [apply free_of_nil | done] | by intros [_ H]].
  - rewrite app_String, !free_of_String, IH. tauto.
Qed.

Lemma free_of_span (c : ascii) (s t : string) :
  free_of c s →
  Str.span (λ x, negb (bool_decide (x = c))) (s +:+ String c t) = (s, String c t).
Proof.
  induction s as [| a s IH]; intros H.
  - rewrite app_empty_l. simpl. by rewrite bool_decide_eq_true_2.
  - apply free_of_String in H as [Ha Hs]. rewrite app_String. simpl.
    rewrite bool_decide_eq_false_2 by done. simpl. by rewrite IH.
Qed.

Lemma free_of_span_end (c : ascii) (s : string) :
  free_of c s → Str.span (λ x, negb (bool_decide (x = c))) s = (s, "").
Proof.
  induction s as [| a s IH]; intros H; [done |].
  apply free_of_String in H as [Ha Hs]. simpl.
  rewrite bool_decide_eq_false_2 by done. simpl. by rewrite IH.
Qed.

Lemma split_free (sep : ascii) (s : string) :
  free_of sep s → Str.split sep s = [s].
Proof.
  induction s as [| a s IH]; intros H; [done |].
  apply free_of_String in H as [Ha Hs]. simpl.
  rewrite decide_False by done. by rewrite IH.
Qed.

Lemma split_app (sep : ascii) (s t : string) :
  free_of sep s → Str.split sep (s +:+ String sep t) = s :: Str.split sep t.
Proof.
  induction s as [| a s IH]; intros H.
  - rewrite app_empty_l. simpl. by rewrite decide_True.
  - apply free_of_String in H as [Ha Hs]. rewrite app_String. simpl.
    rewrite decide_False by done. by rewrite IH.
Qed.

Lemma split_pieces_free (sep : ascii) (s : string) :
  Forall (free_of sep) (Str.split sep s).
Proof.
  induction s as [| a s IH]; simpl.
  - constructor; [apply free_of_nil | constructor].
  - case_decide as Ha.
    + constructor; [apply free_of_nil | done].
    + destruct (Str.split sep s) as [| piece pieces].
      * constructor; [| constructor].
        apply free_of_String. split; [done | apply free_of_nil].
      * inversion IH; subst. constructor; [| done].
        apply free_of_String. by split.
Qed.

(** Splitting is append-friendly: the pieces of [s sep t] are those of [s]
    followed by those of [t]. *)
Lemma split_sep_app (sep : ascii) (s t : string) :
  Str.split sep (s +:+ String sep t) = Str.split sep s ++ Str.split sep t.
Proof.
  induction s as [| a s IH].
  - rewrite app_empty_l. simpl. by rewrite decide_True.
  - rewrite app_String. simpl. case_decide.
    + by rewrite IH.
    + rewrite IH. destruct (Str.split sep s) as [| piece pieces] eqn:E; [| done].
      by destruct (split_nonempty sep s).
Qed.

Lemma split_join (sep : ascii) (parts : list string) :
  parts ≠ [] → Forall (free_of sep) parts →
  Str.split sep (Str.join (String sep "") parts) = parts.
Proof.
  induction parts as [| p parts IH]; intros Hne Hall; [done |].
  inversion Hall as [| ? ? Hp Hparts]; subst.
  destruct parts as [| q parts].
  - simpl. by apply split_free.
  - change (Str.join (String sep "") (p :: q :: parts))
      with (p +:+ String sep "" +:+ Str.join (String sep "") (q :: parts)).
    rewrite app_String, app_empty_l.
    rewrite split_app by done. by rewrite IH.
Qed.

End SplitJoin.

(** ** [resolvePath] and [joinPaths] side by side *)

Section PathAlgebra.
Import DependencyResolver GitCrawler.

Lemma real_segment_spec (p : string) :
  real_segment p = true ↔ p ≠ "" ∧ p ≠ ".".
Proof.
  unfold real_segment. rewrite andb_true_iff, !negb_true_iff, is_empty_false.
  by rewrite bool_decide_eq_false.
Qed.

Lemma steps_agree (relParts parts : list string) :
  fold_left resolve_step (List.filter nonempty relParts) parts
  = fold_left join_step (List.filter real_segment relParts) parts.
Proof.
  revert parts. induction relParts as [| p rel IH]; intros parts; [done |].
  simpl. unfold nonempty at 1, real_segment at 1.
  destruct (Str.is_empty p) eqn:E; simpl; [apply IH |].
  destruct (decide (p = ".")) as [-> | Hdot].
  - rewrite bool_decide_eq_true_2 by done. simpl.
    unfold resolve_step at 2. simpl. apply IH.
  - rewrite bool_decide_eq_false_2 by done. simpl.
    rewrite IH. f_equal. unfold resolve_step, join_step.
    destruct (decide (p = "..")); [done |]. by rewrite decide_False.
Qed.

Lemma resolvePath_joinPaths_eq (basePath relativePath : string) :
  basePath = "." ∨ "." ∉ Str.split "/" basePath →
  resolvePath basePath relativePath = joinPaths basePath relativePath.
Proof.
  intros Hbase. unfold resolvePath, joinPaths, resolve_parts, join_parts.
  rewrite steps_agree. do 3 f_equal.
  destruct (decide (basePath = ".")) as [-> | Hne]; [done |].
  destruct Hbase as [? | Hdot]; [done |].
  induction (Str.split "/" basePath) as [| p ps IH]; [done |].
  apply not_elem_of_cons in Hdot as [Hp Hps]. simpl.
  unfold nonempty at 1, real_segment at 1.
  rewrite (bool_decide_eq_false_2 (p = ".")) by done.
  rewrite andb_true_r. destruct (negb (Str.is_empty p)); by rewrite IH.
Qed.

(** X4.  The two path joiners agree on every base that names no [.]
    directory (the base [.] itself included): the graph builder's
    [resolvePath] and the crawler's [joinPaths] then give the same path for
    every relative reference. *)
Theorem resolvePath_agrees_with_joinPaths (basePath relativePath : string) :
  basePath = "." ∨ "." ∉ Str.split "/" basePath →
  resolvePath basePath relativePath = joinPaths basePath relativePath.
Proof. intros Hbase. by apply resolvePath_joinPaths_eq. Qed.

Lemma resolvePath_agrees_with_joinPaths_witness :
  resolvePath "overlays/prod" "../../base/./x" = joinPaths "overlays/prod" "../../base/./x".
Proof.
  apply resolvePath_agrees_with_joinPaths. right.
  intros H. vm_compute in H.
  repeat (apply elem_of_cons in H as [H | H]; [discriminate |]).
  by apply elem_of_nil in H.
Defined.

Lemma join_step_clean (parts : list string) (p : string) :
  Forall (λ x, real_segment x = true ∧ free_of "/" x) parts →
  real_segment p = true → free_of "/" p →
  Forall (λ x, real_segment x = true ∧ free_of "/" x) (join_step parts p).
Proof.
  intros Hparts Hp Hfree. unfold join_step. case_decide.
  - unfold Js.pop. clear -Hparts.
    induction Hparts as [| x l Hx Hl IH]; [constructor |].
    destruct l; [constructor |]. simpl. constructor; [done | apply IH].
  - apply Forall_app. split; [done |]. by repeat constructor.
Qed.

Lemma filter_split_clean (s : string) :
  Forall (λ x, real_segment x = true ∧ free_of "/" x)
    (List.filter real_segment (Str.split "/" s)).
Proof.
  pose proof (split_pieces_free "/" s) as H.
  induction H as [| x l Hx Hl IH]; [constructor |].
  simpl. destruct (real_segment x) eqn:E; [| done]. by constructor.
Qed.

Lemma join_parts_clean (b r : string) :
  Forall (λ x, real_segment x = true ∧ free_of "/" x) (join_parts b r).
Proof.
  unfold join_parts.
  pose proof (filter_split_clean b) as Hb. pose proof (filter_split_clean r) as Hr.
  revert Hb. generalize (List.filter real_segment (Str.split "/" b)).
  induction Hr as [| p l [Hp Hf] Hl IH]; intros parts Hparts; [done |].
  simpl. apply IH. by apply join_step_clean.
Qed.

Lemma filter_all (A : Type) (f : A → bool) (l : list A) :
  Forall (λ x, f x = true) l → List.filter f l = l.
Proof.
  induction 1 as [| x l Hx Hl IH]; [done |]. simpl. by rewrite Hx, IH.
Qed.

(** The segments of the path that [joinPaths] returns are the parts its
    loop has left. *)
Lemma joinPaths_parts (b r : string) :
  List.filter real_segment (Str.split "/" (joinPaths b r)) = join_parts b r.
Proof.
  unfold joinPaths. pose proof (join_parts_clean b r) as Hclean.
  destruct (join_parts b r) as [| p ps] eqn:E; [done |].
  unfold Js.or_else.
  destruct (Str.is_empty (Str.join "/" (p :: ps))) eqn:Hempty.
  - apply is_empty_true in Hempty.
    inversion Hclean as [| ? ? [Hp _] _]; subst.
    apply real_segment_spec in Hp as [Hp _].
    destruct p; [done |]. destruct ps; simpl in Hempty; done.
  - rewrite split_join; [| done |].
    + apply filter_all. eapply Forall_impl; [exact Hclean |]. by intros ? [? _].
    + eapply Forall_impl; [exact Hclean |]. by intros ? [_ ?].
Qed.

(** X5.  [joinPaths] composes: resolving a second relative path from the
    result of a first one is resolving the two paths, joined by a slash,
    at once. *)
Theorem joinPaths_composes (basePath rel1 rel2 : string) :
  joinPaths (joinPaths basePath rel1) rel2 = joinPaths basePath (rel1 +:+ "/" +:+ rel2).
Proof.
  unfold joinPaths at 1 3. f_equal. f_equal.
  unfold join_parts at 1. rewrite joinPaths_parts.
  unfold join_parts.
  change ("/" +:+ rel2) with (String "/" rel2).
  rewrite split_sep_app, List.filter_app, fold_left_app. done.
Qed.

End PathAlgebra.

(** ** Labels and display names of remote references *)

Section RemoteNames.
Import DependencyResolver.

Lemma search_here {A} (m : string → option A) (s : string) (r : A) :
  m s = Some r → Js.search m s = Some r.
Proof. intros H. destruct s; simpl; by rewrite H. Qed.

Lemma search_skip {A} (m : string → option A) (c : ascii) (s : string) :
  m (String c s) = None → Js.search m (String c s) = Js.search m s.
Proof. intros H. simpl. by rewrite H. Qed.

Lemma span_not_slash (s t : string) :
  free_of "/" s → Str.span Js.not_slash (s +:+ String "/" t) = (s, String "/" t).
Proof. apply (free_of_span "/"). Qed.

Lemma span_not_slash_end (s : string) :
  free_of "/" s → Str.span Js.not_slash s = (s, "").
Proof. apply (free_of_span_end "/"). Qed.

Lemma segment_slash_app (seg rest : string) :
  seg ≠ "" → free_of "/" seg →
  Js.segment_slash (seg +:+ "/" +:+ rest) = Some (seg, rest).
Proof.
  intros Hne Hfree. unfold Js.segment_slash.
  change ("/" +:+ rest) with (String "/" rest).
  rewrite span_not_slash by done.
  apply is_empty_false in Hne. by rewrite Hne.
Qed.

Lemma dot_plus_one_line (p : string) :
  p ≠ "" → one_line p → Js.dot_plus p = Some p.
Proof.
  intros Hne Hline. unfold Js.dot_plus. rewrite Hline.
  apply is_empty_false in Hne. by rewrite Hne.
Qed.

Lemma split_query_no_query (u : string) :
  free_of "?" u → Js.split_query u = (u, None).
Proof. intros H. unfold Js.split_query. by rewrite split_free. Qed.

Lemma split_query_app (u q : string) :
  free_of "?" u →
  Js.split_query (u +:+ "?" +:+ q) = (u, Some (List.hd "" (Str.split "?" q))).
Proof.
  intros H. unfold Js.split_query.
  change ("?" +:+ q) with (String "?" q). rewrite split_app by done.
  destruct (Str.split "?" q) as [| q' qs] eqn:E; [| done].
  by destruct (split_nonempty "?" q).
Qed.

Lemma split_first_prefix (sep : ascii) (s : string) :
  ∃ rest, s = List.hd "" (Str.split sep s) +:+ rest.
Proof.
  induction s as [| a s [rest IH]]; [by exists "" |].
  simpl. case_decide.
  - by exists (String a s).
  - destruct (Str.split sep s) as [| piece pieces]; simpl in *.
    + exists s. by rewrite app_String, app_empty_l.
    + exists rest. rewrite app_String. by f_equal.
Qed.

Lemma split_query_fst (u : string) :
  ∃ rest, u = fst (Js.split_query u) +:+ rest ∧ free_of "?" (fst (Js.split_query u)).
Proof.
  destruct (split_first_prefix "?" u) as [rest Hrest].
  pose proof (split_pieces_free "?" u) as Hfree.
  unfold Js.split_query.
  destruct (Str.split "?" u) as [| b [| q qs]]; simpl in *.
  - exists rest. split; [done | apply free_of_nil].
  - exists rest. split; [done | by inversion Hfree].
  - exists rest. split; [done | by inversion Hfree].
Qed.

Lemma last_app_nonempty (A : Type) (l l' : list A) (d : A) :
  l' ≠ [] → List.last (l ++ l') d = List.last l' d.
Proof.
  intros Hne. induction l as [| x l IH]; [done |].
  simpl. rewrite IH. destruct (l ++ l') eqn:E; [| done].
  apply app_eq_nil in E as [_ ->]. done.
Qed.

Lemma last_split_app (dir rest : string) :
  List.last (Str.split "/" (dir +:+ "/" +:+ rest)) "" = List.last (Str.split "/" rest) "".
Proof.
  change ("/" +:+ rest) with (String "/" rest). rewrite split_sep_app.
  apply last_app_nonempty, split_nonempty.
Qed.

Lemma last_In_or_default (A : Type) (l : list A) (d : A) :
  l ≠ [] → List.last l d ∈ l.
Proof.
  induction l as [| x l IH]; [done |]. intros _.
  destruct l as [| y l]; [apply elem_of_cons; by left |].
  apply elem_of_cons. right. by apply IH.
Qed.

(** X6.  The label that [extractLabelFromUrl] gives an edge is never empty
    and holds neither slash nor question mark; for a URL that ends in a
    last segment and a query without slash it is that segment, or the word
    [remote] when the segment is empty. *)
Theorem extractLabelFromUrl_last_segment (url : string) :
  (extractLabelFromUrl url ≠ "" ∧
   free_of "/" (extractLabelFromUrl url) ∧ free_of "?" (extractLabelFromUrl url)) ∧
  (∀ dir name q,
     free_of "/" name → free_of "?" name → free_of "/" q →
     url = dir +:+ "/" +:+ name +:+ "?" +:+ q →
     extractLabelFromUrl url = Js.or_else name "remote").
Proof.
  split.
  - unfold extractLabelFromUrl.
    set (piece := List.last (Str.split "/" url) "").
    assert (Hpiece : free_of "/" piece).
    { pose proof (split_pieces_free "/" url) as Hall.
      rewrite Forall_forall in Hall. apply Hall.
      apply last_In_or_default, split_nonempty. }
    destruct (split_query_fst piece) as (rest & Hrest & Hq).
    set (lastPart := fst (Js.split_query piece)) in *.
    unfold Js.or_else. destruct (Str.is_empty lastPart) eqn:E.
    + split; [done |]. split; by apply mem_free.
    + split; [by apply is_empty_false |]. split; [| done].
      rewrite Hrest in Hpiece. by apply free_of_app in Hpiece as [? _].
  - intros dir name q Hname Hnameq Hq ->.
    unfold extractLabelFromUrl.
    rewrite last_split_app.
    rewrite split_free.
    + simpl. by rewrite split_query_app.
    + apply free_of_app. split; [done |].
      change ("?" +:+ q) with (String "?" q).
      apply free_of_String. by split.
Qed.

Lemma extractLabelFromUrl_last_segment_witness :
  extractLabelFromUrl "https://github.com/org/repo/components/annotations?ref=cleaning"
  = Js.or_else "annotations" "remote".
Proof.
  apply (extractLabelFromUrl_last_segment _)
    with (dir := "https://github.com/org/repo/components") (q := "ref=cleaning");
    try reflexivity.
  all: by apply mem_free.
Defined.

(** X7.  [extractDisplayNameFromUrl] does not look at the query: a URL and
    the same URL with any query behind it get the same display name. *)
Theorem extractDisplayNameFromUrl_ignores_query (u q : string) :
  free_of "?" u →
  extractDisplayNameFromUrl (u +:+ "?" +:+ q) = extractDisplayNameFromUrl u.
Proof.
  intros H. unfold extractDisplayNameFromUrl.
  by rewrite split_query_app, split_query_no_query.
Qed.

Lemma extractDisplayNameFromUrl_ignores_query_witness :
  extractDisplayNameFromUrl ("https://github.com/o/r/comp" +:+ "?" +:+ "ref=v1")
  = extractDisplayNameFromUrl "https://github.com/o/r/comp".
Proof. apply extractDisplayNameFromUrl_ignores_query. by apply mem_free. Defined.

(** X8.  The display name of a GitHub URL is its path inside the
    repository: everything behind the owner and the repository segment. *)
Theorem extractDisplayNameFromUrl_github (o r p : string) :
  url_segment o → url_segment r → p ≠ "" → free_of "?" p → one_line p →
  extractDisplayNameFromUrl ("https://github.com/" +:+ o +:+ "/" +:+ r +:+ "/" +:+ p) = p.
Proof.
  intros (Ho & Hos & Hoq) (Hr & Hrs & Hrq) Hp Hpq Hline.
  unfold extractDisplayNameFromUrl.
  rewrite split_query_no_query.
  2: { repeat (apply free_of_app; split); try done; by apply mem_free. }
  simpl fst.
  remember (o +:+ "/" +:+ r +:+ "/" +:+ p) as tail eqn:Htail.
  rewrite !app_String, app_empty_l.
  do 8 (rewrite search_skip by reflexivity).
  rewrite (search_here _ _ p); [done |].
  unfold display_name_at.
  match goal with
  | |- context [Str.strip_prefix ?a ?b] => change (Str.strip_prefix a b) with (Some tail)
  end.
  subst tail.
  cbn [mbind option_bind]. rewrite segment_slash_app by done.
  cbn [mbind option_bind]. rewrite segment_slash_app by done.
  cbn [mbind option_bind]. by apply dot_plus_one_line.
Qed.

Lemma extractDisplayNameFromUrl_github_witness :
  extractDisplayNameFromUrl
    ("https://github.com/" +:+ "org" +:+ "/" +:+ "repo" +:+ "/" +:+ "components/argocd/annotations")
  = "components/argocd/annotations".
Proof.
  apply extractDisplayNameFromUrl_github.
  - split; [discriminate | split; by apply mem_free].
  - split; [discriminate | split; by apply mem_free].
  - discriminate.
  - by apply mem_free.
  - reflexivity.
Defined.

End RemoteNames.

(** ** The edges of [buildGraph] *)

Section BuilderEdges.
Import DependencyResolver.

Lemma adds_refl (st : Builder) : adds st st [].
Proof. exists []. by rewrite app_nil_r, Nat.add_0_r. Qed.

Lemma adds_trans (st1 st2 st3 : Builder) f1 f2 :
  adds st1 st2 f1 → adds st2 st3 f2 → adds st1 st3 (f1 ++ f2).
Proof.
  intros (n1 & E1 & C1 & I1 & F1) (n2 & E2 & C2 & I2 & F2).
  exists (n1 ++ n2). rewrite E2, E1, C2, C1, length_app, !map_app, I1, I2, F1, F2.
  split; [by rewrite app_assoc |]. split; [lia |]. split; [| done].
  unfold edge_ids. by rewrite C1, seq_app, map_app.
Qed.

Lemma push_edge_adds st nm source target type label :
  adds st (push_edge st nm source target type label) [(source, type, label)].
Proof.
  eexists [_]. simpl. split; [done |]. split; [lia |]. done.
Qed.

Lemma processReference_adds sourceNode reference type st :
  adds st (processReference sourceNode reference type st)
       [(n_id sourceNode, type, edge_label reference)].
Proof.
  unfold processReference, edge_label, isLocalPath.
  destruct (isRemoteUrl reference); simpl.
  - apply push_edge_adds.
  - destruct (Js.map_get _ _); apply push_edge_adds.
Qed.

Lemma loop_adds (node : KustomizeNode) (type : NodeType) (keep : string → bool)
    (f : Builder → string → Builder) (rs : list string) (st : Builder) :
  (∀ st r, f st r = if keep r then processReference node r type st else st) →
  adds st (fold_left f rs st)
       (map (λ '(r, t), (n_id node, t, edge_label r))
            (map (λ r, (r, type)) (List.filter keep rs))).
Proof.
  intros Hf. revert st. induction rs as [| r rs IH]; intros st; simpl.
  - apply adds_refl.
  - rewrite Hf. destruct (keep r); simpl.
    + exact (adds_trans _ _ _ [_] _ (processReference_adds _ _ _ _) (IH _)).
    + apply IH.
Qed.

Lemma filter_true (A : Type) (l : list A) : List.filter (λ _, true) l = l.
Proof. induction l as [| x l IH]; [done |]. simpl. by rewrite IH. Qed.

Lemma loop_adds_all (node : KustomizeNode) (type : NodeType) (rs : list string)
    (st : Builder) :
  adds st (fold_left (λ st r, processReference node r type st) rs st)
       (map (λ '(r, t), (n_id node, t, edge_label r)) (map (λ r, (r, type)) rs)).
Proof.
  rewrite <- (filter_true _ rs) at 2.
  apply (loop_adds node type (λ _, true)). done.
Qed.

Lemma buildEdgesForNode_adds (node : KustomizeNode) (st : Builder) :
  adds st (buildEdgesForNode node st)
       (map (λ '(r, t), (n_id node, t, edge_label r)) (edge_entries node)).
Proof.
  unfold buildEdgesForNode, edge_entries. rewrite !map_app.
  eapply adds_trans; [| eapply adds_trans].
  - apply (loop_adds node resource (λ r, negb (plain_yaml r))). done.
  - apply loop_adds_all.
  - apply loop_adds_all.
Qed.

Lemma build_adds (ns : list KustomizeNode) (st : Builder) :
  adds st (fold_left (λ st node, buildEdgesForNode node st) ns st) (expected_edges ns).
Proof.
  revert st. induction ns as [| n ns IH]; intros st; simpl.
  - apply adds_refl.
  - eapply adds_trans; [apply buildEdgesForNode_adds | apply IH].
Qed.

Lemma edge_ids_NoDup (c n : nat) : NoDup (edge_ids c n).
Proof.
  unfold edge_ids. apply NoDup_fmap_2.
  - intros i j H. apply (inj (String.append "edge-")) in H. by apply (inj pretty) in H.
  - apply NoDup_ListNoDup, List.seq_NoDup.
Qed.

(** X9.  [buildGraph] makes one edge for every reference entry that is not
    a skipped YAML file, in the order of the nodes and of their entries
    (resources, then bases, then components): the edge leaves the node that
    holds the entry, has the kind of the entry's list, and is labelled with
    the reference, or with the short name of a remote URL. *)
Theorem buildGraph_one_edge_per_entry (counter : nat) (ns : list KustomizeNode) :
  map edge_facts (edges (buildGraph counter ns)) = expected_edges ns.
Proof.
  destruct (build_adds ns {| edgeCounter := counter;
              nodeMap := fold_left (λ m node, Js.map_set m (n_path node) node) ns [];
              edgeList := [] |}) as (new & E & _ & _ & F).
  simpl in E. unfold buildGraph, build. simpl. by rewrite E.
Qed.

(** X10.  The ids of the edges of a graph continue the edge counter of the
    resolver: the [i]-th edge of [buildGraph] is [edge-(counter+i)], so no
    two edges of a graph share an id, and the counter has advanced by the
    number of edges. *)
Theorem buildGraph_edge_ids (counter : nat) (ns : list KustomizeNode) :
  let g := buildGraph counter ns in
  map e_id (edges g) = edge_ids counter (length (edges g)) ∧
  NoDup (map e_id (edges g)) ∧
  edgeCounter (build counter ns) = counter + length (edges g).
Proof.
  destruct (build_adds ns {| edgeCounter := counter;
              nodeMap := fold_left (λ m node, Js.map_set m (n_path node) node) ns [];
              edgeList := [] |}) as (new & E & C & I & _).
  simpl in E, C, I. unfold buildGraph, build. simpl. rewrite E.
  split; [done |]. split; [| done].
  rewrite I. apply edge_ids_NoDup.
Qed.

End BuilderEdges.

(** ** What every crawl keeps *)

Section CrawlPreserves.
Import GitCrawler.
Context (w : World) (P : Crawler → Prop).
Context (Hstep : ∀ u rt st node st',
           rt ≠ Some base → P st → visitedUrls st !! u = None →
           load_node w u rt st = (node, st') → P (remember u node st')).

Lemma for_each_entry_preserves (body : YamlEntry → Async ()) (entries : list YamlEntry)
    (st st' : Crawler) (r : outcome ()) :
  (∀ x st0 r0 st0', body x st0 = Some (r0, st0') → P st0 → P st0') →
  for_each_entry body entries st = Some (r, st') → P st → P st'.
Proof.
  intros Hbody. revert st. induction entries as [| x xs IH]; intros st; simpl.
  - by intros [= <- <-].
  - destruct (body x st) as [[[[] | e] st1] |] eqn:Hx; [| | done].
    + intros Hrest HP. eapply IH; [done |]. by eapply Hbody.
    + intros [= <- <-] HP. by eapply Hbody.
Qed.

Lemma for_each_of_preserves (field : string) (body : YamlEntry → Async ()) (l : YamlList)
    (st st' : Crawler) (r : outcome ()) :
  (∀ x st0 r0 st0', body x st0 = Some (r0, st0') → P st0 → P st0') →
  for_each_of w field body l st = Some (r, st') → P st → P st'.
Proof.
  intros Hbody. unfold for_each_of. destruct l as [entries |].
  - by apply for_each_entry_preserves.
  - by intros [= <- <-].
Qed.

Section Children.
Context (crawl : string → option NodeType → Async CrawledNode).
Context (Hcrawl : ∀ url rt st r st',
           rt ≠ Some base → crawl url rt st = Some (r, st') → P st → P st').

Lemma processResource_preserves (parentUrl : string) (x : YamlEntry) (st : Crawler)
    (r : outcome ()) (st' : Crawler) :
  processResource w crawl parentUrl x st = Some (r, st') → P st → P st'.
Proof.
  unfold processResource.
  destruct x as [res | |]; [| by intros [= <- <-] | by intros [= <- <-]].
  destruct (isYamlFile res); [by intros [= <- <-] |].
  destruct (resolveUrl parentUrl res) as [v | e]; [| by intros [= <- <-]].
  destruct (crawl v (Some resource) st) as [[[n | e] st1] |] eqn:Hc; [| | done];
    intros [= <- <-] HP; by apply (Hcrawl v (Some resource) st _ _ ltac:(done) Hc).
Qed.

Lemma processComponent_preserves (parentUrl : string) (x : YamlEntry) (st : Crawler)
    (r : outcome ()) (st' : Crawler) :
  processComponent w crawl parentUrl x st = Some (r, st') → P st → P st'.
Proof.
  unfold processComponent.
  destruct x as [comp | |]; [| by intros [= <- <-] | by intros [= <- <-]].
  destruct (resolveUrl parentUrl comp) as [v | e]; [| by intros [= <- <-]].
  destruct (crawl v (Some component) st) as [[[n | e] st1] |] eqn:Hc; [| | done];
    intros [= <- <-] HP; by apply (Hcrawl v (Some component) st _ _ ltac:(done) Hc).
Qed.

Lemma crawl_children_preserves (parentUrl : string) (kz : ParsedYaml)
    (st st' : Crawler) (r : outcome ()) :
  crawl_children w crawl parentUrl kz st = Some (r, st') → P st → P st'.
Proof.
  unfold crawl_children. intros H HP.
  destruct kz as [| o]; [by injection H as <- <- |].
  destruct (for_each_of w "resources" (processResource w crawl parentUrl) (y_resources o) st)
    as [[r1 st1] |] eqn:H1; [| done].
  pose proof (for_each_of_preserves _ _ _ _ _ _
                (processResource_preserves parentUrl) H1 HP) as HP1.
  destruct r1 as [[] | e1]; [| by injection H as <- <-].
  destruct (for_each_of w "bases" (processResource w crawl parentUrl) (y_bases o) st1)
    as [[r2 st2] |] eqn:H2; [| done].
  pose proof (for_each_of_preserves _ _ _ _ _ _
                (processResource_preserves parentUrl) H2 HP1) as HP2.
  destruct r2 as [[] | e2]; [| by injection H as <- <-].
  exact (for_each_of_preserves _ _ _ _ _ _
           (processComponent_preserves parentUrl) H HP2).
Qed.

End Children.

(** Whatever every new node keeps, every call of the crawler keeps. *)
Lemma crawlKustomization_preserves (fuel : nat) (url : string) (rt : option NodeType)
    (st : Crawler) (r : outcome CrawledNode) (st' : Crawler) :
  rt ≠ Some base → crawlKustomization fuel w url rt st = Some (r, st') → P st → P st'.
Proof.
  revert url rt st r st'.
  induction fuel as [| fuel IH]; intros url rt st r st' Hrt; [done |].
  cbn [crawlKustomization].
  destruct (visitedUrls st !! normalizeUrl url) as [existing |] eqn:Hcache.
  - by intros [= <- <-].
  - destruct (load_node w (normalizeUrl url) rt st) as [node st2] eqn:Hload.
    intros Hrun HP. pose proof (Hstep _ _ _ _ _ Hrt HP Hcache Hload) as HP3.
    destruct (no_error node).
    + destruct (crawl_children _ _ _ _ _) as [[r4 st4] |] eqn:Hch; [| done].
      pose proof (crawl_children_preserves _ IH _ _ _ _ _ Hch HP3) as HP4.
      destruct r4; by injection Hrun as <- <-.
    + by injection Hrun as <- <-.
Qed.

End CrawlPreserves.

Section CrawlShape.
Import GitCrawler.
Context (w : World).

Lemma load_node_shape (u : string) (rt : option NodeType) (st st' : Crawler)
    (node : CrawledNode) :
  rt ≠ Some base → load_node w u rt st = (node, st') →
  nodeList st' = nodeList st ∧ nodeCounter st' = S (nodeCounter st) ∧
  node_shape (nodeCounter st) node ∧
  n_type node = default resource rt ∧ remoteUrl node = Some u ∧
  ((loaded node = false ∧ requests st' = requests st) ∨
   ∃ c, requests st' = requests st ++ [c]).
Proof.
  intros Hrt.
  assert (Htype : default resource rt ≠ base) by (by destruct rt as [[] |]).
  unfold load_node, try_load, fetchFileContent, createNode, createErrorNode.
  destruct (parseGitUrl (ensureKustomizationYaml u)) as [c | e0] eqn:Hk;
    [destruct (fetch w (length (requests st)) c) as [content | e1] eqn:Hf;
      [destruct (yaml_parse w content) as [kz | e2] eqn:Hy |] |];
    destruct (parseGitUrl u) as [cu | e3] eqn:Hu; simpl; rewrite ?Hu;
    intros [= <- <-]; simpl;
    (split; [done |]); (split; [done |]);
    (split; [split; simpl; rewrite ?app_empty_r; try done; try (by split; [| eexists]);
             try (by intros _; split; [| eexists]) |]);
    (split; [done |]); (split; [done |]);
    first [ by left | by (right; eexists) ].
Qed.

Lemma crawl_shape_step (u : string) (rt : option NodeType) (st : Crawler)
    (node : CrawledNode) (st' : Crawler) :
  rt ≠ Some base → crawl_shape st → visitedUrls st !! u = None →
  load_node w u rt st = (node, st') → crawl_shape (remember u node st').
Proof.
  intros Hrt [C1 C2 C3 C4] _ Hload.
  destruct (load_node_shape _ _ _ _ _ Hrt Hload) as (Hl & Hc & Hshape & _ & _ & Hreq).
  split; simpl; rewrite ?Hl, ?Hc, ?length_app; simpl.
  - lia.
  - destruct Hreq as [[_ ->] | [c ->]]; rewrite ?length_app; simpl; lia.
  - rewrite List.filter_app, length_app. simpl.
    destruct Hreq as [[-> ->] | [c ->]]; rewrite ?length_app; simpl; [lia |].
    destruct (loaded node); simpl; lia.
  - intros i n Hi. apply lookup_app_Some in Hi as [Hi | [Hlen Hi]]; [by apply C4 |].
    apply list_lookup_singleton_Some in Hi as [Hi <-].
    replace i with (nodeCounter st) by lia. done.
Qed.

Lemma crawl_shape_fresh : crawl_shape fresh_crawler.
Proof. split; simpl; try done. Qed.

(** X11.  The nodes of a crawl are numbered as they are found: the node
    at position [i] of the result has the id [node-i], or [node-i-error]
    when it could not be loaded, and the counter of the crawler ends at
    the number of nodes. *)
Theorem crawl_ids_follow_positions (fuel : nat) (overlayUrl : string)
    (ns : list CrawledNode) (st : Crawler) :
  crawlFromOverlay fuel w overlayUrl = Some (Return ns, st) →
  nodeCounter st = length ns ∧
  ∀ i n, ns !! i = Some n →
         n_id n = "node-" +:+ pretty i +:+ (if loaded n then "" else "-error").
Proof.
  unfold crawlFromOverlay.
  destruct (crawlKustomization fuel w overlayUrl None fresh_crawler)
    as [[[root | e] st1] |] eqn:Hrun; [| done | done].
  intros [= <- <-].
  destruct (crawlKustomization_preserves w crawl_shape crawl_shape_step
              fuel overlayUrl None fresh_crawler _ _ ltac:(done) Hrun crawl_shape_fresh) as [C1 _ _ C4].
  split; [done |]. intros i n Hi. by destruct (C4 i n Hi).
Qed.

(** X12.  A crawl asks the providers for at most one file per node, and
    for one file per loaded node: the requests number no more than the
    nodes of the result and no fewer than its loaded nodes. *)
Theorem crawl_one_request_per_node (fuel : nat) (overlayUrl : string)
    (ns : list CrawledNode) (st : Crawler) :
  crawlFromOverlay fuel w overlayUrl = Some (Return ns, st) →
  length (List.filter loaded ns) ≤ length (requests st) ≤ length ns.
Proof.
  unfold crawlFromOverlay.
  destruct (crawlKustomization fuel w overlayUrl None fresh_crawler)
    as [[[root | e] st1] |] eqn:Hrun; [| done | done].
  intros [= <- <-].
  destruct (crawlKustomization_preserves w crawl_shape crawl_shape_step
              fuel overlayUrl None fresh_crawler _ _ ltac:(done) Hrun crawl_shape_fresh) as [_ C2 C3 _].
  done.
Qed.

(** X13.  Every node of a crawl is a remote node of kind resource or
    component, never base (the entries of [bases] are crawled as
    resources); a node that could not be loaded holds the placeholder
    kustomization, which has no entries, and an error message; a loaded
    node holds no message. *)
Theorem crawl_node_kinds (fuel : nat) (overlayUrl : string)
    (ns : list CrawledNode) (st : Crawler) :
  crawlFromOverlay fuel w overlayUrl = Some (Return ns, st) →
  ∀ n, n ∈ ns →
    isRemote n = true ∧ n_type n ≠ base ∧
    (loaded n = false →
     is_Some (n_error n) ∧ kustomizationContent n = placeholder ∧
     all_entries (kustomizationContent n) = []) ∧
    (loaded n = true → n_error n = None).
Proof.
  unfold crawlFromOverlay.
  destruct (crawlKustomization fuel w overlayUrl None fresh_crawler)
    as [[[root | e] st1] |] eqn:Hrun; [| done | done].
  intros [= <- <-] n Hn.
  destruct (crawlKustomization_preserves w crawl_shape crawl_shape_step
              fuel overlayUrl None fresh_crawler _ _ ltac:(done) Hrun crawl_shape_fresh) as [_ _ _ C4].
  apply list_elem_of_lookup in Hn as [i Hi].
  destruct (C4 i n Hi) as [_ [Hr _] Ht He Hl].
  split; [done |]. split; [done |]. split; [| done].
  intros Hf. destruct (He Hf) as [Hk Herr]. rewrite Hk. done.
Qed.

Lemma begins_with_step (root : CrawledNode) (u : string) (rt : option NodeType)
    (st : Crawler) (node : CrawledNode) (st' : Crawler) :
  rt ≠ Some base → begins_with root st → visitedUrls st !! u = None →
  load_node w u rt st = (node, st') → begins_with root (remember u node st').
Proof.
  intros Hrt [rest Hrest] _ Hload.
  destruct (load_node_shape _ _ _ _ _ Hrt Hload) as (Hl & _).
  exists (rest ++ [node]). simpl. by rewrite Hl, Hrest.
Qed.

(** X14.  The first node of a crawl is the node of the overlay: it is the
    node that the cache holds for the normalized overlay URL, its kind is
    resource, and its id is [node-0] or [node-0-error]. *)
Theorem crawl_root_first (fuel : nat) (overlayUrl : string)
    (ns : list CrawledNode) (st : Crawler) :
  crawlFromOverlay fuel w overlayUrl = Some (Return ns, st) →
  ∃ root rest,
    ns = root :: rest ∧
    remoteUrl root = Some (normalizeUrl overlayUrl) ∧
    visitedUrls st !! normalizeUrl overlayUrl = Some root ∧
    n_type root = resource ∧
    n_id root = (if loaded root then "node-0" else "node-0-error").
Proof.
  unfold crawlFromOverlay.
  destruct (crawlKustomization fuel w overlayUrl None fresh_crawler)
    as [[[root | e] st1] |] eqn:Hrun; [| done | done].
  intros [= <- <-].
  destruct (crawlKustomization_post w fuel _ _ _ _ _ Hrun (crawl_inv_fresh w))
    as ((node0 & Hget & Hret) & _ & _ & _).
  rewrite <- (Hret root eq_refl) in Hget. clear node0 Hret.
  destruct fuel as [| fuel]; [done |].
  cbn [crawlKustomization] in Hrun. simpl visitedUrls in Hrun at 1.
  rewrite lookup_empty in Hrun.
  destruct (load_node w (normalizeUrl overlayUrl) None fresh_crawler)
    as [node st2] eqn:Hload.
  destruct (load_node_shape (normalizeUrl overlayUrl) None _ _ _ ltac:(done) Hload)
    as (Hl & Hc & [Hid _ _ _ _] & Ht & Hu & _).
  assert (Hbegin : begins_with node (remember (normalizeUrl overlayUrl) node st2)).
  { exists []. simpl. by rewrite Hl. }
  assert (begins_with node st1 ∧ root = node) as [[rest Hrest] ->].
  { destruct (no_error node).
    - destruct (crawl_children _ _ _ _ _) as [[r4 st4] |] eqn:Hch; [| done].
      pose proof (crawl_children_preserves w (begins_with node) _
                    (crawlKustomization_preserves w (begins_with node)
                       (begins_with_step node) fuel) _ _ _ _ _ Hch Hbegin) as H4.
      destruct r4; [| done]. by injection Hrun as <- <-.
    - by injection Hrun as <- <-. }
  exists node, rest. split; [done |]. split; [done |]. split; [done |].
  split; [done |]. rewrite Hid. simpl. by destruct (loaded node).
Qed.

End CrawlShape.

Section CrawlShapeSample.
Import GitCrawler.

Lemma crawl_ids_follow_positions_witness :
  ∃ ns st,
    crawlFromOverlay 3 sample_world sample_root = Some (Return ns, st) ∧
    nodeCounter st = length ns ∧
    ∀ i n, ns !! i = Some n →
           n_id n = "node-" +:+ pretty i +:+ (if loaded n then "" else "-error").
Proof.
  destruct (crawlFromOverlay 3 sample_world sample_root) as [[[ns | e] st] |] eqn:E;
    [| by vm_compute in E | by vm_compute in E].
  exists ns, st. split; [done |].
  exact (crawl_ids_follow_positions sample_world 3 sample_root ns st E).
Defined.

Lemma crawl_one_request_per_node_witness :
  ∃ ns st,
    crawlFromOverlay 3 sample_world sample_root = Some (Return ns, st) ∧
    length (List.filter loaded ns) ≤ length (requests st) ≤ length ns.
Proof.
  destruct (crawlFromOverlay 3 sample_world sample_root) as [[[ns | e] st] |] eqn:E;
    [| by vm_compute in E | by vm_compute in E].
  exists ns, st. split; [done |].
  exact (crawl_one_request_per_node sample_world 3 sample_root ns st E).
Defined.

Lemma crawl_node_kinds_witness :
  ∃ ns st,
    crawlFromOverlay 3 sample_world sample_root = Some (Return ns, st) ∧
    ∀ n, n ∈ ns →
      isRemote n = true ∧ n_type n ≠ base ∧
      (loaded n = false →
       is_Some (n_error n) ∧ kustomizationContent n = placeholder ∧
       all_entries (kustomizationContent n) = []) ∧
      (loaded n = true → n_error n = None).
Proof.
  destruct (crawlFromOverlay 3 sample_world sample_root) as [[[ns | e] st] |] eqn:E;
    [| by vm_compute in E | by vm_compute in E].
  exists ns, st. split; [done |].
  exact (crawl_node_kinds sample_world 3 sample_root ns st E).
Defined.

Lemma crawl_root_first_witness :
  ∃ ns st,
    crawlFromOverlay 3 sample_world sample_root = Some (Return ns, st) ∧
    ∃ root rest,
      ns = root :: rest ∧
      remoteUrl root = Some (normalizeUrl sample_root) ∧
      visitedUrls st !! normalizeUrl sample_root = Some root ∧
      n_type root = resource ∧
      n_id root = (if loaded root then "node-0" else "node-0-error").
Proof.
  destruct (crawlFromOverlay 3 sample_world sample_root) as [[[ns | e] st] |] eqn:E;
    [| by vm_compute in E | by vm_compute in E].
  exists ns, st. split; [done |].
  exact (crawl_root_first sample_world 3 sample_root ns st E).
Defined.

End CrawlShapeSample.

(** ** [detectCycles] misses no cycle *)

Section CyclesComplete.
Import DependencyResolver.
Context (es : list DependencyEdge).

Lemma for_each_cycles_prefix {B} (body : Dfs → B → option Dfs) (l : list B) (st st' : Dfs) :
  (∀ st x st', body st x = Some st' → ∃ more, cycles st' = cycles st ++ more) →
  Js.for_each body l st = Some st' → ∃ more, cycles st' = cycles st ++ more.
Proof.
  intros Hbody. revert st. induction l as [| x l IH]; intros st; simpl.
  - intros [= ->]. exists []. by rewrite app_nil_r.
  - destruct (body st x) as [st1 |] eqn:Hx; [| done]. intros Hrest.
    destruct (Hbody _ _ _ Hx) as [m1 H1]. destruct (IH _ Hrest) as [m2 H2].
    exists (m1 ++ m2). by rewrite H2, H1, app_assoc.
Qed.

Lemma dfs_cycles_prefix (fuel : nat) (n : string) (path : list string) (st st' : Dfs) :
  dfs fuel es n path st = Some st' → ∃ more, cycles st' = cycles st ++ more.
Proof.
  revert n path st st'. induction fuel as [| fuel IH]; intros n path st st'; [done |].
  cbn [dfs].
  destruct (Js.for_each _ (outEdges es n) (enter n st)) as [st2 |] eqn:Hfor; [| done].
  simpl. intros [= <-]. simpl.
  apply for_each_cycles_prefix in Hfor; [done |].
  intros st0 e st0'. case_bool_decide; [apply IH |].
  case_bool_decide; intros [= <-]; simpl; [by eexists | exists []; by rewrite app_nil_r].
Qed.

Lemma cycles_prefix_nil (st st' : Dfs) :
  (∃ more, cycles st' = cycles st ++ more) → cycles st' = [] → cycles st = [].
Proof. intros [more ->] H. by apply app_eq_nil in H as [? _]. Qed.

Lemma ranked_enter (n : string) (st : Dfs) :
  n ∉ visited st → ranked es st → ranked es (enter n st).
Proof.
  intros Hn [rank Hrank]. exists rank. intros e He [Hv Hs]. simpl in *.
  apply not_elem_of_union in Hs as [Hne Hs].
  apply elem_of_union in Hv as [Hv | Hv]; [done |].
  destruct (Hrank e He (conj Hv Hs)) as [[Hv' Hs'] Hlt].
  split; [| done]. split; simpl.
  - apply elem_of_union. by right.
  - apply not_elem_of_union. split; [| done].
    intros Heq. apply elem_of_singleton in Heq. congruence.
Qed.

Lemma ranked_leave (n : string) (st : Dfs) :
  n ∈ recStack st → ranked es st →
  (∀ e, e ∈ outEdges es n → finished st (e_target e)) →
  ranked es (leave n st).
Proof.
  intros Hn [rank Hrank] Hout.
  set (top := S (list_max (map (λ e, rank (e_target e)) (outEdges es n)))).
  exists (λ x, if decide (x = n) then top else rank x).
  assert (Hkeep : ∀ x, finished st x → finished (leave n st) x ∧ x ≠ n).
  { intros x [Hv Hs]. split; [| by intros ->]. split; simpl; [done |].
    rewrite elem_of_difference. by intros [? _]. }
  intros e He [Hv Hs]. simpl in Hv, Hs.
  destruct (decide (e_source e = n)) as [Hsrc | Hsrc].
  - assert (e ∈ outEdges es n) as Hin.
    { unfold outEdges. apply list_elem_of_In, filter_In. split; [by apply list_elem_of_In |].
      by apply bool_decide_eq_true. }
    destruct (Hkeep _ (Hout e Hin)) as [Hfin Hne]. split; [done |].
    rewrite decide_False by done.
    assert (rank (e_target e) ≤ list_max (map (λ e, rank (e_target e)) (outEdges es n))).
    { pose proof (proj1 (List.list_max_le _ _) (Nat.le_refl
        (list_max (map (λ e, rank (e_target e)) (outEdges es n))))) as Hall.
      rewrite List.Forall_forall in Hall. apply Hall.
      apply in_map_iff. exists e. split; [done | by apply list_elem_of_In]. }
    unfold top. lia.
  - assert (finished st (e_source e)) as Hfin.
    { split; [done |]. intros Hin. apply Hs. apply elem_of_difference. split; [done |].
      intros Heq. by apply elem_of_singleton in Heq. }
    destruct (Hrank e He Hfin) as [Hfin' Hlt].
    destruct (Hkeep _ Hfin') as [Hfin'' Hne]. split; [done |].
    by rewrite !decide_False.
Qed.

(** A call of [dfs] that ends without a cycle on record leaves its node
    finished and the finished nodes sorted. *)
Lemma dfs_complete (fuel : nat) (n : string) (path : list string) (st st' : Dfs) :
  dfs fuel es n path st = Some st' →
  dfs_inv es path st → n ∉ visited st → walk es (path ++ [n]) →
  cycles st' = [] → ranked es st →
  ranked es st' ∧ finished st' n ∧ (∀ x, finished st x → finished st' x).
Proof.
  revert n path st st'. induction fuel as [| fuel IH]; intros n path st st'; [done |].
  cbn [dfs]. intros Hdfs Hinv Hn Hw Hnil Hranked.
  set (body := λ st edge,
        if bool_decide (e_target edge ∉ visited st)
        then dfs fuel es (e_target edge) (path ++ [n]) st
        else if bool_decide (e_target edge ∈ recStack st)
             then Some (report (path ++ [n]) (e_target edge) st)
             else Some st) in *.
  assert (Hbody : ∀ st x st', body st x = Some st' → ∃ more, cycles st' = cycles st ++ more).
  { intros st0 e st0'. unfold body. case_bool_decide; [apply dfs_cycles_prefix |].
    case_bool_decide; intros [= <-]; simpl; [by eexists | exists []; by rewrite app_nil_r]. }
  assert (∀ l st1 st2,
    (∀ e, e ∈ l → has_edge es n (e_target e)) →
    Js.for_each body l st1 = Some st2 →
    dfs_inv es (path ++ [n]) st1 → cycles st2 = [] → ranked es st1 →
    ranked es st2 ∧ dfs_inv es (path ++ [n]) st2 ∧
    (∀ x, finished st1 x → finished st2 x) ∧
    (∀ e, e ∈ l → finished st2 (e_target e))) as Hloop.
  { induction l as [| e l IHl]; intros st1 st2 Hl; simpl.
    - intros [= ->] ? ? ?. split; [done |]. split; [done |]. split; [done |].
      intros e He. by apply elem_of_nil in He.
    - assert (has_edge es n (e_target e)) as He by (apply Hl, elem_of_cons; by left).
      assert (∀ e', e' ∈ l → has_edge es n (e_target e')) as Hl'
        by (intros e' He'; apply Hl, elem_of_cons; by right).
      destruct (body st1 e) as [st1' |] eqn:Hcall; [| done].
      intros Hrest Hinv1 Hnil2 Hr1.
      pose proof (cycles_prefix_nil _ _ (for_each_cycles_prefix _ _ _ _ Hbody Hrest) Hnil2)
        as Hnil1.
      assert (ranked es st1' ∧ dfs_inv es (path ++ [n]) st1' ∧
              (∀ x, finished st1 x → finished st1' x) ∧ finished st1' (e_target e))
        as (Hr1' & Hinv1' & Hkeep1 & Hfin1).
      { unfold body in Hcall. case_bool_decide as Hvis.
        - destruct (dfs_sound es _ _ _ _ _ Hcall Hinv1 Hvis) as (Hinv1' & _ & _);
            [by apply walk_snoc |].
          destruct (IH _ _ _ _ Hcall Hinv1 Hvis) as (? & ? & ?);
            [by apply walk_snoc | done | done |]. done.
        - case_bool_decide as Hstack; injection Hcall as <-.
          + simpl in Hnil1. by apply app_eq_nil in Hnil1 as [_ ?].
          + split; [done |]. split; [done |]. split; [done |].
            by split. }
      destruct (IHl _ _ Hl' Hrest Hinv1' Hnil2 Hr1') as (Hr2 & Hinv2 & Hkeep2 & Hfin2).
      split; [done |]. split; [done |]. split.
      + intros x Hx. by apply Hkeep2, Hkeep1.
      + intros e' He'. apply elem_of_cons in He' as [-> | He']; [by apply Hkeep2 | by apply Hfin2]. }
  destruct (Js.for_each body (outEdges es n) (enter n st)) as [st2 |] eqn:Hfor; [| done].
  simpl in Hdfs. injection Hdfs as <-.
  assert (n ∉ path) as Hnp.
  { intros Hin. apply Hn. destruct Hinv as [H1 H2 _ _ _]. by apply H2, H1. }
  destruct (Hloop _ _ _ (outEdges_elem es n) Hfor (dfs_inv_enter es _ _ _ Hinv Hw Hnp)
              Hnil (ranked_enter _ _ Hn Hranked)) as (Hr2 & Hinv2 & Hkeep & Hfin).
  assert (n ∈ recStack st2) as Hstack.
  { destruct Hinv2 as [H1 _ _ _ _]. apply H1, elem_of_app. right. by apply list_elem_of_singleton. }
  split; [by apply ranked_leave |]. split.
  - split; simpl.
    + destruct Hinv2 as [_ H2 _ _ _]. by apply H2.
    + rewrite elem_of_difference, elem_of_singleton. by intros [_ ?].
  - intros x [Hv Hs].
    assert (finished (enter n st) x) as Hx.
    { split; simpl; [apply elem_of_union; by right |].
      apply not_elem_of_union. split; [| done].
      intros Heq. apply elem_of_singleton in Heq. congruence. }
    destruct (Hkeep _ Hx) as [Hv2 Hs2]. split; simpl; [done |].
    rewrite elem_of_difference. by intros [? _].
Qed.

Lemma dfs_all_complete (fuel : nat) (ids : list string) (st st' : Dfs) :
  dfs_all fuel es ids st = Some st' → dfs_inv es [] st → cycles st' = [] →
  ranked es st →
  ranked es st' ∧ (∀ x, finished st x → finished st' x) ∧
  (∀ i, i ∈ ids → finished st' i).
Proof.
  unfold dfs_all.
  set (body := λ st nodeId,
        if bool_decide (nodeId ∉ visited st) then dfs fuel es nodeId [] st else Some st).
  revert st. induction ids as [| i ids IH]; intros st; cbn [Js.for_each].
  - intros [= ->] ? ? ?. split; [done |]. split; [done |].
    intros i Hi. by apply elem_of_nil in Hi.
  - destruct (body st i) as [st1 |] eqn:Hcall; [| done].
    intros Hrest Hinv Hnil Hr.
    assert (Hbody : ∀ st x st', body st x = Some st' → ∃ more, cycles st' = cycles st ++ more).
    { intros st0 x st0'. unfold body. case_bool_decide; [apply dfs_cycles_prefix |].
      intros [= <-]. exists []. by rewrite app_nil_r. }
    pose proof (cycles_prefix_nil _ _ (for_each_cycles_prefix _ _ _ _ Hbody Hrest) Hnil)
      as Hnil1.
    assert (ranked es st1 ∧ dfs_inv es [] st1 ∧
            (∀ x, finished st x → finished st1 x) ∧ finished st1 i)
      as (Hr1 & Hinv1 & Hkeep1 & Hfin1).
    { unfold body in Hcall. case_bool_decide as Hvis.
      - destruct (dfs_sound es _ _ _ _ _ Hcall Hinv Hvis) as (Hinv1 & _ & _); [done |].
        destruct (dfs_complete _ _ _ _ _ Hcall Hinv Hvis) as (? & ? & ?); done.
      - injection Hcall as <-. split; [done |]. split; [done |]. split; [done |].
        split; [done |].
        destruct Hinv as [H1 _ _ _ _]. intros Hin. apply H1 in Hin.
        by apply elem_of_nil in Hin. }
    destruct (IH _ Hrest Hinv1 Hnil Hr1) as (Hr2 & Hkeep2 & Hfin2).
    split; [done |]. split.
    + intros x Hx. by apply Hkeep2, Hkeep1.
    + intros i' Hi'. apply elem_of_cons in Hi' as [-> | Hi']; [by apply Hkeep2 | by apply Hfin2].
Qed.

Lemma ranked_start : ranked es dfs_start.
Proof.
  exists (λ _, 0). intros e _ [Hv _]. simpl in Hv. by apply not_elem_of_empty in Hv.
Qed.

Lemma walk_app_r (l1 l2 : list string) : walk es (l1 ++ l2) → walk es l2.
Proof.
  intros H. rewrite <- (drop_app_length l1 l2). by apply walk_drop.
Qed.

(** Along a walk that leaves a finished node every node is finished and
    ranks below the first. *)
Lemma walk_finished (st : Dfs) (rank : string → nat) (a : string) (l : list string) :
  (∀ e, e ∈ es → finished st (e_source e) →
        finished st (e_target e) ∧ rank (e_target e) < rank (e_source e)) →
  walk es (a :: l) → finished st a →
  ∀ b, b ∈ l → finished st b ∧ rank b < rank a.
Proof.
  intros Hrank. revert a. induction l as [| y l IH]; intros a Hw Ha b Hb.
  - by apply elem_of_nil in Hb.
  - destruct Hw as [(e & He & Hsrc & Htgt) Hw]. subst a y.
    destruct (Hrank e He Ha) as [Hy Hlt].
    apply elem_of_cons in Hb as [-> | Hb]; [done |].
    destruct (IH _ Hw Hy b Hb) as [? ?]. split; [done | lia].
Qed.

Lemma no_finished_cycle (st : Dfs) (c : list string) (y : string) :
  ranked es st → closed_walk es c → y ∈ c → ¬ finished st y.
Proof.
  intros [rank Hrank] (x & mid & -> & _ & Hw) Hy Hfin.
  assert (finished st x) as Hx.
  { apply elem_of_cons in Hy as [-> | Hy]; [done |].
    apply elem_of_app in Hy as [Hy | Hy]; [| by apply list_elem_of_singleton in Hy as ->].
    apply list_elem_of_split in Hy as (m1 & m2 & ->).
    replace (x :: (m1 ++ y :: m2) ++ [x]) with ((x :: m1) ++ y :: (m2 ++ [x])) in Hw
      by (simpl; by rewrite <- app_assoc).
    apply walk_app_r in Hw.
    apply (walk_finished st rank y (m2 ++ [x]) Hrank Hw Hfin).
    apply elem_of_app. right. by apply list_elem_of_singleton. }
  destruct (walk_finished st rank x (mid ++ [x]) Hrank Hw Hx x) as [_ Hlt]; [| lia].
  apply elem_of_app. right. by apply list_elem_of_singleton.
Qed.

End CyclesComplete.

(** X15.  [detectCycles] is complete: when it reports no cycle, no node of
    the graph lies on a cycle, and a graph whose edges all leave nodes of
    the index has no cycle at all. *)
Theorem detectCycles_misses_no_cycle (g : KustomizeGraph) :
  DependencyResolver.detectCycles g = Some [] →
  (∀ c n, closed_walk (edges g) c → n ∈ Js.map_values (nodes g) → n_id n ∉ c) ∧
  ((∀ e, e ∈ edges g → ∃ n, n ∈ Js.map_values (nodes g) ∧ n_id n = e_source e) →
   acyclic (edges g)).
Proof.
  unfold DependencyResolver.detectCycles.
  destruct (DependencyResolver.dfs_all _ _ _ _) as [st |] eqn:Hall; [| done].
  simpl. intros [= Hnil].
  destruct (dfs_all_complete _ _ _ _ _ Hall (dfs_inv_start (edges g)) Hnil
              (ranked_start (edges g))) as (Hranked & _ & Hfin).
  assert (Hnode : ∀ c n, closed_walk (edges g) c → n ∈ Js.map_values (nodes g) → n_id n ∉ c).
  { intros c n Hc Hn Hin. apply (no_finished_cycle (edges g) st c (n_id n)); try done.
    apply Hfin, list_elem_of_fmap. by exists n. }
  split; [done |].
  intros Hsrc c Hc. pose proof Hc as (x & mid & -> & _ & Hw).
  assert (∃ e, e ∈ edges g ∧ e_source e = x) as (e & He & Hx).
  { destruct mid as [| y mid]; simpl in Hw; destruct Hw as [(e & He & Hs & _) _]; by exists e. }
  destruct (Hsrc e He) as (n & Hn & Hid).
  apply (Hnode _ n Hc Hn). rewrite Hid, Hx. apply elem_of_cons. by left.
Qed.

Lemma detectCycles_misses_no_cycle_witness :
  (∀ c n, closed_walk (edges sample_chain) c →
          n ∈ Js.map_values (nodes sample_chain) → n_id n ∉ c) ∧
  ((∀ e, e ∈ edges sample_chain →
         ∃ n, n ∈ Js.map_values (nodes sample_chain) ∧ n_id n = e_source e) →
   acyclic (edges sample_chain)).
Proof. apply detectCycles_misses_no_cycle. reflexivity. Defined.

(** ** [encodeURIComponent] and [decodeURIComponent] *)

Section UriRoundTrip.
Import Uri.

Lemma hex_value_digit (d : nat) : d < 16 → hex_value (hex_digit d) = Some d.
Proof. do 16 (destruct d as [| d]; [reflexivity |]). lia. Qed.

Lemma escape_encoded (n : nat) (rest : string) :
  n < 256 →
  escape (String "%" (String (hex_digit (n / 16)) (String (hex_digit (n mod 16)) rest)))
  = Some (n, rest).
Proof.
  intros Hn. unfold escape.
  rewrite !hex_value_digit.
  - do 2 f_equal. symmetry. apply Nat.div_mod_eq.
  - apply Nat.mod_upper_bound. lia.
  - apply Nat.Div0.div_lt_upper_bound. lia.
Qed.

Lemma unreserved_ascii (c : ascii) :
  unreserved c = true → nat_of_ascii c < 128 ∧ c ≠ "%"%char.
Proof.
  unfold unreserved, between. intros H.
  repeat (apply orb_true_iff in H as [H | H]).
  - apply andb_true_iff in H as [H1 H2]. apply Nat.leb_le in H1, H2.
    split; [lia | intros ->; vm_compute in H1, H2; lia].
  - apply andb_true_iff in H as [H1 H2]. apply Nat.leb_le in H1, H2.
    split; [lia | intros ->; vm_compute in H1, H2; lia].
  - apply andb_true_iff in H as [H1 H2]. apply Nat.leb_le in H1, H2.
    split; [lia | intros ->; vm_compute in H1, H2; lia].
  - simpl in H. repeat case_decide; try done; subst c; split; try discriminate;
      vm_compute; lia.
Qed.

Lemma encode_escape (c : ascii) (s : string) :
  unreserved c = false →
  encodeURIComponent (String c s)
  = String "%" (String (hex_digit (nat_of_ascii c / 16))
      (String (hex_digit (nat_of_ascii c mod 16)) (encodeURIComponent s))).
Proof. intros H. simpl. by rewrite H. Qed.

Lemma high_not_unreserved (c : ascii) : 128 ≤ nat_of_ascii c → unreserved c = false.
Proof.
  intros H. destruct (unreserved c) eqn:E; [| done].
  apply unreserved_ascii in E as [? _]. lia.
Qed.

Lemma tail_continuation (k lo hi : nat) (s rest : string) :
  128 ≤ lo → utf8_tail k lo hi s = Some rest →
  ∃ bytes, continuation k lo hi (encodeURIComponent s) = Some (bytes, encodeURIComponent rest) ∧
           s = bytes +:+ rest ∧
           String.length (encodeURIComponent rest) ≤ String.length (encodeURIComponent s).
Proof.
  revert lo hi s. induction k as [| k IH]; intros lo hi s Hlo; simpl.
  - intros [= ->]. by exists "".
  - destruct s as [| c s]; [done |].
    destruct (between lo hi (nat_of_ascii c)) eqn:Hb; [| done].
    intros Htail. destruct (IH 128 191 s (Nat.le_refl _) Htail) as (bytes & Hc & Hs & Hlen).
    assert (128 ≤ nat_of_ascii c) as Hhigh.
    { unfold between in Hb. apply andb_true_iff in Hb as [Hb _]. apply Nat.leb_le in Hb. lia. }
    rewrite (encode_escape c s (high_not_unreserved c Hhigh)).
    rewrite escape_encoded by apply nat_ascii_bounded.
    cbn [mbind option_bind]. rewrite Hb, Hc. cbn [mbind option_bind].
    exists (String c bytes). rewrite ascii_nat_embedding.
    split; [done |]. split; [by rewrite app_String, <- Hs |].
    simpl. lia.
Qed.

Lemma utf8_lead_high (b k lo hi : nat) : utf8_lead b = Some (k, lo, hi) → 128 ≤ lo.
Proof.
  unfold utf8_lead.
  repeat (match goal with |- context [if ?x then _ else _] => destruct x end);
    intros [= <- <- <-]; lia.
Qed.

Lemma decode_encode (fuel : nat) (s : string) (f : nat) :
  utf8_go fuel s = true → String.length (encodeURIComponent s) < f →
  decode_go f (encodeURIComponent s) = Some s.
Proof.
  revert s f. induction fuel as [| fuel IH]; intros s f; [done |].
  destruct f as [| f]; [lia |].
  destruct s as [| c s]; [done |].
  cbn [utf8_go]. destruct (Nat.ltb (nat_of_ascii c) 128) eqn:Hlow.
  - intros Hs. destruct (unreserved c) eqn:Hu.
    + simpl. rewrite Hu. simpl. intros Hlen.
      rewrite decide_False by (by apply unreserved_ascii).
      rewrite IH by (done || lia). done.
    + rewrite (encode_escape c s Hu). intros Hlen. simpl in Hlen.
      cbn [decode_go]. rewrite decide_True by done.
      rewrite escape_encoded by apply nat_ascii_bounded.
      cbn [mbind option_bind]. rewrite Hlow.
      rewrite IH by (done || lia). simpl. by rewrite ascii_nat_embedding.
  - destruct (utf8_lead (nat_of_ascii c)) as [[[k lo] hi] |] eqn:Hlead; [| done].
    destruct (utf8_tail k lo hi s) as [rest |] eqn:Htail; [| done].
    intros Hrest. apply Nat.ltb_ge in Hlow.
    rewrite (encode_escape c s (high_not_unreserved c Hlow)). intros Hlen. simpl in Hlen.
    destruct (tail_continuation k lo hi s rest (utf8_lead_high _ _ _ _ Hlead) Htail)
      as (bytes & Hcont & Hs & Hle).
    cbn [decode_go]. rewrite decide_True by done.
    rewrite escape_encoded by apply nat_ascii_bounded.
    cbn [mbind option_bind].
    apply Nat.ltb_ge in Hlow. rewrite Hlow, Hlead. cbn [mbind option_bind].
    rewrite Hcont. cbn [mbind option_bind].
    rewrite IH by (done || lia). cbn [mbind option_bind].
    by rewrite ascii_nat_embedding, app_String, <- Hs.
Qed.

Lemma decodeURIComponent_encodeURIComponent (v : string) :
  utf8 v = true → decodeURIComponent (encodeURIComponent v) = Return v.
Proof.
  intros H. unfold decodeURIComponent.
  by rewrite (decode_encode _ _ _ H (Nat.lt_succ_diag_r _)).
Qed.

(** The characters of an encoded component are unreserved ones and the
    percent sign. *)
Lemma encoded_free (c : ascii) (v : string) :
  unreserved c = false → c ≠ "%"%char → free_of c (encodeURIComponent v).
Proof.
  intros Hc Hp. induction v as [| a v IH]; [apply free_of_nil |].
  destruct (unreserved a) eqn:Ha.
  - cbn [encodeURIComponent]. rewrite Ha.
    apply free_of_String. split; [congruence | done].
  - rewrite (encode_escape a v Ha).
    assert (∀ d, d < 16 → hex_digit d ≠ c) as Hhex.
    { intros d Hd <-. revert Hc.
      do 16 (destruct d as [| d]; [by vm_compute |]). lia. }
    repeat (apply free_of_String; split); try done.
    + apply Hhex, Nat.Div0.div_lt_upper_bound. pose proof (nat_ascii_bounded a). lia.
    + apply Hhex, Nat.mod_upper_bound. lia.
Qed.

Lemma encoded_nonempty (v : string) : v ≠ "" → encodeURIComponent v ≠ "".
Proof. destruct v as [| a v]; [done |]. intros _. simpl. by destruct (unreserved a). Qed.

End UriRoundTrip.

(** ** Suffixes *)

Section Suffixes.

Lemma rev_app_acc (s acc : string) : String.rev_app s acc = String.rev s +:+ acc.
Proof.
  unfold String.rev. revert acc. induction s as [| a s IH]; intros acc; [done |].
  simpl. rewrite IH, (IH (String a "")). by rewrite app_assoc_str.
Qed.

Lemma rev_String (a : ascii) (s : string) :
  String.rev (String a s) = String.rev s +:+ String a "".
Proof. unfold String.rev at 1. simpl. apply rev_app_acc. Qed.

Lemma rev_app (s t : string) : String.rev (s +:+ t) = String.rev t +:+ String.rev s.
Proof.
  induction s as [| a s IH]; [by rewrite app_empty_l, app_empty_r |].
  by rewrite app_String, !rev_String, IH, app_assoc_str.
Qed.

Lemma rev_involutive (s : string) : String.rev (String.rev s) = s.
Proof.
  induction s as [| a s IH]; [done |].
  by rewrite rev_String, rev_app, IH.
Qed.

Lemma ends_with_app (s p : string) :
  Str.ends_with s p = true ↔ ∃ x, s = x +:+ p.
Proof.
  unfold Str.ends_with. rewrite starts_with_app. split.
  - intros [y Hy]. exists (String.rev y).
    rewrite <- (rev_involutive s), Hy, rev_app. by rewrite rev_involutive.
  - intros [x ->]. exists (String.rev x). apply rev_app.
Qed.

Lemma strip_suffix_spec (suffix s : string) :
  (s = Js.strip_suffix suffix s +:+ suffix) ∨
  (Str.ends_with s suffix = false ∧ Js.strip_suffix suffix s = s).
Proof.
  unfold Js.strip_suffix, Str.ends_with.
  destruct (Str.strip_prefix (String.rev suffix) (String.rev s)) as [r |] eqn:E.
  - left. apply strip_prefix_Some in E.
    rewrite <- (rev_involutive s), E, rev_app. by rewrite rev_involutive.
  - right. split; [| done].
    destruct (Str.starts_with _ _) eqn:E'; [| done].
    apply starts_with_strip in E'. rewrite E in E'. by destruct E'.
Qed.

Lemma strip_suffix_none (suffix s : string) :
  Str.ends_with s suffix = false → Js.strip_suffix suffix s = s.
Proof.
  intros H. destruct (strip_suffix_spec suffix s) as [Heq | [_ ?]]; [| done].
  assert (Str.ends_with s suffix = true) by (apply ends_with_app; by eexists).
  congruence.
Qed.

Lemma ends_with_behind (a t p : string) :
  String.length p ≤ String.length t →
  Str.ends_with (a +:+ t) p = Str.ends_with t p.
Proof.
  intros Hlen.
  destruct (Str.ends_with t p) eqn:E.
  - apply ends_with_app in E as [x ->]. apply ends_with_app.
    exists (a +:+ x). by rewrite app_assoc_str.
  - destruct (Str.ends_with (a +:+ t) p) eqn:E'; [| done].
    apply ends_with_app in E' as [x Hx].
    assert (Str.ends_with t p = true); [| congruence].
    apply ends_with_app. clear E.
    revert x Hx. induction a as [| c a IH]; intros x Hx.
    + rewrite app_empty_l in Hx. by exists x.
    + destruct x as [| c' x].
      * rewrite app_empty_l in Hx. apply (f_equal String.length) in Hx.
        rewrite app_String in Hx. simpl in Hx. rewrite length_app_str in Hx. lia.
      * rewrite !app_String in Hx. injection Hx as _ Hx. by apply (IH x).
Qed.

End Suffixes.

(** ** [buildGitUrl] and [parseGitUrl] *)

Section BuildParse.
Import GitCrawler.

Lemma scheme_https (x : string) : scheme ("https://" +:+ x) = Some ("https", x).
Proof.
  unfold scheme.
  assert (Str.strip_prefix "http" ("https://" +:+ x) = Some ("s://" +:+ x)) as ->
    by (by apply strip_prefix_Some).
  cbn [mbind option_bind].
  assert (Str.strip_prefix "s" ("s://" +:+ x) = Some ("://" +:+ x)) as ->
    by (by apply strip_prefix_Some).
  assert (Str.strip_prefix "://" ("://" +:+ x) = Some x) as ->
    by (by apply strip_prefix_Some).
  done.
Qed.

Lemma path_part_free (p : string) : free_of "?" p → free_of "?" (path_part p).
Proof.
  intros H. unfold path_part. destruct (Str.is_empty p); [apply free_of_nil |].
  apply free_of_app. split; [by apply mem_free | done].
Qed.

Lemma last_segment_path_part (r p : string) :
  r ≠ "" → free_of "/" r → last_segment (r +:+ path_part p) = Some (r, path_part p).
Proof.
  intros Hne Hfree. unfold last_segment, path_part.
  apply is_empty_false in Hne.
  destruct (Str.is_empty p).
  - rewrite app_empty_r, span_not_slash_end by done. by rewrite Hne.
  - change ("/" +:+ p) with (String "/" p). rewrite span_not_slash by done. by rewrite Hne.
Qed.

Lemma optional_path_part (p : string) :
  one_line p → default "" (optional_path (path_part p)) = p.
Proof.
  intros Hline. unfold optional_path, path_part.
  destruct (Str.is_empty p) eqn:E.
  - apply is_empty_true in E. by subst.
  - change (Str.strip_prefix "/" ("/" +:+ p)) with (Some p). simpl. exact Hline.
Qed.

Lemma query_ref_built (v : string) :
  v ≠ "" → v ≠ "heads" → utf8 v = true →
  query_ref (Some ("ref=" +:+ Uri.encodeURIComponent v)) = Return (Some v).
Proof.
  intros Hne Hheads Hutf. unfold query_ref.
  change (Str.is_empty ("ref=" +:+ Uri.encodeURIComponent v)) with false. cbv iota.
  rewrite (search_here _ _ (Uri.encodeURIComponent v)).
  - rewrite decodeURIComponent_encodeURIComponent by done. by rewrite decide_False.
  - unfold ref_at.
    change (Str.strip_prefix "ref=" ("ref=" +:+ Uri.encodeURIComponent v))
      with (Some (Uri.encodeURIComponent v)).
    cbn [mbind option_bind].
    rewrite (free_of_span_end "&") by (by apply encoded_free).
    simpl. pose proof (encoded_nonempty v Hne) as H. apply is_empty_false in H.
    by rewrite H.
Qed.

Lemma split_query_built (b v : string) :
  free_of "?" b →
  Js.split_query (b +:+ "?ref=" +:+ Uri.encodeURIComponent v)
  = (b, Some ("ref=" +:+ Uri.encodeURIComponent v)).
Proof.
  intros Hb. change ("?ref=" +:+ Uri.encodeURIComponent v)
    with ("?" +:+ "ref=" +:+ Uri.encodeURIComponent v).
  rewrite split_query_app by done.
  rewrite split_free; [done |].
  apply free_of_app. split; [by apply mem_free | by apply encoded_free].
Qed.

(** What [parseGitUrl] reads from the query that [buildGitUrl] writes. *)
Lemma built_query (b : string) (r : option string) :
  free_of "?" b → usable_ref r →
  ∃ q, Js.split_query (match truthy r with
                       | Some v => b +:+ "?ref=" +:+ Uri.encodeURIComponent v
                       | None => b
                       end) = (b, q) ∧
       query_ref q = Return r.
Proof.
  intros Hb Hr. destruct r as [v |]; simpl.
  - destruct Hr as (Hne & Hheads & Hutf).
    apply is_empty_false in Hne as Hne'. rewrite Hne'.
    eexists. split; [by apply split_query_built |]. by apply query_ref_built.
  - exists None. split; [by apply split_query_no_query | done].
Qed.

Lemma github_at_built (o r p : string) :
  url_segment o → url_segment r →
  github_at ("https://" +:+ "github.com" +:+ "/" +:+ o +:+ "/" +:+ r +:+ path_part p)
  = Some (o, r, optional_path (path_part p)).
Proof.
  intros (Ho & Hos & _) (Hr & Hrs & _). unfold github_at.
  rewrite scheme_https. cbn [mbind option_bind].
  assert (Str.strip_prefix "github.com/" ("github.com" +:+ "/" +:+ o +:+ "/" +:+ r +:+ path_part p)
          = Some (o +:+ "/" +:+ r +:+ path_part p)) as -> by (by apply strip_prefix_Some).
  cbn [mbind option_bind]. rewrite segment_slash_app by done.
  cbn [mbind option_bind]. rewrite last_segment_path_part by done.
  done.
Qed.

Lemma parse_built_github
    (pr : Provider) (o r p : string) (rf : option string) :
  url_segment o → repo_segment r → url_path p → usable_ref rf →
  parseGitUrl (buildGitUrl pr "github.com" o r rf p)
  = Return {| provider := github; host := "github.com"; owner := o; repo := r;
              ref := rf; path := p |}.
Proof.
  intros Ho [Hr Hgit] [Hpq Hline] Hrf.
  unfold buildGitUrl. fold (path_part p).
  set (b := "https://" +:+ "github.com" +:+ "/" +:+ o +:+ "/" +:+ r +:+ path_part p).
  assert (free_of "?" b) as Hb.
  { destruct Ho as (_ & _ & Hoq), Hr as (_ & _ & Hrq).
    unfold b. repeat (apply free_of_app; split); try done; try (by apply mem_free).
    by apply path_part_free. }
  destruct (built_query b rf Hb Hrf) as (q & Hsplit & Hq).
  unfold parseGitUrl. rewrite Hsplit, Hq. unfold b.
  rewrite (search_here _ _ _ (github_at_built o r p Ho Hr)).
  by rewrite Hgit, optional_path_part.
Qed.

(** X16.  [parseGitUrl] reads back what [buildGitUrl] writes for a GitHub
    repository: owner, repository, path and ref, the ref through its
    percent-encoding. *)
Theorem parseGitUrl_buildGitUrl_github
    (pr : Provider) (o r p : string) (rf : option string) :
  url_segment o → repo_segment r → url_path p → usable_ref rf →
  parseGitUrl (buildGitUrl pr "github.com" o r rf p)
  = Return {| provider := github; host := "github.com"; owner := o; repo := r;
              ref := rf; path := p |}.
Proof. intros Ho Hr Hp Hrf. by apply parse_built_github. Qed.

Lemma includes_here (s n : string) : Str.starts_with s n = true → Str.includes s n = true.
Proof. intros H. destruct s; simpl; by rewrite H. Qed.

Lemma includes_later (c : ascii) (s n : string) :
  Str.includes s n = true → Str.includes (String c s) n = true.
Proof. intros H. simpl. rewrite H. by rewrite orb_true_r. Qed.

Lemma includes_app_l (a s n : string) :
  Str.includes s n = true → Str.includes (a +:+ s) n = true.
Proof.
  intros H. induction a as [| c a IH]; [done |].
  rewrite app_String. by apply includes_later.
Qed.

Lemma scheme_includes (t : string) (x : string * string) :
  scheme t = Some x → Str.includes t "://" = true.
Proof.
  unfold scheme. destruct (Str.strip_prefix "http" t) as [rest |] eqn:E; [| done].
  apply strip_prefix_Some in E as ->. cbn [mbind option_bind].
  destruct (Str.strip_prefix "s" rest) as [rest' |] eqn:E'.
  - apply strip_prefix_Some in E' as ->.
    destruct (Str.strip_prefix "://" rest') as [r |] eqn:E''; [| done].
    apply strip_prefix_Some in E'' as ->. intros _.
    apply (includes_app_l "https"). apply includes_here. by apply starts_with_app; eexists.
  - destruct (Str.strip_prefix "://" rest) as [r |] eqn:E''; [| done].
    apply strip_prefix_Some in E'' as ->. intros _.
    apply (includes_app_l "http"). apply includes_here. by apply starts_with_app; eexists.
Qed.

Lemma search_none_inside {A} (m : string → option A) (s : string) :
  (∀ t, scheme t = None → m t = None) →
  Str.includes s "://" = false → Js.search m s = None.
Proof.
  intros Hm. induction s as [| c s IH]; intros Hs.
  - simpl. rewrite Hm; [done |]. done.
  - assert (scheme (String c s) = None) as Hnone.
    { destruct (scheme (String c s)) as [x |] eqn:E; [| done].
      apply scheme_includes in E. congruence. }
    rewrite search_skip by (by apply Hm). apply IH.
    simpl in Hs. by apply orb_false_iff in Hs as [_ ?].
Qed.

(** A pattern that begins with the scheme matches a URL with one scheme
    at its start or nowhere. *)
Lemma search_after_https {A} (m : string → option A) (tail : string) :
  (∀ t, scheme t = None → m t = None) →
  m ("https://" +:+ tail) = None → Str.includes tail "://" = false →
  Js.search m ("https://" +:+ tail) = None.
Proof.
  intros Hm H0 Htail.
  rewrite !app_String, app_empty_l in *.
  rewrite search_skip by done.
  do 7 (rewrite search_skip by (by apply Hm)).
  by apply search_none_inside.
Qed.

Lemma github_at_scheme (t : string) : scheme t = None → github_at t = None.
Proof. intros H. unfold github_at. by rewrite H. Qed.

Lemma gitlab_tree_at_scheme (t : string) : scheme t = None → gitlab_tree_at t = None.
Proof. intros H. unfold gitlab_tree_at. by rewrite H. Qed.

Lemma gitlab_at_scheme (t : string) : scheme t = None → gitlab_at t = None.
Proof. intros H. unfold gitlab_at. by rewrite H. Qed.

Lemma gitlab_host_app (h rest : string) :
  Str.includes h "gitlab" = true → free_of "/" h →
  gitlab_host (h +:+ "/" +:+ rest) = Some (h, rest).
Proof.
  intros Hinc Hfree. unfold gitlab_host.
  change ("/" +:+ rest) with (String "/" rest).
  rewrite span_not_slash by done. by rewrite Hinc.
Qed.

Lemma github_at_gitlab_host (h rest : string) :
  Str.includes h "gitlab" = true → free_of "/" h →
  github_at ("https://" +:+ h +:+ "/" +:+ rest) = None.
Proof.
  intros Hinc Hfree. unfold github_at. rewrite scheme_https. cbn [mbind option_bind].
  destruct (Str.strip_prefix "github.com/" (h +:+ "/" +:+ rest)) as [x |] eqn:E; [| done].
  apply strip_prefix_Some in E.
  apply (f_equal (Str.span Js.not_slash)) in E.
  change ("/" +:+ rest) with (String "/" rest) in E.
  rewrite span_not_slash in E by done.
  change ("github.com/" +:+ x) with ("github.com" +:+ String "/" x) in E.
  rewrite span_not_slash in E by (by apply mem_free).
  injection E as -> _. done.
Qed.

Lemma gitlab_tree_at_plain (h o r p : string) :
  Str.includes h "gitlab" = true → free_of "/" h → url_segment o → url_segment r →
  Str.starts_with p "-/" = false →
  gitlab_tree_at ("https://" +:+ url_tail h o r p) = None.
Proof.
  intros Hinc Hfree (Ho & Hos & _) (Hr & Hrs & _) Hp.
  unfold gitlab_tree_at, url_tail. rewrite scheme_https. cbn [mbind option_bind].
  rewrite gitlab_host_app by done. cbn [mbind option_bind].
  rewrite segment_slash_app by done. cbn [mbind option_bind].
  unfold path_part. destruct (Str.is_empty p).
  - rewrite app_empty_r. unfold Js.segment_slash.
    rewrite span_not_slash_end by done.
    apply is_empty_false in Hr. by rewrite Hr.
  - rewrite segment_slash_app by done. cbn [mbind option_bind].
    destruct (Str.strip_prefix "-/" p) as [x |] eqn:E; [| done].
    assert (Str.starts_with p "-/" = true) by (apply starts_with_strip; by eexists).
    congruence.
Qed.

Lemma gitlab_at_built (h o r p : string) :
  Str.includes h "gitlab" = true → free_of "/" h → url_segment o → url_segment r →
  gitlab_at ("https://" +:+ url_tail h o r p)
  = Some (h, o, r, optional_path (path_part p)).
Proof.
  intros Hinc Hfree (Ho & Hos & _) (Hr & Hrs & _).
  unfold gitlab_at, url_tail. rewrite scheme_https. cbn [mbind option_bind].
  rewrite gitlab_host_app by done. cbn [mbind option_bind].
  rewrite segment_slash_app by done. cbn [mbind option_bind].
  rewrite last_segment_path_part by done. done.
Qed.

(** X17.  [parseGitUrl] reads back what [buildGitUrl] writes for a GitLab
    repository with a ref: host, owner, repository, path and ref, when
    the path does not begin like a tree or blob view and the URL holds no
    second scheme. *)
Theorem parseGitUrl_buildGitUrl_gitlab
    (pr : Provider) (h o r p v : string) :
  gitlab_host_name h → url_segment o → repo_segment r → url_path p →
  Str.starts_with p "-/" = false →
  Str.includes (url_tail h o r p) "://" = false →
  usable_ref (Some v) →
  parseGitUrl (buildGitUrl pr h o r (Some v) p)
  = Return {| provider := gitlab; host := h; owner := o; repo := r;
              ref := Some v; path := p |}.
Proof.
  intros (Hinc & Hhs & Hhq) Ho [Hr Hgit] [Hpq Hline] Hdash Hplain Hrf.
  unfold buildGitUrl. fold (path_part p). fold (url_tail h o r p).
  assert (free_of "?" ("https://" +:+ url_tail h o r p)) as Hb.
  { destruct Ho as (_ & _ & Hoq), Hr as (_ & _ & Hrq).
    unfold url_tail. repeat (apply free_of_app; split); try done; try (by apply mem_free).
    by apply path_part_free. }
  destruct (built_query _ (Some v) Hb Hrf) as (q & Hsplit & Hq).
  unfold parseGitUrl. rewrite Hsplit, Hq.
  rewrite (search_after_https github_at _ github_at_scheme); [| | done].
  2: { unfold url_tail. by apply github_at_gitlab_host. }
  rewrite (search_after_https gitlab_tree_at _ gitlab_tree_at_scheme); [| | done].
  2: { by apply gitlab_tree_at_plain. }
  rewrite (search_here _ _ _ (gitlab_at_built h o r p Hinc Hhs Ho Hr)).
  rewrite Hgit, optional_path_part by done.
  destruct Hrf as (Hne & _ & _). simpl. apply is_empty_false in Hne. by rewrite Hne.
Qed.

Lemma gitlab_tree_at_other_host (h rest : string) :
  Str.includes h "gitlab" = false → free_of "/" h →
  gitlab_tree_at ("https://" +:+ h +:+ "/" +:+ rest) = None.
Proof.
  intros Hinc Hfree. unfold gitlab_tree_at. rewrite scheme_https. cbn [mbind option_bind].
  unfold gitlab_host. change ("/" +:+ rest) with (String "/" rest).
  rewrite span_not_slash by done. by rewrite Hinc.
Qed.

Lemma remove_tree_none (s : string) :
  Str.includes s "/tree/" = false → remove_tree s = s.
Proof.
  induction s as [| c s IH]; intros H; [done |].
  cbn [remove_tree].
  destruct (Str.strip_prefix "/tree/" (String c s)) as [x |] eqn:E.
  - assert (Str.includes (String c s) "/tree/" = true); [| congruence].
    apply includes_here, starts_with_strip. by eexists.
  - cbn [mbind option_bind]. rewrite IH; [done |].
    simpl in H. by apply orb_false_iff in H as [_ ?].
Qed.

Lemma first_segment_inj (a a' b b' : string) :
  free_of "/" a → free_of "/" a' → a +:+ "/" +:+ b = a' +:+ "/" +:+ b' → a = a'.
Proof.
  intros Ha Ha' H. apply (f_equal (Str.span Js.not_slash)) in H.
  change ("/" +:+ b) with (String "/" b) in H. change ("/" +:+ b') with (String "/" b') in H.
  rewrite !span_not_slash in H by done. by injection H.
Qed.

Lemma includes_https_tree (h rest : string) :
  free_of "/" h → h ≠ "tree" →
  Str.includes (h +:+ "/" +:+ rest) "/tree/" = false →
  Str.includes ("https://" +:+ h +:+ "/" +:+ rest) "/tree/" = false.
Proof.
  intros Hfree Hne Htail.
  remember (h +:+ "/" +:+ rest) as tail eqn:Ht.
  rewrite !app_String, app_empty_l. cbn [Str.includes].
  rewrite Htail, orb_false_r.
  repeat (match goal with
          | |- context [Str.starts_with (String ?c ?x) "/tree/"] =>
              change (Str.starts_with (String c x) "/tree/") with false
          end).
  simpl orb.
  destruct (Str.starts_with (String "/" tail) "/tree/") eqn:E; [| done].
  apply starts_with_app in E as [x Hx].
  change ("/tree/" +:+ x) with (String "/" ("tree" +:+ "/" +:+ x)) in Hx.
  injection Hx as Hx. subst tail.
  apply first_segment_inj in Hx; [done | done | by apply mem_free].
Qed.

Lemma url_tail_length (h o r p : string) : 1 ≤ String.length (url_tail h o r p).
Proof. unfold url_tail. rewrite !length_app_str. simpl. lia. Qed.

Lemma normalizeUrl_built
    (pr : Provider) (h o r p : string) (rf : option string) :
  free_of "/" h → free_of "?" h → h ≠ "tree" →
  url_segment o → url_segment r → free_of "?" p →
  Str.starts_with p "-/" = false →
  Str.includes (url_tail h o r p) "://" = false →
  Str.includes (url_tail h o r p) "/tree/" = false →
  Str.ends_with (url_tail h o r p) "/" = false →
  normalizeUrl (buildGitUrl pr h o r rf p) = buildGitUrl pr h o r rf p.
Proof.
  intros Hhs Hhq Hht Ho Hr Hpq Hdash Hplain Htree Hend.
  unfold buildGitUrl. fold (path_part p). fold (url_tail h o r p).
  set (b := "https://" +:+ url_tail h o r p).
  assert (free_of "?" b) as Hb.
  { destruct Ho as (_ & _ & Hoq), Hr as (_ & _ & Hrq).
    unfold b, url_tail. repeat (apply free_of_app; split); try done; try (by apply mem_free).
    by apply path_part_free. }
  assert (Js.search gitlab_tree_at b = None) as Hno.
  { apply (search_after_https gitlab_tree_at _ gitlab_tree_at_scheme); [| done].
    destruct (Str.includes h "gitlab") eqn:Hinc.
    - by apply gitlab_tree_at_plain.
    - unfold url_tail. by apply gitlab_tree_at_other_host. }
  assert (Js.strip_suffix "/" (remove_tree b) = b) as Hnorm.
  { rewrite remove_tree_none by (by apply includes_https_tree).
    apply strip_suffix_none. unfold b.
    rewrite ends_with_behind; [done |]. apply url_tail_length. }
  unfold normalizeUrl.
  destruct (truthy rf) as [v |].
  - rewrite split_query_built by done. rewrite Hno, Hnorm. done.
  - rewrite split_query_no_query by done. rewrite Hno, Hnorm. done.
Qed.

(** X18.  [normalizeUrl] leaves the URLs that [buildGitUrl] writes as they
    are, so the cache of the crawler files a resolved reference under the
    URL that [resolveUrl] has built: provided no segment is named [tree],
    the path does not begin like a GitLab tree or blob view, and the URL
    neither holds a second scheme nor ends in a slash. *)
Theorem normalizeUrl_buildGitUrl
    (pr : Provider) (h o r p : string) (rf : option string) :
  free_of "/" h → free_of "?" h → h ≠ "tree" →
  url_segment o → url_segment r → free_of "?" p →
  Str.starts_with p "-/" = false →
  Str.includes (url_tail h o r p) "://" = false →
  Str.includes (url_tail h o r p) "/tree/" = false →
  Str.ends_with (url_tail h o r p) "/" = false →
  normalizeUrl (buildGitUrl pr h o r rf p) = buildGitUrl pr h o r rf p.
Proof. intros. by apply normalizeUrl_built. Qed.

Lemma remove_tree_skip_free (a s : string) :
  free_of "/" a → remove_tree (a +:+ s) = a +:+ remove_tree s.
Proof.
  induction a as [| c a IH]; intros H; [done |].
  apply free_of_String in H as [Hc Ha]. rewrite !app_String.
  cbn [remove_tree]. simpl Str.strip_prefix.
  rewrite decide_False by congruence. cbn [mbind option_bind]. by rewrite IH.
Qed.

Lemma remove_tree_skip_slash (seg s : string) :
  free_of "/" seg → seg ≠ "tree" →
  remove_tree ("/" +:+ seg +:+ "/" +:+ s) = "/" +:+ remove_tree (seg +:+ "/" +:+ s).
Proof.
  intros Hfree Hne.
  change ("/" +:+ seg +:+ "/" +:+ s) with (String "/" (seg +:+ "/" +:+ s)).
  cbn [remove_tree].
  destruct (Str.strip_prefix "/tree/" (String "/" (seg +:+ "/" +:+ s))) as [x |] eqn:E.
  - apply strip_prefix_Some in E.
    change ("/tree/" +:+ x) with (String "/" ("tree" +:+ "/" +:+ x)) in E.
    injection E as E. apply first_segment_inj in E; [done | done | by apply mem_free].
  - done.
Qed.

Lemma remove_tree_here (b p : string) :
  b ≠ "" → free_of "/" b → remove_tree ("/tree/" +:+ b +:+ path_part p) = path_part p.
Proof.
  intros Hne Hfree.
  change ("/tree/" +:+ b +:+ path_part p) with (String "/" ("tree/" +:+ b +:+ path_part p)).
  cbn [remove_tree].
  change (Str.strip_prefix "/tree/" (String "/" ("tree/" +:+ b +:+ path_part p)))
    with (Some (b +:+ path_part p)).
  cbn [mbind option_bind]. by rewrite last_segment_path_part.
Qed.

Lemma parseGitUrl_github_plain (o r p : string) :
  url_segment o → url_segment r → url_path p →
  parseGitUrl ("https://" +:+ "github.com" +:+ "/" +:+ o +:+ "/" +:+ r +:+ path_part p)
  = Return {| provider := github; host := "github.com"; owner := o;
              repo := Js.strip_suffix ".git" r; ref := None; path := p |}.
Proof.
  intros Ho Hr [Hpq Hline].
  assert (free_of "?" ("https://" +:+ "github.com" +:+ "/" +:+ o +:+ "/" +:+ r +:+ path_part p))
    as Hb.
  { destruct Ho as (_ & _ & Hoq), Hr as (_ & _ & Hrq).
    repeat (apply free_of_app; split); try done; try (by apply mem_free).
    by apply path_part_free. }
  unfold parseGitUrl. rewrite split_query_no_query by done. simpl query_ref. cbv iota.
  rewrite (search_here _ _ _ (github_at_built o r p Ho Hr)).
  by rewrite optional_path_part.
Qed.

(** X19.  [normalizeUrl] cuts the tree view out of a GitHub URL and does
    not keep its branch: the normalized URL names the path in the
    repository and no ref, so [parseGitUrl] finds no ref in it. *)
Theorem normalizeUrl_github_tree_drops_branch (o r b p : string) :
  url_segment o → url_segment r → url_segment b → o ≠ "tree" → r ≠ "tree" →
  url_path p →
  Str.includes (url_tail "github.com" o r ("tree/" +:+ b +:+ path_part p)) "://" = false →
  Str.ends_with (r +:+ path_part p) "/" = false →
  let url := "https://" +:+ url_tail "github.com" o r ("tree/" +:+ b +:+ path_part p) in
  normalizeUrl url = "https://" +:+ url_tail "github.com" o r p ∧
  parseGitUrl (normalizeUrl url)
  = Return {| provider := github; host := "github.com"; owner := o;
              repo := Js.strip_suffix ".git" r; ref := None; path := p |}.
Proof.
  intros Ho Hr Hb Hot Hrt Hp Hplain Hend url. subst url.
  set (tail := url_tail "github.com" o r ("tree/" +:+ b +:+ path_part p)) in *.
  assert (normalizeUrl ("https://" +:+ tail) = "https://" +:+ url_tail "github.com" o r p)
    as Hnorm.
  { pose proof Ho as (Hone & Hos & Hoq). pose proof Hr as (Hrne & Hrs & Hrq).
    pose proof Hb as (Hbne & Hbs & Hbq). pose proof Hp as [Hpq _].
    assert (free_of "?" ("https://" +:+ tail)) as Hfree.
    { unfold tail, url_tail, path_part at 1.
      change (Str.is_empty ("tree/" +:+ b +:+ path_part p)) with false. cbv iota.
      repeat (apply free_of_app; split); try done; try (by apply mem_free).
      by apply path_part_free. }
    unfold normalizeUrl. rewrite split_query_no_query by done.
    rewrite (search_after_https gitlab_tree_at _ gitlab_tree_at_scheme); [| | done].
    2: { unfold tail, url_tail. apply gitlab_tree_at_other_host; [done | by apply mem_free]. }
    assert (remove_tree ("https://" +:+ tail) = "https://" +:+ url_tail "github.com" o r p)
      as ->.
    { unfold tail, url_tail, path_part at 1.
      change (Str.is_empty ("tree/" +:+ b +:+ path_part p)) with false. cbv iota.
      change ("https://" +:+ "github.com" +:+ "/" +:+ o +:+ "/" +:+ r +:+
              "/" +:+ "tree/" +:+ b +:+ path_part p)
        with ("https:" +:+ "/" +:+ "" +:+ "/" +:+ "github.com" +:+ "/" +:+ o +:+ "/" +:+ r +:+
              "/tree/" +:+ b +:+ path_part p).
      rewrite remove_tree_skip_free by (by apply mem_free).
      rewrite remove_tree_skip_slash by (done || by apply mem_free).
      rewrite app_empty_l.
      rewrite remove_tree_skip_slash by (done || by apply mem_free).
      rewrite remove_tree_skip_free by (by apply mem_free).
      rewrite remove_tree_skip_slash by done.
      rewrite remove_tree_skip_free by done.
      change ("/tree/" +:+ b +:+ path_part p) with ("/" +:+ "tree/" +:+ b +:+ path_part p).
      rewrite remove_tree_skip_slash by done.
      rewrite remove_tree_skip_free by done.
      change ("/" +:+ "tree/" +:+ b +:+ path_part p) with ("/tree/" +:+ b +:+ path_part p).
      by rewrite remove_tree_here. }
    apply strip_suffix_none. unfold url_tail.
    replace ("https://" +:+ "github.com" +:+ "/" +:+ o +:+ "/" +:+ r +:+ path_part p)
      with (("https://" +:+ "github.com" +:+ "/" +:+ o +:+ "/") +:+ r +:+ path_part p)
      by (by rewrite !app_assoc_str).
    rewrite ends_with_behind; [done |].
    rewrite length_app_str. destruct r; [done | simpl; lia]. }
  split; [done |]. rewrite Hnorm. unfold url_tail. by apply parseGitUrl_github_plain.
Qed.

End BuildParse.

Section BuildParseSample.
Import GitCrawler.

Lemma url_segment_sample (s : string) :
  s ≠ "" → Str.mem "/" s = false → Str.mem "?" s = false → url_segment s.
Proof. intros ? ? ?. split; [done |]. split; by apply mem_free. Qed.

Lemma parseGitUrl_buildGitUrl_github_witness :
  parseGitUrl (buildGitUrl github "github.com" "org" "repo" (Some "feature/x") "overlays/prod")
  = Return {| provider := github; host := "github.com"; owner := "org"; repo := "repo";
              ref := Some "feature/x"; path := "overlays/prod" |}.
Proof.
  apply parseGitUrl_buildGitUrl_github.
  - by apply url_segment_sample.
  - split; [by apply url_segment_sample | reflexivity].
  - split; [by apply mem_free | reflexivity].
  - split; [discriminate | split; [discriminate | reflexivity]].
Defined.

Lemma parseGitUrl_buildGitUrl_gitlab_witness :
  parseGitUrl (buildGitUrl gitlab "gitlab.example.com" "group" "project"
                 (Some "release/v1") "overlays/prod")
  = Return {| provider := gitlab; host := "gitlab.example.com"; owner := "group";
              repo := "project"; ref := Some "release/v1"; path := "overlays/prod" |}.
Proof.
  apply parseGitUrl_buildGitUrl_gitlab.
  - split; [reflexivity | split; by apply mem_free].
  - by apply url_segment_sample.
  - split; [by apply url_segment_sample | reflexivity].
  - split; [by apply mem_free | reflexivity].
  - reflexivity.
  - reflexivity.
  - split; [discriminate | split; [discriminate | reflexivity]].
Defined.

Lemma normalizeUrl_buildGitUrl_witness :
  normalizeUrl (buildGitUrl github "github.com" "org" "repo" (Some "feature/x") "overlays/prod")
  = buildGitUrl github "github.com" "org" "repo" (Some "feature/x") "overlays/prod".
Proof.
  apply normalizeUrl_buildGitUrl.
  - by apply mem_free.
  - by apply mem_free.
  - discriminate.
  - by apply url_segment_sample.
  - by apply url_segment_sample.
  - by apply mem_free.
  - reflexivity.
  - reflexivity.
  - reflexivity.
  - reflexivity.
Defined.

Lemma normalizeUrl_github_tree_drops_branch_witness :
  normalizeUrl "https://github.com/org/repo/tree/dev/overlays/prod"
  = "https://github.com/org/repo/overlays/prod" ∧
  parseGitUrl (normalizeUrl "https://github.com/org/repo/tree/dev/overlays/prod")
  = Return {| provider := github; host := "github.com"; owner := "org"; repo := "repo";
              ref := None; path := "overlays/prod" |}.
Proof.
  apply (normalizeUrl_github_tree_drops_branch "org" "repo" "dev" "overlays/prod").
  - by apply url_segment_sample.
  - by apply url_segment_sample.
  - by apply url_segment_sample.
  - discriminate.
  - discriminate.
  - split; [by apply mem_free | reflexivity].
  - reflexivity.
  - reflexivity.
Defined.

End BuildParseSample.

(** ** The record that [parseGitUrl] returns *)

Section ParsedRecord.
Import GitCrawler.












End ParsedRecord.

(** ** Branch detection on GitLab *)

Section GitLabBranch.
Import GitCrawler GitLabFiles.

Lemma join_app_nonempty (l1 l2 : list string) :
  l1 ≠ [] → l2 ≠ [] →
  Str.join "/" (l1 ++ l2) = Str.join "/" l1 +:+ "/" +:+ Str.join "/" l2.
Proof.
  intros H1 H2. induction l1 as [| x l1 IH]; [done |].
  destruct l1 as [| y l1].
  - simpl. destruct l2; done.
  - change (Str.join "/" ((x :: y :: l1) ++ l2))
      with (x +:+ "/" +:+ Str.join "/" ((y :: l1) ++ l2)).
    rewrite IH by done.
    change (Str.join "/" (x :: y :: l1)) with (x +:+ "/" +:+ Str.join "/" (y :: l1)).
    by rewrite !app_assoc_str.
Qed.

(** A split of the pieces of [p] at [i] puts [p] together again. *)
Lemma split_at_rejoins (p : string) (i : nat) :
  1 ≤ i ≤ length (Str.split "/" p) →
  let parts := Str.split "/" p in
  (i < length parts ∧
   p = Str.join "/" (take i parts) +:+ "/" +:+ Str.join "/" (drop i parts)) ∨
  (i = length parts ∧ Str.join "/" (take i parts) = p ∧ Str.join "/" (drop i parts) = "").
Proof.
  intros Hi parts. subst parts.
  destruct (decide (i = length (Str.split "/" p))) as [-> | Hne].
  - right. split; [done |]. rewrite firstn_all, drop_all. by rewrite join_split.
  - left. split; [lia |].
    rewrite <- join_app_nonempty.
    + by rewrite take_drop, join_split.
    + intros H. apply (f_equal length) in H. rewrite length_take in H. simpl in H. lia.
    + intros H. apply (f_equal length) in H. rewrite length_drop in H. simpl in H. lia.
Qed.

Lemma candidates_down_step (i j : nat) :
  j ≤ S i → candidates_down (S i) j = S i :: candidates_down i j.
Proof.
  intros Hj. unfold candidates_down.
  replace (S (S i) - j) with (S (S i - j)) by lia.
  rewrite seq_S, rev_app_distr. simpl. f_equal. lia.
Qed.

(** The loop tries the candidates from the longest down, one request each,
    and stops at the first one that the server confirms. *)
Lemma branch_probe_spec (net : Net) (token : option string) (host projectPath : string)
    (parts : list string) (i : nat) (log : list Request) :
  parts ≠ [] →
  let asked := λ m, branch_request token host projectPath (Str.join "/" (take m parts)) in
  let '((b, q), log') := branch_probe net token host projectPath parts i log in
  ∃ j,
    1 ≤ j ∧ (j ≤ i ∨ i = 0) ∧
    b = Str.join "/" (take j parts) ∧ q = Str.join "/" (drop j parts) ∧
    log' = log ++ map asked (candidates_down i j) ∧
    (∀ m, j < m ≤ i → confirms net (length log + (i - m)) (asked m) = false) ∧
    ((j ≤ i ∧ confirms net (length log + (i - j)) (asked j) = true) ∨
     (j = 1 ∧ ∀ m, 1 ≤ m ≤ i → confirms net (length log + (i - m)) (asked m) = false)).
Proof.
  intros Hparts asked. revert log. induction i as [| i IH]; intros log.
  - simpl. exists 1. destruct parts as [| x parts]; [done |].
    rewrite app_nil_r. simpl. rewrite ?take_0.
    split; [done |]. split; [by right |]. split; [done |]. split; [done |].
    split; [done |]. split; [intros m Hm; lia |]. right. split; [done |].
    intros m Hm. lia.
  - cbn [branch_probe]. fold (asked (S i)).
    assert (Hrest :
      confirms net (length log) (asked (S i)) = false →
      let '((b, q), log') :=
        branch_probe net token host projectPath parts i (log ++ [asked (S i)]) in
      ∃ j,
        1 ≤ j ∧ (j ≤ S i ∨ S i = 0) ∧
        b = Str.join "/" (take j parts) ∧ q = Str.join "/" (drop j parts) ∧
        log' = log ++ map asked (candidates_down (S i) j) ∧
        (∀ m, j < m ≤ S i →
              confirms net (length log + (S i - m)) (asked m) = false) ∧
        ((j ≤ S i ∧ confirms net (length log + (S i - j)) (asked j) = true) ∨
         (j = 1 ∧ ∀ m, 1 ≤ m ≤ S i →
                       confirms net (length log + (S i - m)) (asked m) = false))).
    { intros Hno. specialize (IH (log ++ [asked (S i)])).
      destruct (branch_probe net token host projectPath parts i (log ++ [asked (S i)]))
        as [[b q] log'].
      destruct IH as (j & Hj1 & Hji & Hb & Hq & Hlog & Hup & Hsel).
      assert (j ≤ S i) as HjS by lia.
      assert (Hidx : ∀ m, m ≤ i →
                length (log ++ [asked (S i)]) + (i - m) = length log + (S i - m)).
      { intros m Hm. rewrite length_app. simpl. lia. }
      assert (Hlast : ∀ m, m = S i →
                confirms net (length log + (S i - m)) (asked m) = false).
      { intros m ->. by replace (length log + (S i - S i)) with (length log) by lia. }
      exists j. split; [done |]. split; [by left |]. split; [done |]. split; [done |].
      split; [rewrite candidates_down_step by done; by rewrite Hlog, <- app_assoc |].
      split.
      - intros m Hm. destruct (decide (m = S i)) as [Hm' | Hm']; [by apply Hlast |].
        rewrite <- Hidx by lia. apply Hup. lia.
      - destruct Hsel as [[Hle Hyes] | [-> Hnone]].
        + left. split; [done |]. destruct Hji as [Hji | ->]; [| lia].
          by rewrite <- Hidx.
        + right. split; [done |]. intros m Hm.
          destruct (decide (m = S i)) as [Hm' | Hm']; [by apply Hlast |].
          rewrite <- Hidx by lia. apply Hnone. lia. }
    unfold confirms in Hrest at 1.
    destruct (net (length log) (asked (S i))) as [response | e] eqn:Hnet.
    + destruct (ok response) eqn:Hok; [| by apply Hrest].
      exists (S i). split; [lia |]. split; [by left |]. split; [done |]. split; [done |].
      split.
      { unfold candidates_down. replace (S (S i) - S i) with 1 by lia. done. }
      split; [intros m Hm; lia |]. left. split; [done |].
      replace (length log + (S i - S i)) with (length log) by lia.
      unfold confirms. by rewrite Hnet.
    + by apply Hrest.
Qed.

(** X20.  [detectGitLabBranch] always comes back with a split of the path
    behind one of its first three segments; branch and path put the given
    path together again.  It asks the server for the candidate branches of
    three, two and one segments, as many as the path has, from the longest
    down, and stops at the first one that the server confirms: the split is
    behind the longest confirmed candidate, each longer one having been
    refused (an answer that is not ok, or a request that fails), and behind
    the first segment when no candidate is confirmed. *)
Theorem detectGitLabBranch_split
    (net : Net) (token : option string) (host owner repo p : string) (log : list Request) :
  let parts := Str.split "/" p in
  let k := Nat.min 3 (length parts) in
  let asked := λ m, branch_request token host
                      (Uri.encodeURIComponent (owner +:+ "/" +:+ repo))
                      (Str.join "/" (take m parts)) in
  let '((b, q), log') := detectGitLabBranch net token host owner repo p log in
  ∃ j,
    1 ≤ j ≤ k ∧ k ≤ 3 ∧
    b = Str.join "/" (take j parts) ∧ q = Str.join "/" (drop j parts) ∧
    (p = b +:+ "/" +:+ q ∨ (b = p ∧ q = "")) ∧
    log' = log ++ map asked (candidates_down k j) ∧
    (∀ m, j < m ≤ k → confirms net (length log + (k - m)) (asked m) = false) ∧
    (confirms net (length log + (k - j)) (asked j) = true ∨
     (j = 1 ∧ ∀ m, 1 ≤ m ≤ k → confirms net (length log + (k - m)) (asked m) = false)).
Proof.
  intros parts k asked. unfold detectGitLabBranch. fold parts. fold k.
  pose proof (split_nonempty "/" p) as Hparts. fold parts in Hparts.
  assert (1 ≤ k ≤ length parts) as Hk.
  { assert (length parts ≠ 0) by (intros E; by apply length_zero_iff_nil in E).
    unfold k. lia. }
  pose proof (branch_probe_spec net token host
                (Uri.encodeURIComponent (owner +:+ "/" +:+ repo)) parts k log Hparts) as H.
  cbv zeta in H. fold asked in H.
  destruct (branch_probe _ _ _ _ _ _ _) as [[b q] log'].
  destruct H as (j & Hj1 & Hjk & Hb & Hq & Hlog & Hup & Hsel).
  assert (1 ≤ j ≤ k) as Hj by lia.
  exists j.
  split; [done |]. split; [unfold k; lia |]. split; [done |]. split; [done |].
  split.
  { pose proof (split_at_rejoins p j) as Hre. cbv zeta in Hre. fold parts in Hre.
    destruct (Hre ltac:(lia)) as [[_ Hp] | (_ & Hp1 & Hp2)]; subst b q; [by left | by right]. }
  split; [done |]. split; [done |].
  destruct Hsel as [[_ Hyes] | Hnone]; [by left | by right].
Qed.

(** The branch [feature/x] is found at the second request; a server that
    confirms nothing, or cannot be reached, leaves the first segment. *)
Example detectGitLabBranch_sample :
  detectGitLabBranch sample_net None "gitlab.com" "g" "p" "feature/x/overlays/prod" []
  = (("feature/x", "overlays/prod"),
     [ branch_request None "gitlab.com" "g%2Fp" "feature/x/overlays";
       branch_request None "gitlab.com" "g%2Fp" "feature/x" ]) ∧
  detectGitLabBranch offline None "gitlab.com" "g" "p" "feature/x/overlays/prod" []
  = (("feature", "x/overlays/prod"),
     [ branch_request None "gitlab.com" "g%2Fp" "feature/x/overlays";
       branch_request None "gitlab.com" "g%2Fp" "feature/x";
       branch_request None "gitlab.com" "g%2Fp" "feature" ]).
Proof. split; reflexivity. Qed.

Lemma join_two_nonempty (x y : string) (l : list string) :
  Str.join "/" (x :: y :: l) ≠ "".
Proof.
  change (Str.join "/" (x :: y :: l)) with (x +:+ "/" +:+ Str.join "/" (y :: l)).
  intros H. apply (f_equal String.length) in H.
  rewrite !length_app_str in H. simpl in H. lia.
Qed.

Lemma heuristic_branch_nonempty (bp : string) :
  bp ≠ "" → fst (heuristic_split bp) ≠ "".
Proof.
  intros Hne. destruct (heuristic_split_spec bp) as (Hk & _ & ->). cbn [fst].
  pose proof (join_split "/" bp) as Hjoin.
  destruct (Str.split "/" bp) as [| x [| y l]].
  - simpl in Hk. lia.
  - simpl in Hjoin. simpl. congruence.
  - destruct l as [| z l];
      [exact (join_two_nonempty x y []) | exact (join_two_nonempty x y [z])].
Qed.

Lemma parseGitUrl_gitlab_ref (url : string) (c : GitUrlComponents) :
  parseGitUrl url = Return c → provider c = gitlab →
  ∃ v, ref c = Some v ∧ v ≠ "".
Proof.
  unfold parseGitUrl.
  destruct (Js.split_query url) as [baseUrl queryString].
  destruct (query_ref queryString) as [qref | e]; [| done].
  destruct (Js.search github_at baseUrl) as [[[o r] p] |]; [by intros [= <-] |].
  destruct (Js.search gitlab_tree_at baseUrl) as [[[[[sch h] o] r] bp] |] eqn:Htree.
  - destruct (truthy qref) as [v |] eqn:Hq.
    + intros [= <-] _. apply truthy_Some in Hq as [-> ?]. by exists v.
    + destruct (heuristic_split bp) as [branch rest] eqn:Hh.
      intros [= <-] _. exists branch. split; [done |].
      apply search_Some in Htree as [t Ht].
      apply gitlab_tree_at_spec in Ht as (_ & _ & _ & _ & Hbp).
      pose proof (heuristic_branch_nonempty bp Hbp) as H. by rewrite Hh in H.
  - destruct (Js.search gitlab_at baseUrl) as [[[[h o] r] p] |]; [| done].
    intros [= <-] _. simpl. eexists. split; [done |].
    destruct (truthy qref) as [v |] eqn:Hq; simpl; [| done].
    by apply truthy_Some in Hq as [_ ?].
Qed.

(** X21.  A GitLab reference that [parseGitUrl] has read always carries a
    ref, so [fetchGitLabFile] never probes for branches: it puts exactly
    one request, for the file at the parsed path and ref, and answers with
    the text of the response, or throws when the request fails or the
    response is not ok. *)
Theorem fetchGitLabFile_one_request (url : string) (c : GitUrlComponents) :
  parseGitUrl url = Return c → provider c = gitlab →
  ∃ v, ref c = Some v ∧ v ≠ "" ∧
    ∀ (net : Net) (token : option string) (log : list Request),
      let request := file_request token (host c) (owner c) (repo c) (path c) v in
      fetchGitLabFile net token c log =
      (match net (length log) request with
       | Throw e => Throw e
       | Return response =>
           if ok response then Return (text response)
           else Throw (api_error response v (path c))
       end, log ++ [request]).
Proof.
  intros Hparse Hprov.
  destruct (parseGitUrl_gitlab_ref url c Hparse Hprov) as (v & Hv & Hne).
  exists v. split; [done |]. split; [done |].
  intros net token log request. unfold fetchGitLabFile.
  assert (truthy (ref c) = Some v) as Ht.
  { rewrite Hv. simpl. apply is_empty_false in Hne. by rewrite Hne. }
  rewrite Ht. rewrite Ht. simpl default. fold request.
  destruct (net (length log) request) as [response | e]; [| done].
  by destruct (ok response).
Qed.

Lemma fetchGitLabFile_one_request_witness :
  ∃ v, ref {| provider := gitlab; host := "gitlab.com"; owner := "g"; repo := "p";
              ref := Some "main"; path := "overlays/prod/kustomization.yaml" |} = Some v ∧
       v ≠ "" ∧
    ∀ (net : Net) (token : option string) (log : list Request),
      let request := file_request token "gitlab.com" "g" "p"
                       "overlays/prod/kustomization.yaml" v in
      fetchGitLabFile net token
        {| provider := gitlab; host := "gitlab.com"; owner := "g"; repo := "p";
           ref := Some "main"; path := "overlays/prod/kustomization.yaml" |} log =
      (match net (length log) request with
       | Throw e => Throw e
       | Return response =>
           if ok response then Return (text response)
           else Throw (api_error response v "overlays/prod/kustomization.yaml")
       end, log ++ [request]).
Proof.
  apply (fetchGitLabFile_one_request
           "https://gitlab.com/g/p/overlays/prod/kustomization.yaml"); reflexivity.
Defined.

End GitLabBranch.

(** ** The scan of a local directory *)

Section LocalDirectory.
Import LocalScan.

Lemma remove_first_prefix (dir rest : string) : remove_first dir (dir +:+ rest) = rest.
Proof.
  assert (Str.strip_prefix dir (dir +:+ rest) = Some rest) as H by (by apply strip_prefix_Some).
  destruct (dir +:+ rest); simpl; by rewrite H.
Qed.

Lemma strip_suffix_app (suffix x : string) : Js.strip_suffix suffix (x +:+ suffix) = x.
Proof.
  unfold Js.strip_suffix. rewrite rev_app.
  assert (Str.strip_prefix (String.rev suffix) (String.rev suffix +:+ String.rev x)
          = Some (String.rev x)) as -> by (by apply strip_prefix_Some).
  apply rev_involutive.
Qed.

(** X22.  The path that [scanLocalDirectory] gives a kustomization file
    below the chosen directory is its directory, relative to the chosen
    one and written with slashes; the file at the top of the chosen
    directory does not get the path [.], but the name of the file. *)
Theorem relativePath_of_scanned_file (dir rel : string) :
  relativePath dir (dir +:+ "/" +:+ rel +:+ "/kustomization.yaml")
  = Js.or_else (slashes rel) "." ∧
  relativePath dir (dir +:+ "/kustomization.yaml") = "kustomization.yaml".
Proof.
  unfold relativePath. rewrite !remove_first_prefix. split.
  - change (strip_leading_separator ("/" +:+ rel +:+ "/kustomization.yaml"))
      with (rel +:+ "/kustomization.yaml").
    unfold strip_kustomization_file.
    assert (Str.ends_with (rel +:+ "/kustomization.yaml") "/kustomization.yaml" = true) as ->
      by (apply ends_with_app; by eexists).
    by rewrite strip_suffix_app.
  - reflexivity.
Qed.

Lemma scan_files_spec (electron : Electron) (yaml_parse : string → outcome ParsedYaml)
    (dir : string) (files : list string) (counter : nat) (nodes : list GitCrawler.CrawledNode) :
  (∀ f, f ∈ files → ∃ content, readFile electron f = Return content) →
  scan_files electron yaml_parse dir files counter nodes
  = (Return (nodes ++ local_nodes dir counter (omap (parsed_file electron yaml_parse) files)),
     counter + length (omap (parsed_file electron yaml_parse) files)).
Proof.
  revert counter nodes. induction files as [| f files IH]; intros counter nodes Hread.
  - simpl. by rewrite app_nil_r, Nat.add_0_r.
  - assert (∀ f', f' ∈ files → ∃ content, readFile electron f' = Return content) as Hread'
      by (intros f' Hf'; apply Hread, elem_of_cons; by right).
    destruct (Hread f) as [content Hcontent]; [apply elem_of_cons; by left |].
    destruct (yaml_parse content) as [kz | e] eqn:Hy.
    + assert (parsed_file electron yaml_parse f = Some (f, kz)) as Hp
        by (unfold parsed_file; by rewrite Hcontent, Hy).
      cbn [scan_files omap list_omap]. rewrite Hcontent, Hy, Hp, IH by done.
      unfold local_nodes. cbn [imap length]. rewrite <- app_assoc.
      f_equal; [| lia]. do 2 f_equal. simpl. f_equal; [by rewrite Nat.add_0_r |].
      apply imap_ext. intros i [f' kz'] _. simpl. by rewrite Nat.add_succ_r.
    + assert (parsed_file electron yaml_parse f = None) as Hp
        by (unfold parsed_file; by rewrite Hcontent, Hy).
      cbn [scan_files omap list_omap]. by rewrite Hcontent, Hy, Hp, IH.
Qed.

(** X23.  A scan of a directory whose files can all be read gives one
    node for every file that parses, in the order of the files: a local,
    loaded node of kind resource at the relative path of the file, whose
    id continues the node counter of the crawler.  A file that does not
    parse is passed over, and the counter does not move for it. *)
Theorem scanLocalDirectory_nodes
    (electron : Electron) (yaml_parse : string → outcome ParsedYaml)
    (counter : nat) (dir : string) (files : list string) :
  chooseDirectory electron = Return (Some dir) → dir ≠ "" →
  scanDirectory electron dir = Return files →
  (∀ f, f ∈ files → ∃ content, readFile electron f = Return content) →
  let found := omap (parsed_file electron yaml_parse) files in
  scanLocalDirectory (Some electron) yaml_parse counter
  = (Return (local_nodes dir counter found), counter + length found) ∧
  length found ≤ length files.
Proof.
  intros Hdir Hne Hfiles Hread found. split.
  - unfold scanLocalDirectory. rewrite Hdir. simpl GitCrawler.truthy.
    apply is_empty_false in Hne. rewrite Hne, Hfiles.
    by rewrite scan_files_spec.
  - unfold found. clear. induction files as [| f files IH]; [done |].
    cbn [omap list_omap]. destruct (parsed_file _ _ f); simpl; lia.
Qed.

Lemma scanLocalDirectory_nodes_witness :
  scanLocalDirectory (Some sample_electron) sample_yaml 4
  = (Return [ local_node 4 "overlays/prod" (of_kustomization empty_kustomization);
              local_node 5 "kustomization.yaml" (of_kustomization empty_kustomization) ], 6) ∧
  2 ≤ 3.
Proof.
  apply (scanLocalDirectory_nodes sample_electron sample_yaml 4 "/repo"
           ["/repo/overlays/prod/kustomization.yaml"; "/repo/broken/kustomization.yaml";
            "/repo/kustomization.yaml"]).
  - reflexivity.
  - discriminate.
  - reflexivity.
  - intros f _. by exists f.
Defined.

End LocalDirectory.

(** ** Manifest files and kustomization files *)

Section ManifestTests.
Import DependencyResolver GitCrawler.

(** Lower-casing goes through a concatenation whose second part begins
    with an ASCII character: no code point lies across the seam. *)
Lemma to_lower_app (s : string) (a : ascii) (t : string) :
  nat_of_ascii a < 128 →
  Str.to_lower (s +:+ String a t) = Str.to_lower s +:+ Str.to_lower (String a t).
Proof.
  intros Ha.
  assert (Hd : ∀ c, Str.dotted_capital_i c a = false).
  { intros c. unfold Str.dotted_capital_i. apply andb_false_iff. right.
    apply bool_decide_eq_false. intros ->. vm_compute in Ha. lia. }
  assert (Hk : ∀ c e, Str.kelvin_sign c a e = false).
  { intros c e. unfold Str.kelvin_sign. apply andb_false_iff. left.
    apply andb_false_iff. right.
    apply bool_decide_eq_false. intros ->. vm_compute in Ha. lia. }
  assert (Hk' : ∀ c d, Str.kelvin_sign c d a = false).
  { intros c d. unfold Str.kelvin_sign. apply andb_false_iff. right.
    apply bool_decide_eq_false. intros ->. vm_compute in Ha. lia. }
  remember (String.length s) as n eqn:Hn. revert s Hn.
  induction (lt_wf n) as [n _ IH]. intros s ->.
  destruct s as [| c [| d [| e s]]].
  - done.
  - rewrite app_String, app_empty_l. cbn [Str.to_lower]. rewrite Hd.
    destruct t as [| e t]; [done |]. by rewrite Hk.
  - rewrite !app_String, app_empty_l.
    change (Str.to_lower (String c (String d EmptyString)))
      with (if Str.dotted_capital_i c d
            then String "i" (Str.combining_dot +:+ Str.to_lower EmptyString)
            else String (Str.lower_ascii c) (Str.to_lower (String d EmptyString))).
    change (Str.to_lower (String c (String d (String a t))))
      with (if Str.dotted_capital_i c d
            then String "i" (Str.combining_dot +:+ Str.to_lower (String a t))
            else if Str.kelvin_sign c d a then String "k" (Str.to_lower t)
                 else String (Str.lower_ascii c) (Str.to_lower (String d (String a t)))).
    rewrite Hk'. destruct (Str.dotted_capital_i c d); [done |].
    rewrite app_String. f_equal.
    specialize (IH 1 ltac:(simpl; lia) (String d EmptyString) eq_refl).
    by rewrite app_String, app_empty_l in IH.
  - rewrite !app_String.
    change (Str.to_lower (String c (String d (String e s))))
      with (if Str.dotted_capital_i c d
            then String "i" (Str.combining_dot +:+ Str.to_lower (String e s))
            else if Str.kelvin_sign c d e then String "k" (Str.to_lower s)
                 else String (Str.lower_ascii c) (Str.to_lower (String d (String e s)))).
    change (Str.to_lower (String c (String d (String e (s +:+ String a t)))))
      with (if Str.dotted_capital_i c d
            then String "i" (Str.combining_dot +:+ Str.to_lower (String e (s +:+ String a t)))
            else if Str.kelvin_sign c d e then String "k" (Str.to_lower (s +:+ String a t))
                 else String (Str.lower_ascii c)
                        (Str.to_lower (String d (String e (s +:+ String a t))))).
    destruct (Str.dotted_capital_i c d).
    + rewrite app_String. f_equal.
      specialize (IH (S (String.length s)) ltac:(simpl; lia) (String e s) eq_refl).
      rewrite app_String in IH. rewrite IH. by rewrite app_assoc_str.
    + destruct (Str.kelvin_sign c d e).
      * rewrite app_String. f_equal. by apply (IH (String.length s) ltac:(simpl; lia)).
      * rewrite app_String. f_equal.
        specialize (IH (S (S (String.length s))) ltac:(simpl; lia)
                      (String d (String e s)) eq_refl).
        by rewrite !app_String in IH.
Qed.

Lemma ends_with_lower (s : string) (a : ascii) (p : string) :
  nat_of_ascii a < 128 →
  Str.ends_with s (String a p) = true →
  Str.ends_with (Str.to_lower s) (Str.to_lower (String a p)) = true.
Proof.
  intros Ha H. apply ends_with_app in H as [x ->]. apply ends_with_app.
  exists (Str.to_lower x). by apply to_lower_app.
Qed.

(** The test of the crawler sees through the case of a name, also where
    the capital is no ASCII letter: the name of a kustomization file whose
    first letter is the Kelvin sign is no plain manifest file. *)
Example isYamlFile_folds_case :
  isYamlFile "Deploy.YAML" = true ∧ isYamlFile "KUSTOMIZATION.YML" = false ∧
  isYamlFile (String "226" (String "132" (String "170" "ustomization.yaml"))) = false ∧
  plain_yaml (String "226" (String "132" (String "170" "ustomization.yaml"))) = true.
Proof. repeat split; reflexivity. Qed.

(** X24.  The two tests for plain manifest files differ on kustomization
    files and on case: an entry that the graph builder skips is skipped by
    the crawler too, unless its name ends like a kustomization file, which
    the crawler follows while the builder draws no edge for it; and what
    the crawler skips ends in [.yaml] or [.yml] once put in lower case. *)
Theorem manifest_tests_compared (entry : string) :
  (plain_yaml entry = true → isYamlFile entry = negb (kustomization_name entry)) ∧
  (isYamlFile entry = true →
   plain_yaml (Str.to_lower entry) = true ∧ kustomization_name entry = false) ∧
  (Str.ends_with entry "kustomization.yaml" = true →
   plain_yaml entry = true ∧ isYamlFile entry = false).
Proof.
  assert (Hplain : plain_yaml entry = true → plain_yaml (Str.to_lower entry) = true).
  { unfold plain_yaml. intros H. apply orb_true_iff in H as [H | H];
      (apply ends_with_lower in H; [| vm_compute; lia]);
      apply orb_true_iff; [by left | by right]. }
  split; [| split].
  - intros H. apply Hplain in H. unfold isYamlFile, kustomization_name.
    unfold plain_yaml in H. rewrite H. simpl. by rewrite negb_orb.
  - unfold isYamlFile, kustomization_name, plain_yaml. intros H.
    apply andb_true_iff in H as [H H3]. apply andb_true_iff in H as [H1 H2].
    split; [done |]. apply negb_true_iff in H2, H3. by rewrite H2, H3.
  - intros H.
    assert (plain_yaml entry = true) as Hp.
    { apply ends_with_app in H as [x ->]. unfold plain_yaml. apply orb_true_iff. left.
      apply ends_with_app. exists (x +:+ "kustomization"). by rewrite app_assoc_str. }
    split; [done |].
    apply ends_with_lower in H; [| vm_compute; lia]. unfold isYamlFile.
    change (Str.to_lower "kustomization.yaml") with "kustomization.yaml" in H.
    rewrite H. simpl. by rewrite andb_false_r.
Qed.

End ManifestTests.

(** ** The file that a crawl requests *)

Section RequestedFile.
Import GitCrawler.

Lemma path_part_kustomization_file (p : string) :
  path_part (kustomization_file p) = path_part p +:+ "/kustomization.yaml".
Proof.
  unfold path_part, kustomization_file. destruct (Str.is_empty p) eqn:E; [done |].
  destruct p as [| c p]; [done |]. rewrite app_String. simpl.
  by rewrite app_String.
Qed.

Lemma ensureKustomizationYaml_buildGitUrl
    (pr : Provider) (h o r p : string) (rf : option string) :
  free_of "?" h → free_of "?" o → free_of "?" r → free_of "?" p →
  let url := buildGitUrl pr h o r rf p in
  Str.ends_with url "kustomization.yaml" || Str.ends_with url "kustomization.yml" = false →
  ensureKustomizationYaml url = buildGitUrl pr h o r rf (kustomization_file p).
Proof.
  intros Hh Ho Hr Hp url Hends. subst url. unfold ensureKustomizationYaml. rewrite Hends.
  unfold buildGitUrl. fold (path_part p). fold (path_part (kustomization_file p)).
  rewrite path_part_kustomization_file.
  set (b := "https://" +:+ h +:+ "/" +:+ o +:+ "/" +:+ r +:+ path_part p).
  assert (free_of "?" b) as Hb.
  { unfold b. repeat (apply free_of_app; split); try done; try (by apply mem_free).
    by apply path_part_free. }
  assert ("https://" +:+ h +:+ "/" +:+ o +:+ "/" +:+ r +:+ path_part p +:+ "/kustomization.yaml"
          = b +:+ "/kustomization.yaml") as -> by (unfold b; by rewrite !app_assoc_str).
  destruct (truthy rf) as [v |].
  - rewrite split_query_built by done.
    change (Str.is_empty ("ref=" +:+ Uri.encodeURIComponent v)) with false. cbv iota.
    by rewrite !app_assoc_str.
  - by rewrite split_query_no_query.
Qed.

(** X25.  For a directory of a GitHub repository the crawler asks for the
    file [kustomization.yaml] of that directory, in the same repository
    and at the same ref: [parseGitUrl] reads these components from the
    URL that [ensureKustomizationYaml] makes of the directory's URL. *)
Theorem crawl_requests_kustomization_file
    (pr : Provider) (o r p : string) (rf : option string) :
  url_segment o → repo_segment r → url_path (kustomization_file p) → usable_ref rf →
  let url := buildGitUrl pr "github.com" o r rf p in
  Str.ends_with url "kustomization.yaml" || Str.ends_with url "kustomization.yml" = false →
  ensureKustomizationYaml url
  = buildGitUrl pr "github.com" o r rf (kustomization_file p) ∧
  parseGitUrl (ensureKustomizationYaml url)
  = Return {| provider := github; host := "github.com"; owner := o; repo := r;
              ref := rf; path := kustomization_file p |}.
Proof.
  intros Ho Hr Hp Hrf url Hends.
  assert (free_of "?" p) as Hpq.
  { destruct Hp as [Hp _]. unfold kustomization_file in Hp.
    destruct (Str.is_empty p) eqn:E; [apply is_empty_true in E; subst; apply free_of_nil |].
    by apply free_of_app in Hp as [? _]. }
  assert (ensureKustomizationYaml url
          = buildGitUrl pr "github.com" o r rf (kustomization_file p)) as Hens.
  { destruct Ho as (_ & _ & Hoq), Hr as [(_ & _ & Hrq) _].
    apply ensureKustomizationYaml_buildGitUrl; try done. by apply mem_free. }
  split; [done |]. rewrite Hens. by apply parse_built_github.
Qed.

Lemma crawl_requests_kustomization_file_witness :
  ensureKustomizationYaml (buildGitUrl github "github.com" "org" "repo" (Some "v1") "base")
  = buildGitUrl github "github.com" "org" "repo" (Some "v1") "base/kustomization.yaml" ∧
  parseGitUrl
    (ensureKustomizationYaml (buildGitUrl github "github.com" "org" "repo" (Some "v1") "base"))
  = Return {| provider := github; host := "github.com"; owner := "org"; repo := "repo";
              ref := Some "v1"; path := "base/kustomization.yaml" |}.
Proof.
  apply (crawl_requests_kustomization_file github "org" "repo" "base" (Some "v1")).
  - by apply url_segment_sample.
  - split; [by apply url_segment_sample | reflexivity].
  - split; [by apply mem_free | reflexivity].
  - split; [discriminate | split; [discriminate | reflexivity]].
  - reflexivity.
Defined.

End RequestedFile.

(** ** Crawler and graph builder on a relative reference *)

Section ChildPath.
Import DependencyResolver GitCrawler.

Lemma joinPaths_nonempty (b r : string) : joinPaths b r ≠ "".
Proof. unfold joinPaths. by apply or_else_nonempty. Qed.

Lemma or_else_self (x d : string) : x ≠ "" → Js.or_else x d = x.
Proof. intros H. unfold Js.or_else. apply is_empty_false in H. by rewrite H. Qed.

Lemma buildGitUrl_full (pr : Provider) (h o r p : string) (rf : option string) :
  Str.starts_with (buildGitUrl pr h o r rf p) "https://" = true.
Proof.
  unfold buildGitUrl. destruct (truthy rf);
    apply starts_with_app; eexists; by rewrite ?app_assoc_str.
Qed.

(** X26.  Crawler and graph builder agree on a relative reference of a
    GitHub kustomization: the URL that [resolveUrl] builds for it is a
    full URL that [normalizeUrl] keeps, in the same repository and at the
    same ref, and the path of the node the crawler makes for it is the
    path to which the builder's [resolvePath] resolves the reference from
    the path of the parent node. *)
Theorem crawled_child_sits_at_resolved_path
    (parentUrl relativePath : string) (c : GitUrlComponents) :
  parseGitUrl parentUrl = Return c → host c = "github.com" →
  url_segment (owner c) → repo_segment (repo c) → usable_ref (ref c) →
  path c = "" ∨ "." ∉ Str.split "/" (path c) →
  isFullUrl relativePath = false →
  let p := joinPaths (path c) relativePath in
  url_path p → Str.starts_with p "-/" = false →
  Str.includes (url_tail "github.com" (owner c) (repo c) p) "://" = false →
  Str.includes (url_tail "github.com" (owner c) (repo c) p) "/tree/" = false →
  Str.ends_with (url_tail "github.com" (owner c) (repo c) p) "/" = false →
  ∃ child c',
    resolveUrl parentUrl relativePath = Return child ∧ isFullUrl child = true ∧
    normalizeUrl child = child ∧ parseGitUrl (normalizeUrl child) = Return c' ∧
    provider c' = github ∧ host c' = host c ∧ owner c' = owner c ∧
    repo c' = repo c ∧ ref c' = ref c ∧
    Js.or_else (path c') "." = resolvePath (Js.or_else (path c) ".") relativePath.
Proof.
  intros Hparse Hhost Ho Hr Hrf Hdot Hrel p Hp Hdash Hplain Htree Hend.
  set (child := buildGitUrl (provider c) "github.com" (owner c) (repo c) (ref c) p).
  assert (resolveUrl parentUrl relativePath = Return child) as Hres.
  { unfold resolveUrl. by rewrite Hrel, Hparse, Hhost. }
  assert (normalizeUrl child = child) as Hnorm.
  { destruct Ho as (Hone & Hos & Hoq), Hr as [(Hrne & Hrs & Hrq) Hgit], Hp as [Hpq Hline].
    apply normalizeUrl_built; try done; try (by apply mem_free).
    all: split; done. }
  exists child, {| provider := github; host := "github.com"; owner := owner c;
                   repo := repo c; ref := ref c; path := p |}.
  split; [done |].
  split; [unfold isFullUrl, child; by rewrite buildGitUrl_full, orb_true_r |].
  split; [done |].
  split; [rewrite Hnorm; by apply parse_built_github |].
  simpl. rewrite Hhost. repeat (split; [done |]).
  rewrite or_else_self by apply joinPaths_nonempty.
  rewrite resolvePath_joinPaths_eq.
  - unfold p. destruct Hdot as [-> | Hdot]; [done |].
    destruct (path c) as [| a s] eqn:E; [done |]. done.
  - destruct (path c) as [| a s] eqn:E; [by left |].
    right. by destruct Hdot as [? | Hdot].
Qed.

Lemma crawled_child_sits_at_resolved_path_witness :
  ∃ child c',
    resolveUrl "https://github.com/org/repo/overlays/prod?ref=v1" "../../base"
    = Return child ∧ isFullUrl child = true ∧
    normalizeUrl child = child ∧ parseGitUrl (normalizeUrl child) = Return c' ∧
    provider c' = github ∧ host c' = "github.com" ∧ owner c' = "org" ∧
    repo c' = "repo" ∧ ref c' = Some "v1" ∧
    Js.or_else (path c') "." = resolvePath (Js.or_else "overlays/prod" ".") "../../base".
Proof.
  apply (crawled_child_sits_at_resolved_path
           "https://github.com/org/repo/overlays/prod?ref=v1" "../../base"
           {| provider := github; host := "github.com"; owner := "org"; repo := "repo";
              ref := Some "v1"; path := "overlays/prod" |}).
  - reflexivity.
  - reflexivity.
  - by apply url_segment_sample.
  - split; [by apply url_segment_sample | reflexivity].
  - split; [discriminate | split; [discriminate | reflexivity]].
  - right. intros H. vm_compute in H.
    repeat (apply elem_of_cons in H as [H | H]; [discriminate |]).
    by apply elem_of_nil in H.
  - reflexivity.
  - split; [by apply mem_free | reflexivity].
  - reflexivity.
  - reflexivity.
  - reflexivity.
  - reflexivity.
Defined.

End ChildPath.

(** ** [buildGraph] on a closed set of local kustomizations *)

Section ClosedLocal.
Import DependencyResolver.

Lemma map_set_fresh_app {V} (m : Js.Map V) (k : string) (v : V) :
  Js.map_get m k = None → Js.map_set m k v = m ++ [(k, v)].
Proof.
  induction m as [| [k' v'] m IH]; simpl; [done |].
  case_decide; [done |]. intros Hget. by rewrite IH.
Qed.

Lemma index_distinct (ns : list KustomizeNode) (acc : Js.Map KustomizeNode) :
  NoDup (map fst acc ++ map n_path ns) →
  fold_left (λ m node, Js.map_set m (n_path node) node) ns acc = acc ++ path_index ns.
Proof.
  revert acc. induction ns as [| n ns IH]; intros acc Hnd; simpl.
  - by rewrite app_nil_r.
  - rewrite map_set_fresh_app.
    + rewrite IH.
      * by rewrite <- app_assoc.
      * rewrite map_app. simpl. by rewrite <- app_assoc.
    + apply map_get_None. simpl in Hnd. apply NoDup_app in Hnd as (_ & Hdis & _).
      intros Hin. apply (Hdis _ Hin). apply elem_of_cons. by left.
Qed.

Lemma path_index_keys (ns : list KustomizeNode) : map fst (path_index ns) = map n_path ns.
Proof. unfold path_index. rewrite map_map. done. Qed.

Lemma path_index_found (ns : list KustomizeNode) (m : KustomizeNode) :
  NoDup (map n_path ns) → m ∈ ns → Js.map_get (path_index ns) (n_path m) = Some m.
Proof.
  intros Hnd Hm. apply map_get_elem_NoDup; [by rewrite path_index_keys |].
  unfold path_index. apply list_elem_of_fmap. by exists m.
Qed.

Lemma fold_left_preserves_in {A B} (P : A → Prop) (f : A → B → A) (l : list B) (a : A) :
  (∀ a b, b ∈ l → P a → P (f a b)) → P a → P (fold_left f l a).
Proof.
  revert a. induction l as [| b l IH]; intros a Hf Ha; [done |].
  simpl. apply IH.
  - intros a' b' Hb'. apply Hf, elem_of_cons. by right.
  - apply Hf; [apply elem_of_cons; by left | done].
Qed.

Section Closed.
Context (ns : list KustomizeNode).
Context (Hpaths : NoDup (map n_path ns)) (Hclosed : closed_local ns).

Lemma processReference_closed (n : KustomizeNode) (r : string) (t : NodeType) (st : Builder) :
  n ∈ ns → (r, t) ∈ edge_entries n →
  nodeMap st = path_index ns ∧ Forall (resolved_edge ns) (edgeList st) →
  nodeMap (processReference n r t st) = path_index ns ∧
  Forall (resolved_edge ns) (edgeList (processReference n r t st)).
Proof.
  intros Hn Hr [Hmap Hedges].
  destruct (Hclosed n r t Hn Hr) as (Hlocal & m & Hm & Hpath).
  unfold processReference, isLocalPath. rewrite Hlocal. simpl.
  rewrite Hmap, <- Hpath, (path_index_found ns m Hpaths Hm). simpl.
  split; [done |]. apply Forall_app. split; [done |].
  apply Forall_singleton. by exists n, m.
Qed.

Lemma buildEdgesForNode_closed (n : KustomizeNode) (st : Builder) :
  n ∈ ns →
  nodeMap st = path_index ns ∧ Forall (resolved_edge ns) (edgeList st) →
  nodeMap (buildEdgesForNode n st) = path_index ns ∧
  Forall (resolved_edge ns) (edgeList (buildEdgesForNode n st)).
Proof.
  intros Hn Hst. unfold buildEdgesForNode.
  apply (fold_left_preserves_in
           (λ st, nodeMap st = path_index ns ∧ Forall (resolved_edge ns) (edgeList st))).
  { intros st' c Hc. apply processReference_closed; [done |].
    unfold edge_entries. rewrite !elem_of_app. right. right.
    apply list_elem_of_fmap. by exists c. }
  apply (fold_left_preserves_in
           (λ st, nodeMap st = path_index ns ∧ Forall (resolved_edge ns) (edgeList st))).
  { intros st' b Hb. apply processReference_closed; [done |].
    unfold edge_entries. rewrite !elem_of_app. right. left.
    apply list_elem_of_fmap. by exists b. }
  apply (fold_left_preserves_in
           (λ st, nodeMap st = path_index ns ∧ Forall (resolved_edge ns) (edgeList st)));
    [| done].
  intros st' r Hr Hst'. destruct (plain_yaml r) eqn:Hy; simpl; [done |].
  apply processReference_closed; [done | | done].
  unfold edge_entries. rewrite !elem_of_app. left.
  apply list_elem_of_fmap. exists r. split; [done |].
  apply list_elem_of_In, filter_In. split; [by apply list_elem_of_In | by rewrite Hy].
Qed.

Lemma build_closed (counter : nat) :
  nodeMap (build counter ns) = path_index ns ∧
  Forall (resolved_edge ns) (edgeList (build counter ns)).
Proof.
  unfold build.
  apply (fold_left_preserves_in
           (λ st, nodeMap st = path_index ns ∧ Forall (resolved_edge ns) (edgeList st))).
  - intros st n Hn. by apply buildEdgesForNode_closed.
  - simpl. split; [| done]. rewrite index_distinct; [done |]. done.
Qed.

End Closed.

Lemma correct_first_keeps (nm : Js.Map KustomizeNode) (nodeId : string)
    (refTypes : list NodeType) :
  map (λ kn, (kn.1, n_id kn.2)) (correct_first nm nodeId refTypes)
  = map (λ kn, (kn.1, n_id kn.2)) nm.
Proof.
  induction nm as [| [k n] nm IH]; [done |]. simpl.
  case_decide; simpl; [done | by rewrite IH].
Qed.

Lemma correctNodeTypes_keeps (nm : Js.Map KustomizeNode) (es : list DependencyEdge) :
  map (λ kn, (kn.1, n_id kn.2)) (correctNodeTypes nm es)
  = map (λ kn, (kn.1, n_id kn.2)) nm.
Proof.
  unfold correctNodeTypes. generalize (nodeReferenceTypes es). intros m.
  revert nm. induction m as [| [t ts] m IH]; intros nm; [done |].
  simpl. by rewrite IH, correct_first_keeps.
Qed.

(** X27.  On nodes with pairwise different paths whose entries are all
    local and resolve to paths of nodes among them (what the scan of a
    complete local tree gives), [buildGraph] invents no node: the index
    holds the given nodes under their paths, in their order, and every
    edge runs between two of them, its target being the node at the path
    to which the label resolves from the path of its source. *)
Theorem buildGraph_closed_local (counter : nat) (ns : list KustomizeNode) :
  NoDup (map n_path ns) → closed_local ns →
  let g := buildGraph counter ns in
  map (λ kn, (kn.1, n_id kn.2)) (nodes g) = map (λ n, (n_path n, n_id n)) ns ∧
  Forall (resolved_edge ns) (edges g).
Proof.
  intros Hpaths Hclosed g.
  destruct (build_closed ns Hpaths Hclosed counter) as [Hmap Hedges].
  split; [| done].
  unfold g, buildGraph. simpl. rewrite correctNodeTypes_keeps, Hmap.
  unfold path_index. by rewrite map_map.
Qed.

Lemma buildGraph_closed_local_witness :
  let g := buildGraph 0 sample_nodes in
  map (λ kn, (kn.1, n_id kn.2)) (nodes g) = map (λ n, (n_path n, n_id n)) sample_nodes ∧
  Forall (resolved_edge sample_nodes) (edges g).
Proof.
  apply buildGraph_closed_local.
  - vm_compute. repeat constructor; intros H;
      repeat (apply elem_of_cons in H as [H | H]; [discriminate |]);
      by apply elem_of_nil in H.
  - intros n r t Hn Hr. unfold sample_nodes in Hn.
    repeat (apply elem_of_cons in Hn as [-> | Hn]);
      [| | | by apply elem_of_nil in Hn];
      vm_compute in Hr;
      repeat (apply elem_of_cons in Hr as [[= -> ->] | Hr]);
      try (by apply elem_of_nil in Hr);
      (split; [reflexivity |]).
    + exists (sample_node "node-1" "base" [] [] []).
      split; [| reflexivity]. apply elem_of_cons; right. apply elem_of_cons; by left.
    + exists (sample_node "node-2" "shared" ["../base"] [] []).
      split; [| reflexivity]. do 2 (apply elem_of_cons; right). apply elem_of_cons; by left.
    + exists (sample_node "node-2" "shared" ["../base"] [] []).
      split; [| reflexivity]. do 2 (apply elem_of_cons; right). apply elem_of_cons; by left.
    + exists (sample_node "node-1" "base" [] [] []).
      split; [| reflexivity]. apply elem_of_cons; right. apply elem_of_cons; by left.
Defined.

End ClosedLocal.
